(** * Task-dependency scheduling core (lib/dependencies.ts)

    A shallow embedding of the dependency parser, the cycle detector, the
    topological orderer and the schedule calculator, followed by the
    properties established about them.

    Modelling conventions
    - a JavaScript [number] that can occur as a task identifier or inside a
      JSON text is kept as an exact decimal in canonical form ([number]
      below); rounding to IEEE doubles is not modelled;
    - a text is a sequence of 8-bit characters, and [JSON.parse] is a
      lexer and a stack parser for the JSON grammar, both total;
    - a [Date] object is a valid date, given by its millisecond
      timestamp, or the Invalid Date that [new Date(ms)] builds when [ms]
      lies more than 8.64e15 milliseconds from the epoch, and with which
      every comparison is false; a duration is a whole number of hours,
      as the column of the database has it;
    - a [Map] is an association list in insertion order, a [Set] a list in
      insertion order, as iteration order is observable in the source;
    - a function whose recursion is bounded by a visited set or by a
      queue is given fuel, returns [None] when the fuel runs out, and is
      shown to have enough; [None] is also what a call yields that would
      throw a [TypeError]; the depth of the call stack is not modelled;
    - [new Date()] reads an explicit clock: the [k]-th reading taken during
      one call is [clock k].

    The development then follows the scheduler to its callers: the route
    that serves the schedule, the route that creates a task, the handlers
    of the page, the levels and edges of the dependency graph component,
    and the choice of an image.  There
    - what the outside world answers (the database, the image search, the
      reading of a date) is a parameter of the model;
    - [JSON.stringify], [parseInt] and [toLowerCase] are written out for
      the 8-bit texts and the integers the callers pass to them;
    - positions, animation and drawing of the graph are left out. *)

From Stdlib Require Import String Ascii.
From Stdlib Require Import ZArith List Bool Lia Relations Wellfounded.
From Stdlib Require DecimalString DecimalPos.
Import ListNotations.

#[local] Set Warnings "-register-all".
Open Scope Z_scope.

(* ------------------------------------------------------------------ *)
(** ** JavaScript numbers *)

(** [NInt z] is the integral value [z]; [NDec m e] is [m * 10^(-e)] with
    [m] not a multiple of ten, a value with a fractional part. *)
Inductive number : Type :=
| NInt (z : Z)
| NDec (m : Z) (e : positive).

Definition number_eqb (a b : number) : bool :=
  match a, b with
  | NInt x, NInt y => x =? y
  | NDec m e, NDec m' e' => (m =? m') && (e =? e')%positive
  | _, _ => false
  end.

Definition is_integer (n : number) : bool :=
  match n with NInt _ => true | NDec _ _ => false end.

(* ------------------------------------------------------------------ *)
(** ** JSON values and [JSON.parse] *)

Module Json.

(** String contents are kept as character codes. *)
Inductive value : Type :=
| JNull
| JBool (b : bool)
| JNumber (n : number)
| JString (s : list N)
| JArray (elems : list value)
| JObject (members : list (list N * value)).

(** A number literal as read: sign, the digits of the integer and fraction
    parts as one natural number, how many of them there are, how many
    belong to the fraction, and the exponent. *)
Record numlit := mkNumlit {
  neg : bool;
  digits : Z;
  ndigits : nat;
  fracdigits : Z;
  eneg : bool;
  expo : Z
}.

Fixpoint strip_zeros (fuel : nat) (m e : Z) : Z * Z :=
  match fuel with
  | O => (m, e)
  | S fuel' => if m mod 10 =? 0 then strip_zeros fuel' (m / 10) (e + 1) else (m, e)
  end.

(** The value of a literal, kept exactly.  [JSON.parse] rounds it to the
    nearest double; the two agree on every literal that denotes a double,
    the safe integers among them. *)
Definition number_of_numlit (l : numlit) : number :=
  if digits l =? 0 then NInt 0
  else
    let e0 := (if eneg l then - expo l else expo l) - fracdigits l in
    let '(m, e) := strip_zeros (ndigits l) (digits l) e0 in
    let m := if neg l then - m else m in
    if 0 <=? e then NInt (m * 10 ^ e) else NDec m (Z.to_pos (- e)).

Inductive token : Type :=
| TLBracket | TRBracket | TLBrace | TRBrace | TComma | TColon
| TLit (v : value).

Inductive numstate : Type :=
| NMinus   (* after the sign, a digit must follow *)
| NZero    (* after a leading zero *)
| NIntPart (* inside the integer digits *)
| NDot     (* after the point, a digit must follow *)
| NFrac    (* inside the fraction digits *)
| NE       (* after e or E *)
| NESign   (* after the exponent sign, a digit must follow *)
| NExp.    (* inside the exponent digits *)

Inductive lexmode : Type :=
| LTop
| LWord (rest : list ascii) (v : value)
| LStr (acc : list N)
| LEsc (acc : list N)
| LHex (acc : list N) (k : nat) (code : N)
| LNum (st : numstate) (l : numlit).

Definition digit_of (c : ascii) : option Z :=
  let n := Z.of_N (N_of_ascii c) in
  if (48 <=? n) && (n <=? 57) then Some (n - 48) else None.

Definition hex_of (c : ascii) : option N :=
  let n := N_of_ascii c in
  (if (48 <=? n) && (n <=? 57) then Some (n - 48)
   else if (65 <=? n) && (n <=? 70) then Some (n - 55)
   else if (97 <=? n) && (n <=? 102) then Some (n - 87)
   else None)%N.

Definition is_ws (c : ascii) : bool :=
  let n := N_of_ascii c in
  ((n =? 32) || (n =? 9) || (n =? 10) || (n =? 13))%N.

Definition lit0 (sign : bool) : numlit :=
  mkNumlit sign 0 0 0 false 0.

Definition add_int_digit (l : numlit) (d : Z) : numlit :=
  mkNumlit (neg l) (digits l * 10 + d) (S (ndigits l)) (fracdigits l) (eneg l) (expo l).

Definition add_frac_digit (l : numlit) (d : Z) : numlit :=
  mkNumlit (neg l) (digits l * 10 + d) (S (ndigits l)) (fracdigits l + 1) (eneg l) (expo l).

Definition add_exp_digit (l : numlit) (d : Z) : numlit :=
  mkNumlit (neg l) (digits l) (ndigits l) (fracdigits l) (eneg l) (expo l * 10 + d).

Definition set_eneg (l : numlit) : numlit :=
  mkNumlit (neg l) (digits l) (ndigits l) (fracdigits l) true (expo l).

Definition dquote : ascii := ascii_of_N 34.

Definition backslash : ascii := ascii_of_N 92.

Definition lex_top (c : ascii) : option (lexmode * list token) :=
  if is_ws c then Some (LTop, [])
  else if Ascii.eqb c dquote then Some (LStr [], [])
  else match c with
  | "["%char => Some (LTop, [TLBracket])
  | "]"%char => Some (LTop, [TRBracket])
  | "{"%char => Some (LTop, [TLBrace])
  | "}"%char => Some (LTop, [TRBrace])
  | ","%char => Some (LTop, [TComma])
  | ":"%char => Some (LTop, [TColon])
  | "-"%char => Some (LNum NMinus (lit0 true), [])
  | "t"%char => Some (LWord (list_ascii_of_string "rue") (JBool true), [])
  | "f"%char => Some (LWord (list_ascii_of_string "alse") (JBool false), [])
  | "n"%char => Some (LWord (list_ascii_of_string "ull") JNull, [])
  | _ =>
    match digit_of c with
    | Some d =>
      if d =? 0 then Some (LNum NZero (add_int_digit (lit0 false) 0), [])
      else Some (LNum NIntPart (add_int_digit (lit0 false) d), [])
    | None => None
    end
  end.

Definition is_e (c : ascii) : bool :=
  (Ascii.eqb c "e" || Ascii.eqb c "E")%char.

(** A literal may stop in the states [NZero], [NIntPart], [NFrac], [NExp]. *)
Definition num_accepting (st : numstate) : bool :=
  match st with
  | NZero | NIntPart | NFrac | NExp => true
  | _ => false
  end.

Definition num_finish (st : numstate) (l : numlit) : option token :=
  if num_accepting st then Some (TLit (JNumber (number_of_numlit l))) else None.

(** One character inside a number: either it continues the literal, or
    the literal ends here and the character is read at top level. *)
Definition lex_num (st : numstate) (l : numlit) (c : ascii)
  : option (lexmode * list token) :=
  let stop :=
    match num_finish st l, lex_top c with
    | Some t, Some (m, ts) => Some (m, t :: ts)
    | _, _ => None
    end in
  match st, digit_of c with
  | NMinus, Some d =>
    if d =? 0 then Some (LNum NZero (add_int_digit l 0), [])
    else Some (LNum NIntPart (add_int_digit l d), [])
  | NMinus, None => None
  | NZero, Some _ => None
  | NIntPart, Some d => Some (LNum NIntPart (add_int_digit l d), [])
  | (NZero | NIntPart), None =>
    if Ascii.eqb c "." then Some (LNum NDot l, [])
    else if is_e c then Some (LNum NE l, [])
    else stop
  | NDot, Some d => Some (LNum NFrac (add_frac_digit l d), [])
  | NDot, None => None
  | NFrac, Some d => Some (LNum NFrac (add_frac_digit l d), [])
  | NFrac, None => if is_e c then Some (LNum NE l, []) else stop
  | NE, Some d => Some (LNum NExp (add_exp_digit l d), [])
  | NE, None =>
    if Ascii.eqb c "+" then Some (LNum NESign l, [])
    else if Ascii.eqb c "-" then Some (LNum NESign (set_eneg l), [])
    else None
  | NESign, Some d => Some (LNum NExp (add_exp_digit l d), [])
  | NESign, None => None
  | NExp, Some d => Some (LNum NExp (add_exp_digit l d), [])
  | NExp, None => stop
  end.

Definition lex_escape (acc : list N) (c : ascii) : option (lexmode * list token) :=
  if Ascii.eqb c dquote then Some (LStr (34%N :: acc), [])
  else if Ascii.eqb c backslash then Some (LStr (92%N :: acc), [])
  else match c with
  | "/"%char => Some (LStr (47%N :: acc), [])
  | "b"%char => Some (LStr (8%N :: acc), [])
  | "f"%char => Some (LStr (12%N :: acc), [])
  | "n"%char => Some (LStr (10%N :: acc), [])
  | "r"%char => Some (LStr (13%N :: acc), [])
  | "t"%char => Some (LStr (9%N :: acc), [])
  | "u"%char => Some (LHex acc 4 0%N, [])
  | _ => None
  end.

Definition lex_step (m : lexmode) (c : ascii) : option (lexmode * list token) :=
  match m with
  | LTop => lex_top c
  | LWord [] _ => None
  | LWord (x :: rest) v =>
    if Ascii.eqb c x then
      match rest with
      | [] => Some (LTop, [TLit v])
      | _ => Some (LWord rest v, [])
      end
    else None
  | LStr acc =>
    if Ascii.eqb c dquote then Some (LTop, [TLit (JString (rev acc))])
    else if Ascii.eqb c backslash then Some (LEsc acc, [])
    else if (N_of_ascii c <? 32)%N then None
    else Some (LStr (N_of_ascii c :: acc), [])
  | LEsc acc => lex_escape acc c
  | LHex acc k code =>
    match hex_of c with
    | Some d =>
      let code' := (code * 16 + d)%N in
      match k with
      | S (S k') => Some (LHex acc (S k') code', [])
      | _ => Some (LStr (code' :: acc), [])
      end
    | None => None
    end
  | LNum st l => lex_num st l c
  end.

Definition lex_end (m : lexmode) : option (list token) :=
  match m with
  | LTop => Some []
  | LNum st l =>
    match num_finish st l with
    | Some t => Some [t]
    | None => None
    end
  | _ => None
  end.

Fixpoint lex (m : lexmode) (s : list ascii) : option (list token) :=
  match s with
  | [] => lex_end m
  | c :: r =>
    match lex_step m c with
    | None => None
    | Some (m', ts) =>
      match lex m' r with
      | None => None
      | Some ts' => Some (ts ++ ts')
      end
    end
  end.

(** The parser keeps the containers that are still open on a stack. *)
Inductive frame : Type :=
| FArr (elems : list value)
| FObj (members : list (list N * value)) (key : option (list N)).

Inductive expect : Type :=
| EValue          (* a value *)
| EValueOrClose   (* just after an opening bracket *)
| EKeyOrClose     (* just after an opening brace *)
| EKey            (* after a comma inside an object *)
| EColon
| ECommaOrClose
| EDone (v : value).

Definition push_value (v : value) (stack : list frame) : option (list frame * expect) :=
  match stack with
  | [] => Some ([], EDone v)
  | FArr es :: st => Some (FArr (v :: es) :: st, ECommaOrClose)
  | FObj ms (Some k) :: st => Some (FObj ((k, v) :: ms) None :: st, ECommaOrClose)
  | FObj _ None :: _ => None
  end.

Definition start_value (t : token) (stack : list frame) : option (list frame * expect) :=
  match t with
  | TLit v => push_value v stack
  | TLBracket => Some (FArr [] :: stack, EValueOrClose)
  | TLBrace => Some (FObj [] None :: stack, EKeyOrClose)
  | _ => None
  end.

Definition close_array (stack : list frame) : option (list frame * expect) :=
  match stack with
  | FArr es :: st => push_value (JArray (rev es)) st
  | _ => None
  end.

Definition close_object (stack : list frame) : option (list frame * expect) :=
  match stack with
  | FObj ms None :: st => push_value (JObject (rev ms)) st
  | _ => None
  end.

Definition read_key (t : token) (stack : list frame) : option (list frame * expect) :=
  match t, stack with
  | TLit (JString k), FObj ms None :: st => Some (FObj ms (Some k) :: st, EColon)
  | _, _ => None
  end.

Definition parse_step (stack : list frame) (e : expect) (t : token)
  : option (list frame * expect) :=
  match e with
  | EValue => start_value t stack
  | EValueOrClose =>
    match t with
    | TRBracket => close_array stack
    | _ => start_value t stack
    end
  | EKeyOrClose =>
    match t with
    | TRBrace => close_object stack
    | _ => read_key t stack
    end
  | EKey => read_key t stack
  | EColon =>
    match t with
    | TColon => Some (stack, EValue)
    | _ => None
    end
  | ECommaOrClose =>
    match t, stack with
    | TComma, FArr _ :: _ => Some (stack, EValue)
    | TComma, FObj _ _ :: _ => Some (stack, EKey)
    | TRBracket, _ => close_array stack
    | TRBrace, _ => close_object stack
    | _, _ => None
    end
  | EDone _ => None
  end.

Fixpoint parse_tokens (stack : list frame) (e : expect) (ts : list token)
  : option value :=
  match ts with
  | [] =>
    match e with
    | EDone v => Some v
    | _ => None
    end
  | t :: r =>
    match parse_step stack e t with
    | None => None
    | Some (stack', e') => parse_tokens stack' e' r
    end
  end.

(** [JSON.parse]: [None] stands for the [SyntaxError] it throws. *)
Definition parse (s : string) : option value :=
  match lex LTop (list_ascii_of_string s) with
  | None => None
  | Some ts => parse_tokens [] EValue ts
  end.

End Json.

(* ------------------------------------------------------------------ *)
(** ** Task records *)

(** The persisted task as the ORM hands it over, with the optional fields
    of [TodoWithDependencies]; [dependencies] is the stored JSON text and
    [duration] a number of hours. *)
Record Todo := mkTodo {
  id : number;
  title : string;
  createdAt : Z;
  dueDate : option Z;
  imageUrl : option string;
  dependencies : option string;
  duration : option Z
}.

(** [TodoWithCalculations]: the fields of the task and the three computed
    ones. *)
Record TodoWithCalculations := mkCalc {
  c_id : number;
  c_title : string;
  c_createdAt : Z;
  c_dueDate : option Z;
  c_imageUrl : option string;
  c_dependencies : option string;
  c_duration : option Z;
  dependsOn : list number;
  earliestStart : option Z;
  isOnCriticalPath : bool
}.

(** [x || null] on an optional string: the empty string is falsy. *)
Definition or_null (x : option string) : option string :=
  match x with
  | Some EmptyString => None
  | _ => x
  end.

(** [typeof v === 'number'], returning the number. *)
Definition as_number (v : Json.value) : option number :=
  match v with
  | Json.JNumber n => Some n
  | _ => None
  end.

Fixpoint filter_numbers (vs : list Json.value) : list number :=
  match vs with
  | [] => []
  | v :: r =>
    match as_number v with
    | Some n => n :: filter_numbers r
    | None => filter_numbers r
    end
  end.

Definition parseDependencies (dependencies : option string) : list number :=
  match dependencies with
  | None => []
  | Some EmptyString => []
  | Some s =>
    match Json.parse s with
    | Some (Json.JArray parsed) => filter_numbers parsed
    | Some _ => []
    | None => []
    end
  end.

Definition deps_of (todo : Todo) : list number :=
  parseDependencies (or_null (dependencies todo)).

(* ------------------------------------------------------------------ *)
(** ** [Map] and [Set] in insertion order *)

Definition Map (V : Type) : Type := list (number * V).

Fixpoint Map_get {V} (m : Map V) (k : number) : option V :=
  match m with
  | [] => None
  | (k', v) :: r => if number_eqb k' k then Some v else Map_get r k
  end.

(** [set] keeps the position of a key that is already there. *)
Fixpoint Map_set {V} (m : Map V) (k : number) (v : V) : Map V :=
  match m with
  | [] => [(k, v)]
  | (k', v') :: r =>
    if number_eqb k' k then (k', v) :: r else (k', v') :: Map_set r k v
  end.

Definition Map_keys {V} (m : Map V) : list number := map fst m.

Definition NumSet : Type := list number.

Fixpoint Set_has (s : NumSet) (k : number) : bool :=
  match s with
  | [] => false
  | x :: r => number_eqb x k || Set_has r k
  end.

Definition Set_add (s : NumSet) (k : number) : NumSet :=
  if Set_has s k then s else s ++ [k].

Fixpoint Set_delete (s : NumSet) (k : number) : NumSet :=
  match s with
  | [] => []
  | x :: r => if number_eqb x k then Set_delete r k else x :: Set_delete r k
  end.

(** [a || []] on the result of a lookup. *)
Definition or_empty {A} (x : option (list A)) : list A :=
  match x with
  | Some l => l
  | None => []
  end.

(* ------------------------------------------------------------------ *)
(** ** Cycle detector *)

Record NewTodo := mkNewTodo {
  new_id : option number;
  new_dependencies : list number
}.

Definition dependencyGraph (todos : list Todo) (newTodo : NewTodo)
  : Map (list number) :=
  let graph := fold_left (fun g todo => Map_set g (id todo) (deps_of todo)) todos [] in
  match new_id newTodo with
  | Some i => Map_set graph i (new_dependencies newTodo)
  | None => graph
  end.

Record dfs_state := mkDfs {
  visited : NumSet;
  recursionStack : NumSet
}.

(** The [for ... of] loop of [hasCycle], over the recursive call [rec]:
    it leaves at the first dependency that reports a cycle. *)
Fixpoint for_dependencies (rec : number -> dfs_state -> option (bool * dfs_state))
    (deps : list number) (st : dfs_state) : option (bool * dfs_state) :=
  match deps with
  | [] => Some (false, st)
  | depId :: rest =>
    match rec depId st with
    | None => None
    | Some (true, st') => Some (true, st')
    | Some (false, st') => for_dependencies rec rest st'
    end
  end.

Fixpoint hasCycle (fuel : nat) (graph : Map (list number)) (nodeId : number)
    (st : dfs_state) : option (bool * dfs_state) :=
  match fuel with
  | O => None
  | S fuel' =>
    if Set_has (recursionStack st) nodeId then Some (true, st)
    else if Set_has (visited st) nodeId then Some (false, st)
    else
      let st1 := mkDfs (Set_add (visited st) nodeId)
                       (Set_add (recursionStack st) nodeId) in
      let dependencies := or_empty (Map_get graph nodeId) in
      match for_dependencies (hasCycle fuel' graph) dependencies st1 with
      | None => None
      | Some (true, st2) => Some (true, st2)
      | Some (false, st2) =>
        Some (false, mkDfs (visited st2) (Set_delete (recursionStack st2) nodeId))
      end
  end.

(** Every identifier the traversal can meet: the keys and all listed
    dependencies. *)
Definition graph_nodes (graph : Map (list number)) : list number :=
  Map_keys graph ++ concat (map snd graph).

Definition dfs_fuel (graph : Map (list number)) : nat :=
  S (length (graph_nodes graph)).

(** [keys.forEach(nodeId => { if (hasCycle(nodeId)) return true; })]:
    the callback is run on every key, and [forEach] drops what it
    returns.  The verdicts are collected here only to be able to speak
    about them; the function below does not use them. *)
Fixpoint forEach_hasCycle (fuel : nat) (graph : Map (list number))
    (keys : list number) (st : dfs_state) : option (list bool * dfs_state) :=
  match keys with
  | [] => Some ([], st)
  | nodeId :: rest =>
    match hasCycle fuel graph nodeId st with
    | None => None
    | Some (b, st') =>
      match forEach_hasCycle fuel graph rest st' with
      | None => None
      | Some (bs, st'') => Some (b :: bs, st'')
      end
    end
  end.

Definition hasCircularDependency (todos : list Todo) (newTodo : NewTodo)
  : option bool :=
  let graph := dependencyGraph todos newTodo in
  match forEach_hasCycle (dfs_fuel graph) graph (Map_keys graph) (mkDfs [] []) with
  | None => None
  | Some _ => Some false
  end.

(* ------------------------------------------------------------------ *)
(** ** Topological orderer *)

(** An in-degree as JavaScript holds it: [undefined - 1] is [NaN]. *)
Inductive degree : Type :=
| Deg (z : Z)
| NaN.

Definition degree_pred (d : option degree) : degree :=
  match d with
  | Some (Deg z) => Deg (z - 1)
  | _ => NaN
  end.

(** [(d || 0) + 1] *)
Definition degree_succ (d : option degree) : degree :=
  match d with
  | Some (Deg z) => Deg (z + 1)
  | _ => Deg 1
  end.

Definition degree_is_zero (d : option degree) : bool :=
  match d with
  | Some (Deg z) => z =? 0
  | _ => false
  end.

Record kahn := mkKahn {
  graph : Map (list number);     (* dependency -> dependents *)
  inDegree : Map degree
}.

Definition kahn_init (todos : list Todo) : kahn :=
  fold_left (fun k todo =>
               mkKahn (Map_set (graph k) (id todo) [])
                      (Map_set (inDegree k) (id todo) (Deg 0)))
            todos (mkKahn [] []).

Definition kahn_add_edge (tid : number) (k : kahn) (depId : number) : kahn :=
  match Map_get (graph k) depId with
  | Some dependents =>
    mkKahn (Map_set (graph k) depId (dependents ++ [tid]))
           (Map_set (inDegree k) tid (degree_succ (Map_get (inDegree k) tid)))
  | None => k
  end.

Definition kahn_build (todos : list Todo) : kahn :=
  fold_left (fun k todo => fold_left (kahn_add_edge (id todo)) (deps_of todo) k)
            todos (kahn_init todos).

(** The seed of the queue: the keys of [inDegree] whose degree is zero. *)
Fixpoint zero_degree (d : Map degree) : list number :=
  match d with
  | [] => []
  | (nodeId, dg) :: r =>
    if degree_is_zero (Some dg) then nodeId :: zero_degree r else zero_degree r
  end.

Definition relax (dq : Map degree * list number) (neighbor : number)
  : Map degree * list number :=
  let d := Map_set (fst dq) neighbor (degree_pred (Map_get (fst dq) neighbor)) in
  if degree_is_zero (Map_get d neighbor) then (d, snd dq ++ [neighbor])
  else (d, snd dq).

Fixpoint kahn_loop (fuel : nat) (g : Map (list number)) (d : Map degree)
    (queue result : list number) : option (list number) :=
  match queue with
  | [] => Some result
  | current :: queue' =>
    match fuel with
    | O => None
    | S fuel' =>
      let neighbors := or_empty (Map_get g current) in
      let dq := fold_left relax neighbors (d, queue') in
      kahn_loop fuel' g (fst dq) (snd dq) (result ++ [current])
    end
  end.

Definition positive_degree (x : number * degree) : bool :=
  match snd x with
  | Deg z => 0 <? z
  | NaN => false
  end.

(** The bound on the iterations of the loop: the queue and the nodes still
    waiting for a dependency. *)
Definition kahn_measure (d : Map degree) (queue : list number) : nat :=
  (length queue + length (filter positive_degree d))%nat.

Definition topologicalSort (todos : list Todo) : option (list number) :=
  let k := kahn_build todos in
  let queue := zero_degree (inDegree k) in
  kahn_loop (kahn_measure (inDegree k) queue) (graph k) (inDegree k) queue [].

(* ------------------------------------------------------------------ *)
(** ** Schedule calculator *)

Definition Date : Type := Z.

(** A [Date] object as [new Date(ms)] builds it: it holds the time value
    [ms] when that lies within 8.64e15 milliseconds of the epoch, and is
    the Invalid Date otherwise, whose time value is [NaN].  [Date] above
    is the time value of a valid date: the readings of the clock and the
    earliest starts, which are readings or completions that passed a
    comparison, are of this kind. *)
Inductive DateObject : Type :=
| Valid (t : Date)
| Invalid.

Definition max_time : Z := 8640000000000000.

Definition new_Date (ms : Z) : DateObject :=
  if Z.abs ms <=? max_time then Valid ms else Invalid.

Record schedule := mkSchedule {
  s_earliestStart : Map Date;
  s_completionTime : Map DateObject;
  s_samples : nat                (* readings of the clock taken so far *)
}.

(** [todo.duration || 1], in hours. *)
Definition duration_or_default (todo : Todo) : Z :=
  match duration todo with
  | Some 0 => 1
  | Some h => h
  | None => 1
  end.

(** [depCompletionTime && depCompletionTime > maxCompletionTime]: the
    comparison with an Invalid Date is false. *)
Definition later_completion (completionTime : Map DateObject) (mx : Date) (depId : number)
  : Date :=
  match Map_get completionTime depId with
  | Some (Valid c) => if mx <? c then c else mx
  | Some Invalid => mx
  | None => mx
  end.

Definition todoMap_of (todos : list Todo) : Map Todo :=
  fold_left (fun m todo => Map_set m (id todo) todo) todos [].

(** One round of [sortedIds.forEach].  The time value of the completion
    is computed in [Z]: for a whole number of hours the doubles of the
    source give the same sum wherever it lies within the range of dates,
    and a value out of that range wherever it does not. *)
Definition schedule_step (clock : nat -> Date) (todoMap : Map Todo)
    (s : schedule) (todoId : number) : option schedule :=
  match Map_get todoMap todoId with
  | None => None
  | Some todo =>
    let deps := deps_of todo in
    let now := clock (s_samples s) in
    let maxCompletionTime := fold_left (later_completion (s_completionTime s)) deps now in
    let completion :=
      new_Date (maxCompletionTime + duration_or_default todo * 60 * 60 * 1000) in
    Some (mkSchedule (Map_set (s_earliestStart s) todoId maxCompletionTime)
                     (Map_set (s_completionTime s) todoId completion)
                     (S (s_samples s)))
  end.

Fixpoint schedule_all (clock : nat -> Date) (todoMap : Map Todo)
    (sortedIds : list number) (s : schedule) : option schedule :=
  match sortedIds with
  | [] => Some s
  | todoId :: rest =>
    match schedule_step clock todoMap s todoId with
    | None => None
    | Some s' => schedule_all clock todoMap rest s'
    end
  end.

Definition minus_one : number := NInt (-1).

(** The task with the latest completion, from [(new Date(0), -1)]. *)
Definition later_entry (acc : Date * number) (e : number * DateObject) : Date * number :=
  match snd e with
  | Valid time => if fst acc <? time then (time, fst e) else acc
  | Invalid => acc
  end.

Definition latest_task (completionTime : Map DateObject) : Date * number :=
  fold_left later_entry completionTime (0, minus_one).

(** The loop over the dependencies in [tracePath]; [todoStart] is
    dereferenced only for a dependency that has a completion time. *)
Fixpoint critical_dep (completionTime : Map DateObject) (todoStart : option Date)
    (deps : list number) (acc : number * Date) : option (number * Date) :=
  match deps with
  | [] => Some acc
  | depId :: rest =>
    match Map_get completionTime depId with
    | None => critical_dep completionTime todoStart rest acc
    | Some depCompletion =>
      match todoStart with
      | None => None
      | Some start =>
        match depCompletion with
        | Invalid => critical_dep completionTime todoStart rest acc
        | Valid time =>
          if Z.abs (time - start) <? 1000 then
            if snd acc <? time
            then critical_dep completionTime todoStart rest (depId, time)
            else critical_dep completionTime todoStart rest acc
          else critical_dep completionTime todoStart rest acc
        end
      end
    end
  end.

Record trace := mkTrace {
  t_visited : NumSet;
  t_criticalPath : list number
}.

Definition find_todo (todos : list Todo) (todoId : number) : option Todo :=
  find (fun t => number_eqb (id t) todoId) todos.

Fixpoint tracePath (fuel : nat) (todos : list Todo) (earliestStart : Map Date)
    (completionTime : Map DateObject) (todoId : number) (t : trace) : option trace :=
  match fuel with
  | O => None
  | S fuel' =>
    if Set_has (t_visited t) todoId then Some t
    else
      let t1 := mkTrace (Set_add (t_visited t) todoId) (t_criticalPath t ++ [todoId]) in
      match find_todo todos todoId with
      | None => Some t1
      | Some todo =>
        match critical_dep completionTime (Map_get earliestStart todoId)
                           (deps_of todo) (minus_one, 0) with
        | None => None
        | Some (criticalDep, _) =>
          if number_eqb criticalDep minus_one then Some t1
          else tracePath fuel' todos earliestStart completionTime criticalDep t1
        end
      end
  end.

Definition findCriticalPath (todos : list Todo) (earliestStart : Map Date)
    (completionTime : Map DateObject) : option (list number) :=
  let endTask := snd (latest_task completionTime) in
  if number_eqb endTask minus_one then Some []
  else
    match tracePath (S (S (length completionTime))) todos earliestStart completionTime
                    endTask (mkTrace [] []) with
    | None => None
    | Some t => Some (rev (t_criticalPath t))
    end.

(** [criticalPath.includes(x)] *)
Definition includes (l : list number) (x : number) : bool :=
  existsb (number_eqb x) l.

Definition with_calculations (earliestStart : Map Date) (criticalPath : list number)
    (todo : Todo) : TodoWithCalculations :=
  {| c_id := id todo;
     c_title := title todo;
     c_createdAt := createdAt todo;
     c_dueDate := dueDate todo;
     c_imageUrl := imageUrl todo;
     c_dependencies := dependencies todo;
     c_duration := duration todo;
     dependsOn := deps_of todo;
     earliestStart := Map_get earliestStart (id todo);
     isOnCriticalPath := includes criticalPath (id todo) |}.

(** The maps after the walk over the sorted identifiers. *)
Definition computeSchedule (clock : nat -> Date) (todos : list Todo) : option schedule :=
  match topologicalSort todos with
  | None => None
  | Some sortedIds =>
    schedule_all clock (todoMap_of todos) sortedIds (mkSchedule [] [] 0)
  end.

Definition calculateSchedule (clock : nat -> Date) (todos : list Todo)
  : option (list TodoWithCalculations) :=
  match computeSchedule clock todos with
  | None => None
  | Some s =>
    match findCriticalPath todos (s_earliestStart s) (s_completionTime s) with
    | None => None
    | Some criticalPath =>
      Some (map (with_calculations (s_earliestStart s) criticalPath) todos)
    end
  end.

(* ------------------------------------------------------------------ *)
(** ** Vocabulary of the properties *)

(** [edge todos d t]: some task with identifier [t] lists [d] among its
    parsed dependencies ([d] is a dependency of [t]). *)
Definition edge (todos : list Todo) (d t : number) : Prop :=
  exists todo, In todo todos /\ id todo = t /\ In d (deps_of todo).

Definition ids (todos : list Todo) : list number := map id todos.

(** An edge whose dependency is a task of the collection. *)
Definition existing_edge (todos : list Todo) (d t : number) : Prop :=
  edge todos d t /\ In d (ids todos).

(** A cycle passes through [x]: one or more dependency edges lead from
    [x] back to [x]; a task that lists itself is the shortest case. *)
Definition on_cycle (todos : list Todo) (x : number) : Prop :=
  clos_trans number (edge todos) x x.

Definition acyclic (todos : list Todo) : Prop :=
  forall x, ~ on_cycle todos x.

(** [x] lies on a cycle or depends, directly or not, on a task of one. *)
Definition blocked_by_cycle (todos : list Todo) (x : number) : Prop :=
  exists c, on_cycle todos c /\ clos_refl_trans number (edge todos) c x.

(** The same notions on the graph the cycle detector builds, which also
    holds the candidate: [graph_edge g t d] when [t] maps to a list that
    contains [d]. *)
Definition graph_edge (g : Map (list number)) (t d : number) : Prop :=
  exists deps, Map_get g t = Some deps /\ In d deps.

Definition graph_has_cycle (g : Map (list number)) : Prop :=
  exists x, clos_trans number (graph_edge g) x x.

(** [x] occurs strictly before [y] in [l]. *)
Definition before (x y : number) (l : list number) : Prop :=
  exists l1 l2 l3, l = l1 ++ x :: l2 ++ y :: l3.

(** The elements of a parsed sequence that are integers, in the words of
    the specification of the parser. *)
Fixpoint spec_integer_elements (vs : list Json.value) : list number :=
  match vs with
  | [] => []
  | Json.JNumber n :: r =>
    if is_integer n then n :: spec_integer_elements r else spec_integer_elements r
  | _ :: r => spec_integer_elements r
  end.

Definition is_number (v : Json.value) : bool :=
  match v with
  | Json.JNumber _ => true
  | _ => false
  end.

(** The nodes of [universe] the traversal has not entered yet. *)
Definition unvisited (universe : list number) (seen : NumSet) : list number :=
  filter (fun u => negb (Set_has seen u)) universe.


(** The dependency edges of a collection as a list of pairs
    (dependency, task), in the order the orderer meets them. *)
Definition all_pairs (todos : list Todo) : list (number * number) :=
  flat_map (fun todo => map (fun d => (d, id todo)) (deps_of todo)) todos.

Definition existing_pairs (todos : list Todo) : list (number * number) :=
  filter (fun e => Set_has (ids todos) (fst e)) (all_pairs todos).

(** The dependents recorded for [d], and the number of edges into [t]
    whose source is not in [done] yet. *)
Definition out_of (E : list (number * number)) (d : number) : list number :=
  map snd (filter (fun e => number_eqb (fst e) d) E).

Definition waiting (E : list (number * number)) (done : list number) (t : number) : nat :=
  length (filter (fun e => number_eqb (snd e) t && negb (Set_has done (fst e))) E).

Definition weight (dg : degree) : nat :=
  match dg with
  | Deg z => if 0 <? z then 1%nat else 0%nat
  | NaN => 0%nat
  end.

(** What holds of the loop of the orderer each time it tests the queue;
    [E] lists the edges (dependency, task) and [K] the identifiers. *)
Record kahn_inv (E : list (number * number)) (K : list number)
    (d : Map degree) (queue result : list number) : Prop := mkKahnInv {
  inv_degree : forall t, In t K -> Map_get d t = Some (Deg (Z.of_nat (waiting E result t)));
  inv_nodup : NoDup (result ++ queue);
  inv_known : incl (result ++ queue) K;
  inv_ready : forall t, In t K -> (In t (result ++ queue) <-> waiting E result t = 0%nat);
  inv_order : forall l1 t l2, result = l1 ++ t :: l2 ->
                forall dep, In (dep, t) E -> In dep l1
}.

Definition add_pair (k : kahn) (e : number * number) : kahn :=
  kahn_add_edge (snd e) k (fst e).

(** What holds of the two maps of the orderer once the edges [Ep] have
    been recorded. *)
Record build_inv (todos : list Todo) (k : kahn) (Ep : list (number * number)) : Prop :=
  mkBuildInv {
  b_graph : forall c, In c (ids todos) -> Map_get (graph k) c = Some (out_of Ep c);
  b_absent : forall c, ~ In c (ids todos) -> Map_get (graph k) c = None;
  b_degree : forall t, In t (ids todos) ->
               Map_get (inDegree k) t = Some (Deg (Z.of_nat (waiting Ep [] t)));
  b_nodup : NoDup (Map_keys (inDegree k));
  b_keys : forall x, In x (Map_keys (inDegree k)) <-> In x (ids todos)
}.

(** A check of acyclicity by running the orderer: every identifier is
    placed. *)
Definition acyclicb (todos : list Todo) : bool :=
  match topologicalSort todos with
  | Some order => forallb (Set_has order) (ids todos)
  | None => false
  end.

(** Tasks for the examples: identifier, stored dependencies, hours; and a
    task stored without dependencies. *)
Definition task (i : Z) (deps : string) (hours : Z) : Todo :=
  mkTodo (NInt i) "task" 0 None None (Some deps) (Some hours).

Definition free_task (i : Z) (hours : Z) : Todo :=
  mkTodo (NInt i) "task" 0 None None None (Some hours).

(** The text [s] between double quotes. *)
Definition quoted (s : string) : string :=
  String Json.dquote (s ++ String Json.dquote EmptyString)%string.

(** Scenario A: task 2 waits for task 1. *)
Definition scenario_A : list Todo := [free_task 1 2; task 2 "[1]" 3].

(** Scenario B: tasks 1 and 2 wait for each other. *)
Definition scenario_B : list Todo := [task 1 "[2]" 1; task 2 "[1]" 1].

(** Scenario C: task 3 waits for tasks 1 and 2. *)
Definition scenario_C : list Todo := [free_task 1 1; free_task 2 1; task 3 "[1,2]" 1].

(** The completion timestamps recorded for the dependencies in [deps],
    and the largest element of a list. *)
Definition completions (ct : Map DateObject) (deps : list number) : list Date :=
  flat_map (fun d => match Map_get ct d with Some (Valid c) => [c] | _ => [] end) deps.

Definition maximum (l : list Z) : option Z :=
  match l with
  | [] => None
  | x :: r => Some (fold_left Z.max r x)
  end.


(** [c] lies within the tolerance of the trace around [s]. *)
Definition within_tolerance (c s : Date) : Prop := Z.abs (c - s) < 1000.

(** [next], completed at [c], is the dependency the trace follows from a
    task that starts at [start] and lists [deps]: it is within the
    tolerance, no dependency within the tolerance completes later, and
    those listed before it complete strictly earlier. *)
Definition selected (ct : Map DateObject) (start : Date) (deps : list number)
    (next : number) (c : Date) : Prop :=
  exists pre post,
    deps = pre ++ next :: post
    /\ Map_get ct next = Some (Valid c)
    /\ within_tolerance c start
    /\ (forall d c', In d pre -> Map_get ct d = Some (Valid c') ->
          within_tolerance c' start -> c' < c)
    /\ (forall d c', In d post -> Map_get ct d = Some (Valid c') ->
          within_tolerance c' start -> c' <= c).

Definition none_qualifies (ct : Map DateObject) (start : option Date) (deps : list number)
  : Prop :=
  forall d c s, In d deps -> Map_get ct d = Some (Valid c) -> start = Some s ->
    ~ within_tolerance c s.

(** One step of the trace, from [cur] to its predecessor [next]. *)
Definition trace_step (todos : list Todo) (es : Map Date) (ct : Map DateObject)
    (cur next : number) : Prop :=
  exists todo s c,
    find_todo todos cur = Some todo
    /\ Map_get es cur = Some s
    /\ selected ct s (deps_of todo) next c.

(** Every element of [l] is followed by the dependency selected for it. *)
Fixpoint trace_chain (todos : list Todo) (es : Map Date) (ct : Map DateObject)
    (l : list number) : Prop :=
  match l with
  | cur :: rest =>
    match rest with
    | next :: _ => trace_step todos es ct cur next /\ trace_chain todos es ct rest
    | [] => True
    end
  | [] => True
  end.

(** Why the trace ends at [final]: no dependency qualifies, or the one
    selected has been visited already. *)
Definition trace_end (todos : list Todo) (es : Map Date) (ct : Map DateObject)
    (seen : list number) (final : number) : Prop :=
  match find_todo todos final with
  | None => True
  | Some todo =>
    none_qualifies ct (Map_get es final) (deps_of todo)
    \/ exists s c next,
         Map_get es final = Some s
         /\ selected ct s (deps_of todo) next c
         /\ In next seen
  end.

(** The same without any assumption on the maps: the comparison with
    [new Date(0)] lets no dependency through that completes at the epoch
    or before, and a selected dependency with the identifier -1 is taken
    for none. *)
Definition trace_end_raw (todos : list Todo) (es : Map Date) (ct : Map DateObject)
    (seen : list number) (final : number) : Prop :=
  match find_todo todos final with
  | None => True
  | Some todo =>
    (forall d c s, In d (deps_of todo) -> Map_get ct d = Some (Valid c) ->
       Map_get es final = Some s -> within_tolerance c s -> c <= 0)
    \/ exists s c next,
         Map_get es final = Some s
         /\ selected ct s (deps_of todo) next c
         /\ (next = minus_one \/ In next seen)
  end.

(** The maps of scenario C when every reading of the clock is 1000000. *)
Definition scenario_C_start : Map Date :=
  [(NInt 1, 1000000); (NInt 2, 1000000); (NInt 3, 4600000)].

Definition scenario_C_completion : Map DateObject :=
  [(NInt 1, Valid 4600000); (NInt 2, Valid 4600000); (NInt 3, Valid 8200000)].

(** The dependencies of a task that are tasks of the collection. *)
Definition existing_deps (todos : list Todo) (todo : Todo) : list number :=
  filter (Set_has (ids todos)) (deps_of todo).

(** The completion the calculator records for [x] is not an Invalid
    Date: the start of [x] plus its duration lies within the range of
    dates. *)
Definition completes_validly (clock : nat -> Date) (todos : list Todo) (x : number) : Prop :=
  forall s, computeSchedule clock todos = Some s ->
    Map_get (s_completionTime s) x <> Some Invalid.

(** The field-by-field relation between a task and the result returned
    for it. *)
Definition keeps_fields (todo : Todo) (r : TodoWithCalculations) : Prop :=
  c_id r = id todo
  /\ c_title r = title todo
  /\ c_createdAt r = createdAt todo
  /\ c_dueDate r = dueDate todo
  /\ c_imageUrl r = imageUrl todo
  /\ c_dependencies r = dependencies todo
  /\ c_duration r = duration todo.

(** A clock that shows the same instant at every reading, and one that
    advances by a millisecond from one reading to the next. *)
Definition frozen_clock (now : Date) : nat -> Date := fun _ => now.

Definition ticking_clock (start : Date) : nat -> Date := fun k => start + Z.of_nat k.

(** The statement that one reading, the first of the call, is the
    earliest start of every task without an existing dependency. *)
Definition single_reading_claim (clock : nat -> Date) (todos : list Todo) : Prop :=
  forall results r,
    calculateSchedule clock todos = Some results ->
    In r results ->
    (forall d, In d (dependsOn r) -> ~ In d (ids todos)) ->
    earliestStart r = Some (clock 0%nat).

(** The statement that a task with an existing dependency starts at the
    latest completion among its existing dependencies. *)
Definition latest_completion_claim (clock : nat -> Date) (todos : list Todo) : Prop :=
  acyclic todos ->
  forall todo,
    In todo todos ->
    existing_deps todos todo <> [] ->
    exists s results m,
      computeSchedule clock todos = Some s
      /\ calculateSchedule clock todos = Some results
      /\ maximum (completions (s_completionTime s) (existing_deps todos todo)) = Some m
      /\ forall r, In r results -> c_id r = id todo -> earliestStart r = Some m.

(** The statement that some task is flagged whenever there is a task. *)
Definition critical_path_claim (clock : nat -> Date) (todos : list Todo) : Prop :=
  todos <> [] ->
  exists results r,
    calculateSchedule clock todos = Some results
    /\ In r results
    /\ isOnCriticalPath r = true.

(** Two tasks without dependencies; and a task of negative duration with
    a dependent. *)
Definition two_independent : list Todo := [free_task 1 1; free_task 2 1].

Definition negative_duration : list Todo := [free_task 1 (-2); task 2 "[1]" 1].

(** Tasks so long that a completion leaves the range of dates: the
    second of a chain of three; a single task; and the second of a chain
    whose third task is the last to complete at a valid date. *)
Definition overlong_chain : list Todo :=
  [free_task 1 2147483647; task 2 "[1]" 2147483647; task 3 "[2]" 1].

Definition overlong_task : list Todo := [free_task 1 3000000000].

Definition overlong_path : list Todo :=
  [free_task 1 2000000000; task 2 "[1]" 2000000000; task 3 "[2]" 2100000000].

(** The statement that the parser keeps the integers of a parsed
    sequence and nothing else. *)
Definition integer_filter_claim (s : string) : Prop :=
  forall parsed,
    Json.parse s = Some (Json.JArray parsed) ->
    parseDependencies (Some s) = spec_integer_elements parsed.

(** A task that lists itself; and a collection to which the candidate
    (task 2, waiting for task 1) would add a cycle. *)
Definition self_dependent : list Todo := [task 1 "[1]" 1].

Definition before_candidate : list Todo := [task 1 "[2]" 1; free_task 2 1].

Definition candidate : NewTodo := mkNewTodo (Some (NInt 2)) [NInt 1].

(** The task with its dependency field removed. *)
Definition without_dependencies (todo : Todo) : Todo :=
  mkTodo (id todo) (title todo) (createdAt todo) (dueDate todo) (imageUrl todo)
         None (duration todo).

(** Two tasks the scheduler cannot tell apart, and two results that carry
    the same schedule. *)
Definition sched_equiv (a b : Todo) : Prop :=
  id a = id b /\ deps_of a = deps_of b /\ duration a = duration b.

Definition same_schedule (r r' : TodoWithCalculations) : Prop :=
  c_id r = c_id r'
  /\ dependsOn r = dependsOn r'
  /\ earliestStart r = earliestStart r'
  /\ isOnCriticalPath r = isOnCriticalPath r'.

Definition map_equiv (m m' : Map Todo) : Prop :=
  Forall2 (fun e e' => fst e = fst e' /\ sched_equiv (snd e) (snd e')) m m'.

(** A single task whose identifier is the value the trace uses for "no
    task". *)
Definition minus_one_task : list Todo := [free_task (-1) 1].

(* ------------------------------------------------------------------ *)
(** ** The callers: the schedule route and the page *)

(** [GET /api/todos/dependencies].  The rows come from the database, in
    [None] when the query throws; the handler answers with the schedule
    and two counts, or with status 500 when anything in its [try] block
    throws. *)
Inductive response : Type :=
| Ok200 (todos : list TodoWithCalculations) (totalTodos criticalPathTodos : nat)
| Error500.

(** [x || undefined] on an optional number: zero is falsy. *)
Definition or_undefined (x : option Z) : option Z :=
  match x with
  | Some 0 => None
  | _ => x
  end.

Definition toTodoWithDependencies (todo : Todo) : Todo :=
  mkTodo (id todo) (title todo) (createdAt todo) (dueDate todo)
         (or_null (imageUrl todo)) (or_null (dependencies todo))
         (or_undefined (duration todo)).

Definition GET_dependencies (clock : nat -> Date) (rows : option (list Todo)) : response :=
  match rows with
  | None => Error500
  | Some todos =>
    match calculateSchedule clock (map toTodoWithDependencies todos) with
    | None => Error500
    | Some todosWithCalculations =>
      Ok200 todosWithCalculations (length todos)
            (length (filter isOnCriticalPath todosWithCalculations))
    end
  end.

(** The checkbox of a possible dependency on the page: [prev] is the
    current selection. *)
Definition handleDependencyToggle (prev : list number) (todoId : number) : list number :=
  if includes prev todoId
  then filter (fun i => negb (number_eqb i todoId)) prev
  else prev ++ [todoId].

(* ------------------------------------------------------------------ *)
(** ** Vocabulary of the traversal of the cycle detector *)

(** [depends_on g d t]: the graph lists [d] among the dependencies of
    [t]. *)
Definition depends_on (g : Map (list number)) (d t : number) : Prop :=
  graph_edge g t d.

(** The nodes the traversal has entered and left again have nothing but
    finite chains of dependencies below them. *)
Definition explored (g : Map (list number)) (st : dfs_state) : Prop :=
  forall v, In v (visited st) -> ~ In v (recursionStack st) -> Acc (depends_on g) v.

(** What a call of [hasCycle] on [n] establishes, by its verdict. *)
Definition verdict_sound (g : Map (list number)) (n : number)
    (st : dfs_state) (b : bool) (st' : dfs_state) : Prop :=
  if b then graph_has_cycle g
  else recursionStack st' = recursionStack st
       /\ explored g st'
       /\ Acc (depends_on g) n.

(* ------------------------------------------------------------------ *)
(** ** [JSON.stringify] and the creation of a task *)

Definition hex_digit (n : N) : ascii :=
  ascii_of_N (if (n <? 10)%N then 48 + n else 87 + n).

(** One character of [QuoteJSONString]: the quotation mark, the reverse
    solidus and the control characters are escaped. *)
Definition quote_char (c : ascii) : list ascii :=
  let n := N_of_ascii c in
  if Ascii.eqb c Json.dquote then [Json.backslash; Json.dquote]
  else if Ascii.eqb c Json.backslash then [Json.backslash; Json.backslash]
  else if (n =? 8)%N then [Json.backslash; "b"%char]
  else if (n =? 9)%N then [Json.backslash; "t"%char]
  else if (n =? 10)%N then [Json.backslash; "n"%char]
  else if (n =? 12)%N then [Json.backslash; "f"%char]
  else if (n =? 13)%N then [Json.backslash; "r"%char]
  else if (n <? 32)%N then
    [Json.backslash; "u"%char; "0"%char; "0"%char; hex_digit (n / 16); hex_digit (n mod 16)]
  else [c].

(** [JSON.stringify] of a text. *)
Definition JSON_stringify_text (s : string) : string :=
  string_of_list_ascii
    (Json.dquote :: flat_map quote_char (list_ascii_of_string s) ++ [Json.dquote]).

(** [Number::toString] of an integer: its decimal numeral.  This is what
    JavaScript prints for an integer below 10^21 in magnitude. *)
Definition Number_toString (z : Z) : string :=
  DecimalString.NilEmpty.string_of_int (Z.to_int z).

Fixpoint join_comma (parts : list (list ascii)) : list ascii :=
  match parts with
  | [] => []
  | p :: r =>
    match r with
    | [] => p
    | _ => p ++ ","%char :: join_comma r
    end
  end.

(** [JSON.stringify] of an array of integers. *)
Definition JSON_stringify_ids (ids : list Z) : string :=
  string_of_list_ascii
    ("["%char :: join_comma (map (fun z => list_ascii_of_string (Number_toString z)) ids)
              ++ ["]"%char]).

(** [Number.isSafeInteger]: the integers a JavaScript number holds
    exactly. *)
Definition isSafeInteger (z : Z) : Prop := - 2 ^ 53 < z < 2 ^ 53.

(** The [dependencies] member of the body of a request to
    [POST /api/todos], as far as it is modelled: missing, a text, or an
    array of integers.  The body arrives as the client built it. *)
Inductive member : Type :=
| Missing
| Text (s : string)
| Identifiers (ids : list Z).

(** What the handler of [POST /api/todos] puts into the [dependencies]
    column:
    [...(dependencies && { dependencies: JSON.stringify(dependencies) })].
    A missing member and the empty text are falsy and leave the column
    empty; an array is truthy, also an empty one. *)
Definition POST_dependencies (dependencies : member) : option string :=
  match dependencies with
  | Missing => None
  | Text EmptyString => None
  | Text s => Some (JSON_stringify_text s)
  | Identifiers ids => Some (JSON_stringify_ids ids)
  end.

(** The member [handleAddTodo] of the page builds from the selection:
    [...(selectedDependencies.length > 0 &&
         { dependencies: JSON.stringify(selectedDependencies) })]. *)
Definition handleAddTodo_dependencies (selectedDependencies : list Z) : member :=
  match selectedDependencies with
  | [] => Missing
  | _ => Text (JSON_stringify_ids selectedDependencies)
  end.

(** The characters that can follow a number inside an array. *)
Definition separator (c : ascii) : Prop := c = ","%char \/ c = "]"%char.

(** The tokens between the brackets of an array of integers. *)
Fixpoint id_tokens (ids : list Z) : list Json.token :=
  match ids with
  | [] => []
  | z :: r =>
    match r with
    | [] => [Json.TLit (Json.JNumber (NInt z))]
    | _ => Json.TLit (Json.JNumber (NInt z)) :: Json.TComma :: id_tokens r
    end
  end.

(* ------------------------------------------------------------------ *)
(** ** The dependency graph component: levels and edges *)

(** The component receives the result of the calculator.  A task without
    [dependsOn] and a task with an empty one are treated alike by the
    code below, so the list of the record stands for both.  The positions
    of the nodes and the animation are not modelled. *)
Module DependencyGraph.

Record state := mkState {
  levels : Map Z;
  visited : NumSet
}.

(** [levels.get(todoId) || 0] *)
Definition or_zero (l : option Z) : Z :=
  match l with
  | Some z => z
  | None => 0
  end.

Definition find_todo (todos : list TodoWithCalculations) (todoId : number)
  : option TodoWithCalculations :=
  find (fun t => number_eqb (c_id t) todoId) todos.

(** [deps.map(depId => dfs(depId))] over the recursive call [rec]. *)
Fixpoint map_dfs (rec : number -> state -> option (Z * state))
    (deps : list number) (st : state) : option (list Z * state) :=
  match deps with
  | [] => Some ([], st)
  | depId :: rest =>
    match rec depId st with
    | None => None
    | Some (l, st1) =>
      match map_dfs rec rest st1 with
      | None => None
      | Some (ls, st2) => Some (l :: ls, st2)
      end
    end
  end.

Definition set_level (st : state) (todoId : number) (level : Z) : state :=
  mkState (Map_set (levels st) todoId level) (visited st).

(** The recursive [dfs] of [calculateLevels].  [Math.max] is applied to
    the levels of the dependencies, of which there is at least one: the
    call on the first dependency is written out, those on the others are
    made by [map_dfs], in the order of the list. *)
Fixpoint dfs (fuel : nat) (todos : list TodoWithCalculations) (todoId : number)
    (st : state) : option (Z * state) :=
  match fuel with
  | O => None
  | S fuel' =>
    if Set_has (visited st) todoId then Some (or_zero (Map_get (levels st) todoId), st)
    else
      let st1 := mkState (levels st) (Set_add (visited st) todoId) in
      match find_todo todos todoId with
      | None => Some (0, set_level st1 todoId 0)
      | Some todo =>
        match dependsOn todo with
        | [] => Some (0, set_level st1 todoId 0)
        | depId :: rest =>
          match dfs fuel' todos depId st1 with
          | None => None
          | Some (first, st2) =>
            match map_dfs (dfs fuel' todos) rest st2 with
            | None => None
            | Some (others, st3) =>
              let maxDepLevel := fold_left Z.max others first in
              let level := maxDepLevel + 1 in
              Some (level, set_level st3 todoId level)
            end
          end
        end
      end
  end.

(** Every identifier the traversal can meet. *)
Definition nodes (todos : list TodoWithCalculations) : list number :=
  map c_id todos ++ concat (map dependsOn todos).

(** [todos.forEach(todo => dfs(todo.id))] *)
Fixpoint forEach_dfs (fuel : nat) (todos l : list TodoWithCalculations) (st : state)
  : option state :=
  match l with
  | [] => Some st
  | todo :: rest =>
    match dfs fuel todos (c_id todo) st with
    | None => None
    | Some (_, st') => forEach_dfs fuel todos rest st'
    end
  end.

Definition calculateLevels (todos : list TodoWithCalculations) : option (Map Z) :=
  match forEach_dfs (S (length (nodes todos))) todos todos (mkState [] []) with
  | None => None
  | Some st => Some (levels st)
  end.

Record Edge := mkEdge {
  from : number;
  to : number;
  edge_isOnCriticalPath : bool;
  isHighlighted : bool
}.

(** [nodes.find(n => n.id === x)?.isOnCriticalPath]: there is one node
    per task, in the same order, with the flag of the task; the flag of a
    node that is not found counts as false. *)
Definition node_isOnCriticalPath (todos : list TodoWithCalculations) (x : number) : bool :=
  match find_todo todos x with
  | Some todo => isOnCriticalPath todo
  | None => false
  end.

(** [hoveredNode === x] *)
Definition is_hovered (hoveredNode : option number) (x : number) : bool :=
  match hoveredNode with
  | Some h => number_eqb h x
  | None => false
  end.

Definition edges (todos : list TodoWithCalculations) (hoveredNode : option number)
  : list Edge :=
  flat_map (fun todo =>
    map (fun depId =>
           mkEdge depId (c_id todo)
                  (node_isOnCriticalPath todos depId && node_isOnCriticalPath todos (c_id todo))
                  (is_hovered hoveredNode depId || is_hovered hoveredNode (c_id todo)))
        (dependsOn todo)) todos.

End DependencyGraph.

(* ------------------------------------------------------------------ *)
(** ** Vocabulary of the levels *)

(** [drawn_edge todos t d]: the component finds a task for [t] that
    lists [d] in [dependsOn]. *)
Definition drawn_edge (todos : list TodoWithCalculations) (t d : number) : Prop :=
  exists todo, DependencyGraph.find_todo todos t = Some todo /\ In d (dependsOn todo).

Definition settled (st : DependencyGraph.state) : Prop :=
  incl (Map_keys (DependencyGraph.levels st)) (DependencyGraph.visited st)
  /\ forall v l, Map_get (DependencyGraph.levels st) v = Some l -> 0 <= l.

(** What a call of [dfs] does to the state: it enters new nodes only,
    leaves the levels of the nodes entered before as they were, and gives
    a level to every node it enters. *)
Definition extends (st st' : DependencyGraph.state) : Prop :=
  incl (DependencyGraph.visited st) (DependencyGraph.visited st')
  /\ (forall v, In v (DependencyGraph.visited st) ->
        Map_get (DependencyGraph.levels st') v = Map_get (DependencyGraph.levels st) v)
  /\ (forall v, In v (DependencyGraph.visited st') -> ~ In v (DependencyGraph.visited st) ->
        Map_get (DependencyGraph.levels st') v <> None).

(** The level [l] of [v] is right with respect to the levels [L]: zero
    without dependencies, else one more than the highest level of a
    dependency. *)
Definition level_ok (todos : list TodoWithCalculations) (L : Map Z) (v : number) (l : Z)
  : Prop :=
  match DependencyGraph.find_todo todos v with
  | None => l = 0
  | Some todo =>
    (dependsOn todo = [] -> l = 0)
    /\ (forall d, In d (dependsOn todo) -> exists ld, Map_get L d = Some ld /\ ld < l)
    /\ (dependsOn todo <> [] -> exists d, In d (dependsOn todo) /\ Map_get L d = Some (l - 1))
  end.

Definition levelled (todos : list TodoWithCalculations) (st : DependencyGraph.state) : Prop :=
  forall v l, Map_get (DependencyGraph.levels st) v = Some l ->
    level_ok todos (DependencyGraph.levels st) v l.

(** The nodes that are entered and have no level yet are those whose
    call is still running; each of them leads to [n]. *)
Definition pending_reach (todos : list TodoWithCalculations) (st : DependencyGraph.state)
    (n : number) : Prop :=
  forall s, In s (DependencyGraph.visited st) ->
    Map_get (DependencyGraph.levels st) s = None ->
    clos_trans number (drawn_edge todos) s n.

Definition drawn_acyclic (todos : list TodoWithCalculations) : Prop :=
  forall x, ~ clos_trans number (drawn_edge todos) x x.

(** What a call of [dfs] on [n] that returns [l] has achieved. *)
Definition dfs_post (todos : list TodoWithCalculations)
    (st : DependencyGraph.state) (n : number) (l : Z) (st' : DependencyGraph.state) : Prop :=
  settled st' /\ extends st st'
  /\ In n (DependencyGraph.visited st')
  /\ l = DependencyGraph.or_zero (Map_get (DependencyGraph.levels st') n)
  /\ (drawn_acyclic todos -> levelled todos st -> pending_reach todos st n ->
      levelled todos st' /\ Map_get (DependencyGraph.levels st') n = Some l).

(** Every node entered has its level: no call is running. *)
Definition all_levelled (st : DependencyGraph.state) : Prop :=
  forall v, In v (DependencyGraph.visited st) ->
    Map_get (DependencyGraph.levels st) v <> None.

(* ------------------------------------------------------------------ *)
(** ** The page: the tasks a task blocks *)

(** [getDependentTodos] of the page, over the tasks it fetched. *)
Definition getDependentTodos (todos : list TodoWithCalculations) (todoId : number)
  : list TodoWithCalculations :=
  filter (fun todo => includes (parseDependencies (or_null (c_dependencies todo))) todoId)
         todos.


(* ------------------------------------------------------------------ *)
(** ** Images (lib/pexels.ts and the route that creates a task) *)

Module Pexels.

(** [toLowerCase] on the characters of an 8-bit text: the letters A-Z and
    the capital letters of the Latin-1 range, which excludes the
    multiplication sign. *)
Definition toLowerCase_char (c : ascii) : ascii :=
  let n := N_of_ascii c in
  if ((65 <=? n) && (n <=? 90) || (192 <=? n) && (n <=? 222) && negb (n =? 215))%N
  then ascii_of_N (n + 32)
  else c.

Fixpoint toLowerCase (s : string) : string :=
  match s with
  | EmptyString => EmptyString
  | String c r => String (toLowerCase_char c) (toLowerCase r)
  end.

(** [s.includes(sub)] *)
Fixpoint String_includes (s sub : string) : bool :=
  String.prefix sub s
  || match s with
     | EmptyString => false
     | String _ r => String_includes r sub
     end.

Definition default_image : string :=
  "https://images.pexels.com/photos/3183150/pexels-photo-3183150.jpeg?auto=compress&cs=tinysrgb&w=400".

(** [Object.entries(fallbackImages)], in the order of the literal. *)
Definition fallbackImages : list (string * string) :=
  [ ("work", "https://images.pexels.com/photos/3183150/pexels-photo-3183150.jpeg?auto=compress&cs=tinysrgb&w=400");
    ("study", "https://images.pexels.com/photos/5905709/pexels-photo-5905709.jpeg?auto=compress&cs=tinysrgb&w=400");
    ("exercise", "https://images.pexels.com/photos/4056530/pexels-photo-4056530.jpeg?auto=compress&cs=tinysrgb&w=400");
    ("cook", "https://images.pexels.com/photos/1640777/pexels-photo-1640777.jpeg?auto=compress&cs=tinysrgb&w=400");
    ("clean", "https://images.pexels.com/photos/4107285/pexels-photo-4107285.jpeg?auto=compress&cs=tinysrgb&w=400");
    ("shopping", "https://images.pexels.com/photos/5632402/pexels-photo-5632402.jpeg?auto=compress&cs=tinysrgb&w=400");
    ("default", default_image) ]%string.

Definition getFallbackImage (query : string) : string :=
  let lowerQuery := toLowerCase query in
  match find (fun entry => String_includes lowerQuery (fst entry)) fallbackImages with
  | Some (_, imageUrl) => imageUrl
  | None => default_image
  end.

(** [getImageForTodo] of the route, over the outcome of the search:
    [None] when the search yields [null]. *)
Definition getImageForTodo (searched : option string) (title : string) : string :=
  match searched with
  | Some EmptyString => getFallbackImage title
  | Some imageUrl => imageUrl
  | None => getFallbackImage title
  end.

End Pexels.

(* ------------------------------------------------------------------ *)
(** ** Vocabulary of the length of a path *)

(** The hours of the task the trace finds for an identifier, and of a
    path. *)
Definition hours_of (todos : list Todo) (x : number) : Z :=
  match find_todo todos x with
  | Some todo => duration_or_default todo
  | None => 0
  end.

Definition path_hours (todos : list Todo) (path : list number) : Z :=
  fold_right (fun x acc => hours_of todos x + acc) 0 path.

(* ------------------------------------------------------------------ *)
(** ** [parseInt] and the duration of a new task *)

(** White space and line terminators among the 8-bit characters. *)
Definition is_space (c : ascii) : bool :=
  let n := N_of_ascii c in
  ((n =? 9) || (n =? 10) || (n =? 11) || (n =? 12) || (n =? 13) || (n =? 32) || (n =? 160))%N.

Fixpoint trimStart (s : list ascii) : list ascii :=
  match s with
  | [] => []
  | c :: r => if is_space c then trimStart r else s
  end.

(** The value of a character as a digit of the radix, if it is one. *)
Definition radix_digit (radix : Z) (c : ascii) : option Z :=
  let n := Z.of_N (N_of_ascii c) in
  let v := if (48 <=? n) && (n <=? 57) then Some (n - 48)
           else if (97 <=? n) && (n <=? 122) then Some (n - 87)
           else if (65 <=? n) && (n <=? 90) then Some (n - 55)
           else None in
  match v with
  | Some d => if d <? radix then Some d else None
  | None => None
  end.

(** The value of the longest prefix of digits; [acc] is [None] as long as
    no digit has been read. *)
Fixpoint digits_prefix (radix : Z) (s : list ascii) (acc : option Z) : option Z :=
  match s with
  | [] => acc
  | c :: r =>
    match radix_digit radix c with
    | Some d =>
      digits_prefix radix r
        (Some (match acc with Some a => a * radix + d | None => d end))
    | None => acc
    end
  end.

(** [parseInt(s)] without a radix; [None] is [NaN]. *)
Definition parseInt (s : string) : option Z :=
  let trimmed := trimStart (list_ascii_of_string s) in
  let '(sign, unsigned) :=
    match trimmed with
    | "-"%char :: r => (-1, r)
    | "+"%char :: r => (1, r)
    | _ => (1, trimmed)
    end in
  let '(radix, body) :=
    match unsigned with
    | "0"%char :: "x"%char :: r => (16, r)
    | "0"%char :: "X"%char :: r => (16, r)
    | _ => (10, unsigned)
    end in
  match digits_prefix radix body None with
  | Some v => Some (sign * v)
  | None => None
  end.

(** The [duration] member [handleAddTodo] sends:
    [...(duration && { duration: parseInt(duration) })]; [None] when the
    member is left out or is [NaN], which the body holds as [null]. *)
Definition handleAddTodo_duration (duration : string) : option Z :=
  match duration with
  | EmptyString => None
  | _ => parseInt duration
  end.

(** What the handler of [POST /api/todos] puts into the [duration] column
    for an integer member:
    [...(duration && { duration: parseInt(duration.toString()) })].
    The outer [None] leaves the column empty; the inner one is [NaN]. *)
Definition POST_duration (duration : option Z) : option (option Z) :=
  match duration with
  | None => None
  | Some 0 => None
  | Some n => Some (parseInt (Number_toString n))
  end.

(** What can follow the integer part of a numeral. *)
Definition ends_integer (rest : list ascii) : Prop :=
  rest = [] \/ exists frac, rest = "."%char :: frac.

(* ------------------------------------------------------------------ *)
(** ** Vocabulary of the fields the scheduler reads *)

(** Two tasks that differ at most in fields the scheduler does not read,
    or in a duration that counts the same. *)
Definition reads_alike (a b : Todo) : Prop :=
  id a = id b /\ deps_of a = deps_of b /\ duration_or_default a = duration_or_default b.

Definition maps_alike (m m' : Map Todo) : Prop :=
  Forall2 (fun e e' => fst e = fst e' /\ reads_alike (snd e) (snd e')) m m'.

(* ------------------------------------------------------------------ *)
(** ** The handler that creates a task *)

(** [s.trim()] *)
Definition trim (s : string) : string :=
  string_of_list_ascii
    (rev (trimStart (rev (trimStart (list_ascii_of_string s))))).

(** [s === ''], which for a text is also [!s]. *)
Definition is_empty (s : string) : bool :=
  match s with
  | EmptyString => true
  | _ => false
  end.

(** The data handed to [prisma.todo.create]. *)
Record TodoData := mkData {
  data_title : string;
  data_dueDate : Z;
  data_imageUrl : string;
  data_dependencies : option string;
  data_duration : option (option Z)
}.

(** The members the handler takes from the body of a request. *)
Record Body := mkBody {
  body_title : option string;
  body_dueDate : option string;
  body_dependencies : member;
  body_duration : option Z
}.

Inductive POST_response : Type :=
| Status201 (todo : Todo)
| Status400 (error : string)
| Status500 (error : string).

(** What a [catch] clause receives: an [Error] with its message, or a
    value that is no [Error]. *)
Inductive Thrown : Type :=
| Error (message : string)
| NotAnError.

(** The [catch] clause of the handler that creates a task. *)
Definition POST_catch (error : Thrown) : POST_response :=
  match error with
  | Error message =>
    if Pexels.String_includes message "Due date"
    then Status400 message
    else Status500 "Error creating todo"
  | NotAnError => Status500 "Error creating todo"
  end.

Section Creation.
(** [new Date(s).getTime()], [None] when it is [NaN]; the search of an
    image; and the insertion, which returns the row or throws. *)
Variable Date_getTime : string -> option Z.
Variable searchPexelsImage : string -> option string.
Variable create : TodoData -> Todo + Thrown.

(** [processDueDate]: the timestamp, or the message of the error it
    throws. *)
Definition processDueDate (dueDateString : string) : Z + string :=
  match dueDateString with
  | EmptyString => inr "Due date is required"%string
  | _ =>
    match Date_getTime dueDateString with
    | Some t => inl t
    | None => inr "Invalid date format"%string
    end
  end.

(** The handler of [POST /api/todos] from the point where the members
    of the body have been taken, for a body whose [title] and [dueDate]
    are texts or missing.  Whatever is thrown after the two checks, by
    [processDueDate] or by the insertion, reaches the [catch] clause. *)
Definition POST (title dueDate : option string) (dependencies : member)
    (duration : option Z) : POST_response :=
  match title with
  | None => Status400 "Title is required"
  | Some title =>
    if is_empty title || is_empty (trim title) then Status400 "Title is required"
    else
      match dueDate with
      | None => Status400 "Due date is required"
      | Some dueDate =>
        if is_empty dueDate then Status400 "Due date is required"
        else
          match processDueDate dueDate with
          | inr message => POST_catch (Error message)
          | inl processedDueDate =>
            let imageUrl :=
              Pexels.getImageForTodo (searchPexelsImage (trim title)) (trim title) in
            match create (mkData title processedDueDate imageUrl
                            (POST_dependencies dependencies) (POST_duration duration)) with
            | inl todo => Status201 todo
            | inr error => POST_catch error
            end
          end
      end
  end%string.

(** The handler from its first line: [await request.json()] and the
    destructuring yield the members of the body or throw, and what they
    throw reaches the same [catch] clause. *)
Definition POST_request (json : Body + Thrown) : POST_response :=
  match json with
  | inl body =>
    POST (body_title body) (body_dueDate body) (body_dependencies body)
         (body_duration body)
  | inr error => POST_catch error
  end.

End Creation.


(** The title the handler refuses: missing, empty, or white space only. *)
Definition blank_title (title : option string) : Prop :=
  match title with
  | None => True
  | Some t => trim t = EmptyString
  end.

Definition missing (dueDate : option string) : Prop :=
  dueDate = None \/ dueDate = Some EmptyString.

(* ================================================================== *)
(** * Properties *)

(** ** Numbers, maps and sets *)

Lemma number_eqb_spec (a b : number) : reflect (a = b) (number_eqb a b).
Proof.
  destruct a as [x|m e], b as [y|m' e']; simpl; try (constructor; congruence).
  - destruct (Z.eqb_spec x y); constructor; congruence.
  - destruct (Z.eqb_spec m m'), (Pos.eqb_spec e e'); simpl; constructor; congruence.
Qed.

Lemma number_eqb_refl (a : number) : number_eqb a a = true.
Proof. destruct (number_eqb_spec a a); congruence. Qed.

Lemma number_eqb_eq (a b : number) : number_eqb a b = true <-> a = b.
Proof. destruct (number_eqb_spec a b); split; congruence. Qed.

Lemma number_eqb_neq (a b : number) : number_eqb a b = false <-> a <> b.
Proof. destruct (number_eqb_spec a b); split; congruence. Qed.

Lemma number_eq_dec (a b : number) : {a = b} + {a <> b}.
Proof. destruct (number_eqb_spec a b); [left|right]; assumption. Defined.

Ltac number_cases a b :=
  let E := fresh "E" in
  destruct (number_eqb_spec a b) as [E|E]; [try subst|].

Section MapFacts.
Context {V : Type}.
Implicit Types (m : Map V) (k : number) (v : V).

Lemma Map_get_set_same m k v : Map_get (Map_set m k v) k = Some v.
Proof.
  induction m as [|[k' v'] r IH]; simpl.
  - now rewrite number_eqb_refl.
  - number_cases k' k; simpl.
    + now rewrite number_eqb_refl.
    + destruct (number_eqb_spec k' k); [contradiction|assumption].
Qed.

Lemma Map_get_set_other m k k' v :
  k <> k' -> Map_get (Map_set m k v) k' = Map_get m k'.
Proof.
  intros Hne. induction m as [|[k0 v0] r IH]; simpl.
  - destruct (number_eqb_spec k k'); [contradiction|reflexivity].
  - number_cases k0 k; simpl.
    + destruct (number_eqb_spec k k'); [contradiction|reflexivity].
    + rewrite IH. reflexivity.
Qed.

Lemma Map_get_None m k : Map_get m k = None <-> ~ In k (Map_keys m).
Proof.
  induction m as [|[k0 v0] r IH]; simpl.
  - tauto.
  - number_cases k0 k.
    + split; [discriminate|intros H; exfalso; apply H; now left].
    + rewrite IH. tauto.
Qed.

Lemma Map_get_Some_In m k v : Map_get m k = Some v -> In k (Map_keys m).
Proof.
  intros H. destruct (in_dec number_eq_dec k (Map_keys m)) as [|Hn]; [assumption|].
  apply Map_get_None in Hn. congruence.
Qed.

Lemma Map_get_In m k : In k (Map_keys m) -> exists v, Map_get m k = Some v.
Proof.
  intros H. destruct (Map_get m k) as [v|] eqn:E; [now exists v|].
  apply Map_get_None in E. contradiction.
Qed.

Lemma Map_keys_set_In m k v :
  In k (Map_keys m) -> Map_keys (Map_set m k v) = Map_keys m.
Proof.
  induction m as [|[k0 v0] r IH]; simpl; [tauto|].
  intros H. number_cases k0 k; simpl; [reflexivity|].
  f_equal. apply IH. destruct H; [contradiction|assumption].
Qed.

Lemma Map_keys_set_fresh m k v :
  ~ In k (Map_keys m) -> Map_keys (Map_set m k v) = Map_keys m ++ [k].
Proof.
  induction m as [|[k0 v0] r IH]; simpl; [reflexivity|].
  intros H. number_cases k0 k; simpl.
  - exfalso. apply H. now left.
  - f_equal. apply IH. tauto.
Qed.

Lemma Map_keys_set_iff m k v x :
  In x (Map_keys (Map_set m k v)) <-> In x (Map_keys m) \/ x = k.
Proof.
  destruct (in_dec number_eq_dec k (Map_keys m)) as [Hin|Hn].
  - rewrite Map_keys_set_In by assumption. split; [tauto|].
    intros [H| ->]; assumption.
  - rewrite Map_keys_set_fresh by assumption. rewrite in_app_iff. simpl.
    split; intros [H|H]; auto; destruct H; auto; contradiction.
Qed.

Lemma Map_keys_set_NoDup m k v :
  NoDup (Map_keys m) -> NoDup (Map_keys (Map_set m k v)).
Proof.
  intros H. destruct (in_dec number_eq_dec k (Map_keys m)) as [Hin|Hn].
  - now rewrite Map_keys_set_In.
  - rewrite Map_keys_set_fresh by assumption.
    apply NoDup_app; [assumption|repeat constructor; intros []|].
    intros x Hx [<-|[]]. contradiction.
Qed.

Lemma Map_length_keys m : length (Map_keys m) = length m.
Proof. apply length_map. Qed.
End MapFacts.

Lemma Set_has_In (s : NumSet) (k : number) : Set_has s k = true <-> In k s.
Proof.
  induction s as [|x r IH]; simpl; [split; [discriminate|tauto]|].
  rewrite orb_true_iff, IH, number_eqb_eq. tauto.
Qed.

Lemma Set_has_not_In (s : NumSet) (k : number) : Set_has s k = false <-> ~ In k s.
Proof. rewrite <- Set_has_In. destruct (Set_has s k); split; congruence. Qed.

Lemma Set_add_In (s : NumSet) (k x : number) : In x (Set_add s k) <-> In x s \/ x = k.
Proof.
  unfold Set_add. destruct (Set_has s k) eqn:E.
  - apply Set_has_In in E. split; [tauto|]. intros [H| ->]; assumption.
  - rewrite in_app_iff. simpl. split; intros [H|H]; auto; destruct H; auto; contradiction.
Qed.

Lemma Set_delete_In (s : NumSet) (k x : number) :
  In x (Set_delete s k) <-> In x s /\ x <> k.
Proof.
  induction s as [|y r IH]; simpl; [tauto|].
  number_cases y k; simpl; rewrite IH; split.
  - intros [H1 H2]. auto.
  - intros [[->|H1] H2]; [contradiction|auto].
  - intros [->|[H1 H2]]; auto.
  - intros [[->|H1] H2]; auto.
Qed.

(** ** Dependency parser *)

Lemma parseDependencies_array (s : string) (parsed : list Json.value) :
  Json.parse s = Some (Json.JArray parsed) ->
  parseDependencies (Some s) = filter_numbers parsed.
Proof.
  intros H. destruct s as [|c s]; [discriminate|].
  unfold parseDependencies. now rewrite H.
Qed.

Lemma parseDependencies_not_array (s : string) :
  (forall parsed, Json.parse s <> Some (Json.JArray parsed)) ->
  parseDependencies (Some s) = [].
Proof.
  intros H. destruct s as [|c s]; [reflexivity|].
  unfold parseDependencies.
  destruct (Json.parse (String c s)) as [[]|] eqn:E; try reflexivity.
  exfalso. eapply H. reflexivity.
Qed.

Lemma filter_numbers_filter (vs : list Json.value) :
  map Json.JNumber (filter_numbers vs) = filter is_number vs.
Proof.
  induction vs as [|v r IH]; simpl; [reflexivity|].
  destruct v; simpl; auto. now rewrite IH.
Qed.

Lemma filter_numbers_In (vs : list Json.value) (n : number) :
  In n (filter_numbers vs) <-> In (Json.JNumber n) vs.
Proof.
  induction vs as [|v r IH]; simpl; [tauto|].
  destruct v; simpl; rewrite IH; split; intros H; auto;
    try (destruct H as [H|H]; [discriminate|assumption]).
  - destruct H as [->|H]; auto.
  - destruct H as [H|H]; auto. injection H as ->. auto.
Qed.

(** ** Cycle detector: the traversal terminates *)

Lemma unvisited_mono (universe : list number) (seen seen' : NumSet) :
  incl seen seen' ->
  (length (unvisited universe seen') <= length (unvisited universe seen))%nat.
Proof.
  intros Hincl. induction universe as [|u r IH]; simpl; [lia|].
  destruct (Set_has seen u) eqn:E; simpl.
  - apply Set_has_In, Hincl, Set_has_In in E. rewrite E. simpl. exact IH.
  - destruct (Set_has seen' u); simpl; lia.
Qed.

Lemma unvisited_add (universe : list number) (seen : NumSet) (n : number) :
  In n universe -> ~ In n seen ->
  (length (unvisited universe (Set_add seen n)) < length (unvisited universe seen))%nat.
Proof.
  intros Hin Hn. induction universe as [|u r IH]; simpl; [destruct Hin|].
  assert (Hmono : (length (unvisited r (Set_add seen n)) <= length (unvisited r seen))%nat).
  { apply unvisited_mono. intros x Hx. apply Set_add_In. now left. }
  destruct Hin as [->|Hin].
  - apply Set_has_not_In in Hn. rewrite Hn. simpl.
    assert (E : Set_has (Set_add seen n) n = true) by (apply Set_has_In, Set_add_In; now right).
    rewrite E. simpl. lia.
  - specialize (IH Hin).
    destruct (Set_has seen u) eqn:E; simpl.
    + assert (E' : Set_has (Set_add seen n) u = true).
      { apply Set_has_In, Set_add_In. left. now apply Set_has_In. }
      rewrite E'. simpl. exact IH.
    + destruct (Set_has (Set_add seen n) u); simpl; lia.
Qed.

Section Traversal.
Variable g : Map (list number).
Variable universe : list number.
Hypothesis closed : forall k deps d, Map_get g k = Some deps -> In d deps -> In d universe.

Lemma for_dependencies_returns (rec : number -> dfs_state -> option (bool * dfs_state))
    (bound : nat) :
  (forall n st, In n universe -> (length (unvisited universe (visited st)) < bound)%nat ->
     exists b st', rec n st = Some (b, st') /\ incl (visited st) (visited st')) ->
  forall deps st, incl deps universe ->
    (length (unvisited universe (visited st)) < bound)%nat ->
    exists b st', for_dependencies rec deps st = Some (b, st')
                  /\ incl (visited st) (visited st').
Proof.
  intros Hrec deps. induction deps as [|d r IH]; intros st Hincl Hlt; simpl.
  - exists false, st. split; [reflexivity|apply incl_refl].
  - destruct (Hrec d st) as (b & st' & -> & Hv); [apply Hincl; now left|assumption|].
    destruct b.
    + exists true, st'. auto.
    + destruct (IH st') as (b & st'' & -> & Hv').
      * intros x Hx. apply Hincl. now right.
      * pose proof (unvisited_mono universe _ _ Hv). lia.
      * exists b, st''. split; [reflexivity|]. eapply incl_tran; eauto.
Qed.

Lemma hasCycle_returns (fuel : nat) :
  forall n st, In n universe ->
    (length (unvisited universe (visited st)) < fuel)%nat ->
    exists b st', hasCycle fuel g n st = Some (b, st') /\ incl (visited st) (visited st').
Proof.
  induction fuel as [|fuel IH]; intros n st Hn Hlt; [lia|].
  simpl. destruct (Set_has (recursionStack st) n).
  { exists true, st. split; [reflexivity|apply incl_refl]. }
  destruct (Set_has (visited st) n) eqn:Ev.
  { exists false, st. split; [reflexivity|apply incl_refl]. }
  apply Set_has_not_In in Ev.
  pose proof (unvisited_add universe (visited st) n Hn Ev) as Hadd.
  set (st1 := mkDfs (Set_add (visited st) n) (Set_add (recursionStack st) n)).
  assert (Hsub : incl (visited st) (visited st1)).
  { intros x Hx. simpl. apply Set_add_In. now left. }
  destruct (for_dependencies_returns (hasCycle fuel g) fuel IH
              (or_empty (Map_get g n)) st1) as (b & st2 & -> & Hv).
  - intros d Hd. destruct (Map_get g n) as [deps|] eqn:E; [|destruct Hd].
    eapply closed; eauto.
  - simpl. lia.
  - destruct b.
    + exists true, st2. split; [reflexivity|]. eapply incl_tran; eauto.
    + eexists false, _. split; [reflexivity|]. simpl. eapply incl_tran; eauto.
Qed.

Lemma forEach_hasCycle_returns (fuel : nat) :
  forall keys st, incl keys universe ->
    (length (unvisited universe (visited st)) < fuel)%nat ->
    exists r, forEach_hasCycle fuel g keys st = Some r.
Proof.
  induction keys as [|k r IH]; intros st Hincl Hlt; simpl.
  - eexists. reflexivity.
  - destruct (hasCycle_returns fuel k st) as (b & st' & -> & Hv);
      [apply Hincl; now left|assumption|].
    destruct (IH st') as ([bs st''] & ->).
    + intros x Hx. apply Hincl. now right.
    + pose proof (unvisited_mono universe _ _ Hv). lia.
    + eexists. reflexivity.
Qed.
End Traversal.

Lemma graph_nodes_closed (g : Map (list number)) (k : number) (deps : list number) (d : number) :
  Map_get g k = Some deps -> In d deps -> In d (graph_nodes g).
Proof.
  intros Hget Hd. unfold graph_nodes. apply in_app_iff. right.
  apply in_concat. exists deps. split; [|assumption].
  clear Hd. induction g as [|[k0 v0] r IH]; simpl in *; [discriminate|].
  destruct (number_eqb k0 k); [injection Hget as ->; now left|right; auto].
Qed.

(** X8.  The detector terminates on every collection and every candidate,
    and its answer is false whatever the dependencies are. *)
Lemma hasCircularDependency_false (todos : list Todo) (newTodo : NewTodo) :
  hasCircularDependency todos newTodo = Some false.
Proof.
  unfold hasCircularDependency.
  set (g := dependencyGraph todos newTodo).
  destruct (forEach_hasCycle_returns g (graph_nodes g) (graph_nodes_closed g)
              (dfs_fuel g) (Map_keys g) (mkDfs [] [])) as (r & ->).
  - intros x Hx. unfold graph_nodes. apply in_app_iff. now left.
  - unfold dfs_fuel. simpl. unfold unvisited.
    pose proof (filter_length_le (fun u => negb (Set_has [] u)) (graph_nodes g)). lia.
  - reflexivity.
Qed.

(** ** Finite graphs: a node no cycle leads to is accessible *)

Section FiniteGraph.
Variable R : number -> number -> Prop.
Variable K : list number.
Hypothesis sources : forall d t, R d t -> In d K.

Lemma t_then_rt (x y z : number) :
  clos_trans number R x y -> clos_refl_trans number R y z -> clos_trans number R x z.
Proof.
  intros Hxy Hyz. revert x Hxy.
  induction Hyz as [y z H|y|y w z _ IH1 _ IH2]; intros x Hxy.
  - eapply t_trans; [eassumption|now apply t_step].
  - assumption.
  - auto.
Qed.

(** [seen] holds the nodes of a backward walk that started at [x] and has
    reached [y]; a dependency of [y] that is already on the walk closes a
    cycle that leads to [x]. *)
Lemma walk_accessible (x : number) :
  (forall c, clos_trans number R c c -> ~ clos_refl_trans number R c x) ->
  forall (n : nat) (seen : list number) (y : number),
    NoDup seen -> incl seen K -> (length K - length seen <= n)%nat ->
    In y seen ->
    (forall s, In s seen -> clos_refl_trans number R y s /\ clos_refl_trans number R s x) ->
    Acc R y.
Proof.
  intros Hfree. induction n as [|n IH]; intros seen y Hnd Hincl Hlen Hy Hpath;
    constructor; intros z Hzy.
  - destruct (in_dec number_eq_dec z seen) as [Hz|Hz].
    + exfalso. destruct (Hpath z Hz) as [Hyz Hzx].
      apply (Hfree z); [|assumption].
      apply t_then_rt with y; [now apply t_step|assumption].
    + exfalso.
      assert (Hle : (length (z :: seen) <= length K)%nat).
      { apply NoDup_incl_length; [now constructor|].
        intros w [<-|Hw]; [eapply sources; eassumption|now apply Hincl]. }
      simpl in Hle. lia.
  - destruct (in_dec number_eq_dec z seen) as [Hz|Hz].
    + exfalso. destruct (Hpath z Hz) as [Hyz Hzx].
      apply (Hfree z); [|assumption].
      apply t_then_rt with y; [now apply t_step|assumption].
    + assert (Hin : incl (z :: seen) K).
      { intros w [<-|Hw]; [eapply sources; eassumption|now apply Hincl]. }
      assert (Hle : (length (z :: seen) <= length K)%nat).
      { apply NoDup_incl_length; [now constructor|assumption]. }
      apply (IH (z :: seen)); [now constructor|assumption|simpl in *; lia|now left|].
      intros s [<-|Hs].
      * split; [apply rt_refl|].
        eapply rt_trans; [apply rt_step; eassumption|apply (Hpath y Hy)].
      * destruct (Hpath s Hs) as [H1 H2]. split; [|assumption].
        eapply rt_trans; [apply rt_step; eassumption|assumption].
Qed.

Lemma cycle_free_accessible (x : number) :
  In x K ->
  (forall c, clos_trans number R c c -> ~ clos_refl_trans number R c x) ->
  Acc R x.
Proof.
  intros Hx Hfree.
  apply (walk_accessible x Hfree (length K) [x] x).
  - repeat constructor. intros [].
  - intros w [<-|[]]. assumption.
  - lia.
  - now left.
  - intros s [<-|[]]. split; apply rt_refl.
Qed.

(** Conversely, nothing accessible lies on a cycle or behind one. *)
Lemma accessible_cycle_free (x : number) :
  Acc R x -> forall c, clos_trans number R c c -> ~ clos_refl_trans number R c x.
Proof.
  intros Hacc c Hc Hcx.
  assert (Hc' : Acc R c).
  { clear Hc. induction Hcx as [c x H|c|c w x _ IH1 _ IH2].
    - apply (Acc_inv Hacc H).
    - assumption.
    - auto. }
  clear Hacc Hcx.
  assert (Hwf : Acc (clos_trans number R) c) by (now apply Acc_clos_trans).
  induction Hwf as [c _ IH]. exact (IH c Hc Hc Hc').
Qed.
End FiniteGraph.

(** ** Topological orderer: the loop terminates *)

Lemma positive_degree_weight (k : number) (dg : degree) :
  (if positive_degree (k, dg) then 1%nat else 0%nat) = weight dg.
Proof. destruct dg; reflexivity. Qed.

Lemma waiting_nodes_set (d : Map degree) (k : number) (v : degree) :
  (length (filter positive_degree (Map_set d k v))
   + match Map_get d k with Some v0 => weight v0 | None => 0 end
   = length (filter positive_degree d) + weight v)%nat.
Proof.
  induction d as [|[k0 v0] r IH]; simpl.
  - rewrite <- (positive_degree_weight k v). destruct (positive_degree (k, v)); simpl; lia.
  - number_cases k0 k; simpl.
    + rewrite <- (positive_degree_weight k v), <- (positive_degree_weight k v0).
      destruct (positive_degree (k, v)), (positive_degree (k, v0)); simpl; lia.
    + destruct (positive_degree (k0, v0)); simpl; lia.
Qed.

Lemma relax_measure (dq : Map degree * list number) (n : number) :
  (kahn_measure (fst (relax dq n)) (snd (relax dq n)) <= kahn_measure (fst dq) (snd dq))%nat.
Proof.
  destruct dq as [d q]. unfold relax, kahn_measure. simpl.
  rewrite Map_get_set_same.
  pose proof (waiting_nodes_set d n (degree_pred (Map_get d n))) as H.
  destruct (Map_get d n) as [[z|]|]; simpl in *; [|lia|lia].
  destruct (Z.eqb_spec (z - 1) 0) as [E|E]; simpl;
    [rewrite length_app; simpl|];
    destruct (Z.ltb_spec 0 (z - 1)), (Z.ltb_spec 0 z); lia.
Qed.

Lemma relax_all_measure (nbrs : list number) (dq : Map degree * list number) :
  (kahn_measure (fst (fold_left relax nbrs dq)) (snd (fold_left relax nbrs dq))
   <= kahn_measure (fst dq) (snd dq))%nat.
Proof.
  revert dq. induction nbrs as [|n r IH]; intros dq; simpl; [lia|].
  etransitivity; [apply IH|apply relax_measure].
Qed.

Lemma kahn_loop_returns (g : Map (list number)) (fuel : nat) :
  forall d queue result, (kahn_measure d queue <= fuel)%nat ->
    exists r, kahn_loop fuel g d queue result = Some r.
Proof.
  induction fuel as [|fuel IH]; intros d queue result Hm.
  - destruct queue; [eexists; reflexivity|]. unfold kahn_measure in Hm. simpl in Hm. lia.
  - destruct queue as [|current queue']; [eexists; reflexivity|].
    simpl. apply IH.
    pose proof (relax_all_measure (or_empty (Map_get g current)) (d, queue')) as H.
    unfold kahn_measure in *. simpl in *. lia.
Qed.

Lemma topologicalSort_returns (todos : list Todo) :
  exists order, topologicalSort todos = Some order.
Proof. unfold topologicalSort. apply kahn_loop_returns. lia. Qed.

(** ** Topological orderer: one pass over the dependents of a node *)

Lemma relax_step (d : Map degree) (q : list number) (n : number) (z : Z) :
  Map_get d n = Some (Deg z) ->
  relax (d, q) n =
  (Map_set d n (Deg (z - 1)), if z - 1 =? 0 then q ++ [n] else q).
Proof.
  intros H. unfold relax. simpl. rewrite H. simpl.
  rewrite Map_get_set_same. simpl. destruct (z - 1 =? 0); reflexivity.
Qed.

Lemma relax_all_spec (nbrs : list number) :
  forall d q,
    (forall t, In t nbrs ->
       exists z, Map_get d t = Some (Deg z)
                 /\ Z.of_nat (count_occ number_eq_dec nbrs t) <= z) ->
    exists pushed,
      snd (fold_left relax nbrs (d, q)) = q ++ pushed
      /\ NoDup pushed
      /\ (forall t, In t pushed <->
            In t nbrs
            /\ Map_get d t = Some (Deg (Z.of_nat (count_occ number_eq_dec nbrs t))))
      /\ (forall t z, Map_get d t = Some (Deg z) ->
            Map_get (fst (fold_left relax nbrs (d, q))) t
            = Some (Deg (z - Z.of_nat (count_occ number_eq_dec nbrs t)))).
Proof.
  induction nbrs as [|n r IH]; intros d q H.
  - exists []. simpl. rewrite app_nil_r. repeat split; try constructor; try tauto.
    intros t z Hz. rewrite Hz. do 2 f_equal. lia.
  - destruct (H n (or_introl eq_refl)) as (z & Hz & Hle).
    simpl in Hle. destruct (number_eq_dec n n) as [_|]; [|congruence].
    simpl fold_left. rewrite (relax_step d q n z Hz).
    set (d1 := Map_set d n (Deg (z - 1))).
    set (q1 := if z - 1 =? 0 then q ++ [n] else q).
    assert (Hd1 : forall t, t <> n -> Map_get d1 t = Map_get d t).
    { intros t Ht. apply Map_get_set_other. congruence. }
    assert (Hn1 : Map_get d1 n = Some (Deg (z - 1))) by apply Map_get_set_same.
    destruct (IH d1 q1) as (pushed & Hq & Hnd & Hiff & Hget).
    { intros t Ht. destruct (number_eq_dec t n) as [->|Hne].
      - exists (z - 1). split; [assumption|lia].
      - destruct (H t (or_intror Ht)) as (zt & Hzt & Hlt).
        exists zt. rewrite Hd1 by assumption. split; [assumption|].
        simpl in Hlt. destruct (number_eq_dec n t); [congruence|assumption]. }
    assert (Hcount : forall t, t <> n ->
              count_occ number_eq_dec (n :: r) t = count_occ number_eq_dec r t).
    { intros t Ht. simpl. destruct (number_eq_dec n t); congruence. }
    assert (Hcountn : count_occ number_eq_dec (n :: r) n = S (count_occ number_eq_dec r n)).
    { simpl. destruct (number_eq_dec n n); congruence. }
    assert (Hlast : forall t zt, Map_get d t = Some (Deg zt) ->
              Map_get (fst (fold_left relax r (d1, q1))) t
              = Some (Deg (zt - Z.of_nat (count_occ number_eq_dec (n :: r) t)))).
    { intros t zt Hzt. destruct (number_eq_dec t n) as [->|Hne].
      - rewrite (Hget n (z - 1) Hn1), Hcountn.
        assert (zt = z) by congruence. subst. do 2 f_equal. lia.
      - rewrite (Hget t zt) by (rewrite Hd1; assumption).
        rewrite Hcount by assumption. reflexivity. }
    unfold q1 in *. clear q1. destruct (Z.eqb_spec (z - 1) 0) as [E0|E0].
    + (* the degree of [n] reaches zero: it is pushed now, and never again *)
      assert (Hnr : ~ In n r).
      { intros Hin. apply (count_occ_In number_eq_dec) in Hin. lia. }
      exists (n :: pushed). split; [|split; [|split]].
      * rewrite Hq, <- app_assoc. reflexivity.
      * constructor; [|assumption]. intros Hin. apply Hiff in Hin. tauto.
      * intros t. destruct (number_eq_dec t n) as [->|Hne].
        -- split; [intros _|intros _; now left]. split; [now left|].
           rewrite Hz, Hcountn. do 2 f_equal.
           rewrite (proj1 (count_occ_not_In number_eq_dec r n) Hnr). lia.
        -- rewrite Hcount by assumption. simpl. rewrite Hiff, Hd1 by assumption.
           split; [intros [?|[? ?]]; [congruence|tauto]
                  |intros [[?|?] ?]; [congruence|tauto]].
      * exact Hlast.
    + exists pushed. split; [assumption|]. split; [assumption|]. split; [|exact Hlast].
      intros t. destruct (number_eq_dec t n) as [->|Hne].
      * rewrite Hiff, Hn1, Hz, Hcountn. split.
        -- intros [Hin Heq]. split; [now right|]. injection Heq as Heq.
           do 2 f_equal. lia.
        -- intros [_ Heq]. injection Heq as Heq.
           assert (Hc : count_occ number_eq_dec r n <> 0%nat) by lia.
           split; [apply (count_occ_In number_eq_dec); lia|do 2 f_equal; lia].
      * rewrite Hcount by assumption. simpl. rewrite Hiff, Hd1 by assumption.
        split; [intros [? ?]; tauto|intros [[?|?] ?]; [congruence|tauto]].
Qed.

(** ** Topological orderer: the invariant of the loop *)

Lemma Set_has_app (s1 s2 : NumSet) (k : number) :
  Set_has (s1 ++ s2) k = Set_has s1 k || Set_has s2 k.
Proof.
  induction s1 as [|x r IH]; simpl; [reflexivity|]. rewrite IH. apply orb_assoc.
Qed.

Lemma In_out_of (E : list (number * number)) (c t : number) :
  In t (out_of E c) <-> In (c, t) E.
Proof.
  unfold out_of. rewrite in_map_iff. split.
  - intros ([a b] & <- & H). apply filter_In in H as [H1 H2].
    simpl in *. apply number_eqb_eq in H2. now subst.
  - intros H. exists (c, t). split; [reflexivity|].
    apply filter_In. split; [assumption|apply number_eqb_refl].
Qed.

Lemma waiting_zero (E : list (number * number)) (done : list number) (t : number) :
  waiting E done t = 0%nat <-> forall dep, In (dep, t) E -> In dep done.
Proof.
  unfold waiting. induction E as [|[a b] r IH]; simpl.
  - split; [intros _ dep []|reflexivity].
  - number_cases b t; simpl.
    + destruct (Set_has done a) eqn:Ea; simpl.
      * rewrite IH. apply Set_has_In in Ea. split.
        -- intros H dep [Heq|Hin]; [injection Heq as <-; assumption|auto].
        -- intros H dep Hin. apply H. now right.
      * apply Set_has_not_In in Ea. split; [discriminate|].
        intros H. exfalso. apply Ea, H. now left.
    + rewrite IH. split.
      * intros H dep [Heq|Hin]; [congruence|auto].
      * intros H dep Hin. apply H. now right.
Qed.

Lemma number_eqb_sym (a b : number) : number_eqb a b = number_eqb b a.
Proof. destruct (number_eqb_spec a b), (number_eqb_spec b a); congruence. Qed.

Lemma waiting_done_one (E : list (number * number)) (done : list number) (c t : number) :
  ~ In c done ->
  waiting E done t
  = (waiting E (done ++ [c]) t + count_occ number_eq_dec (out_of E c) t)%nat.
Proof.
  intros Hc. unfold waiting, out_of. induction E as [|[a b] r IH]; simpl; [reflexivity|].
  rewrite Set_has_app. simpl. rewrite orb_false_r, (number_eqb_sym c a).
  destruct (number_eqb_spec b t) as [Hb|Hb], (number_eqb_spec a c) as [Ha|Ha]; simpl.
  - subst a. apply Set_has_not_In in Hc. rewrite Hc. simpl.
    destruct (number_eq_dec b t); [lia|congruence].
  - rewrite orb_false_r. destruct (Set_has done a); simpl; lia.
  - destruct (number_eq_dec b t); [congruence|exact IH].
  - exact IH.
Qed.

Section KahnInvariant.
Variable E : list (number * number).
Variable K : list number.
Variable g : Map (list number).
Hypothesis endpoints : forall dep t, In (dep, t) E -> In dep K /\ In t K.
Hypothesis adjacency : forall c, In c K -> Map_get g c = Some (out_of E c).

Lemma kahn_step_inv (d : Map degree) (current : number) (queue result : list number) :
  kahn_inv E K d (current :: queue) result ->
  kahn_inv E K (fst (fold_left relax (or_empty (Map_get g current)) (d, queue)))
               (snd (fold_left relax (or_empty (Map_get g current)) (d, queue)))
               (result ++ [current]).
Proof.
  intros [Hdeg Hnd Hsub Hready Hord].
  assert (HcK : In current K) by (apply Hsub, in_app_iff; right; now left).
  assert (Hcr : ~ In current result).
  { apply NoDup_remove_2 in Hnd. intros H. apply Hnd, in_app_iff. now left. }
  rewrite (adjacency current HcK). simpl or_empty.
  set (nbrs := out_of E current).
  assert (Hsplit : forall t, waiting E result t
            = (waiting E (result ++ [current]) t + count_occ number_eq_dec nbrs t)%nat).
  { intros t. now apply waiting_done_one. }
  assert (HnK : forall t, In t nbrs -> In t K).
  { intros t Ht. apply In_out_of in Ht. now apply endpoints in Ht. }
  destruct (relax_all_spec nbrs d queue) as (pushed & Hq & Hpnd & Hpiff & Hget).
  { intros t Ht. exists (Z.of_nat (waiting E result t)). split; [auto|].
    rewrite (Hsplit t). lia. }
  rewrite Hq.
  assert (Hpushed : forall t, In t pushed <->
            In t nbrs /\ waiting E result t = count_occ number_eq_dec nbrs t).
  { intros t. rewrite Hpiff. split; intros [Hin Heq]; (split; [assumption|]).
    - rewrite (Hdeg t (HnK t Hin)) in Heq. injection Heq as Heq. lia.
    - rewrite (Hdeg t (HnK t Hin)). do 2 f_equal. lia. }
  assert (Hlist : (result ++ [current]) ++ queue ++ pushed
                  = (result ++ current :: queue) ++ pushed).
  { rewrite <- !app_assoc. reflexivity. }
  constructor.
  - intros t Ht. rewrite (Hget t _ (Hdeg t Ht)). do 2 f_equal.
    rewrite (Hsplit t). lia.
  - rewrite Hlist. apply NoDup_app; [assumption|assumption|].
    intros t Hold Hnew. apply Hpushed in Hnew as [Hin Heq].
    apply (Hready t (Hsub t Hold)) in Hold.
    apply (count_occ_In number_eq_dec) in Hin. lia.
  - rewrite Hlist. intros t Ht. apply in_app_iff in Ht as [Ht|Ht]; [auto|].
    apply Hpushed in Ht as [Ht _]. auto.
  - intros t Ht. rewrite Hlist, in_app_iff, (Hready t Ht), Hpushed. split.
    + intros [H|[_ H]]; specialize (Hsplit t); lia.
    + intros H. specialize (Hsplit t).
      destruct (in_dec number_eq_dec t nbrs) as [Hin|Hin].
      * right. split; [assumption|lia].
      * left. apply (count_occ_not_In number_eq_dec) in Hin. lia.
  - intros l1 t l2 Heq dep Hdep.
    destruct l2 as [|x l2] using rev_ind.
    + apply app_inj_tail in Heq as [-> ->].
      assert (Hz : waiting E l1 t = 0%nat).
      { apply (Hready t HcK), in_app_iff. right. now left. }
      rewrite waiting_zero in Hz. auto.
    + clear IHl2. rewrite app_comm_cons, app_assoc in Heq.
      apply app_inj_tail in Heq as [-> _]. eapply Hord; eauto.
Qed.

Lemma kahn_loop_inv (fuel : nat) :
  forall d queue result r,
    kahn_inv E K d queue result ->
    kahn_loop fuel g d queue result = Some r ->
    exists d', kahn_inv E K d' [] r.
Proof.
  induction fuel as [|fuel IH]; intros d queue result r Hinv Hrun;
    destruct queue as [|current queue]; simpl in Hrun; try discriminate.
  - injection Hrun as <-. now exists d.
  - injection Hrun as <-. now exists d.
  - eapply IH; [|eassumption]. now apply kahn_step_inv.
Qed.

Lemma kahn_final_before (d : Map degree) (r : list number) :
  kahn_inv E K d [] r ->
  forall dep t, In (dep, t) E -> In t r -> before dep t r.
Proof.
  intros Hinv dep t Hedge Ht.
  apply in_split in Ht as (l1 & l2 & ->).
  pose proof (inv_order _ _ _ _ _ Hinv l1 t l2 eq_refl dep Hedge) as Hdep.
  apply in_split in Hdep as (a & b & ->).
  exists a, b, l2. rewrite <- app_assoc. reflexivity.
Qed.

Lemma kahn_final_accessible (d : Map degree) (r : list number) :
  kahn_inv E K d [] r ->
  forall x, In x r -> Acc (fun a b => In (a, b) E) x.
Proof.
  intros Hinv.
  assert (H : forall n l1 x l2, r = l1 ++ x :: l2 -> (length l1 <= n)%nat ->
                Acc (fun a b => In (a, b) E) x).
  { induction n as [|n IH]; intros l1 x l2 Heq Hlen; constructor; intros y Hy;
      pose proof (inv_order _ _ _ _ _ Hinv l1 x l2 Heq y Hy) as Hin.
    - destruct l1; [destruct Hin|simpl in Hlen; lia].
    - apply in_split in Hin as (a & b & ->).
      apply (IH a y (b ++ x :: l2)).
      + rewrite Heq, <- app_assoc. reflexivity.
      + rewrite length_app in Hlen. simpl in Hlen. lia. }
  intros x Hx. apply in_split in Hx as (l1 & l2 & Heq).
  eapply H; [eassumption|reflexivity].
Qed.

Lemma kahn_final_complete (d : Map degree) (r : list number) :
  kahn_inv E K d [] r ->
  forall x, In x K -> Acc (fun a b => In (a, b) E) x -> In x r.
Proof.
  intros Hinv x Hx Hacc. induction Hacc as [x _ IH].
  pose proof (inv_ready _ _ _ _ _ Hinv x Hx) as Hready.
  rewrite app_nil_r in Hready. apply Hready, waiting_zero.
  intros dep Hdep. apply IH; [assumption|]. now apply endpoints in Hdep.
Qed.
End KahnInvariant.

(** ** Topological orderer: the graph and the in-degrees it builds *)

Lemma kahn_build_pairs (todos : list Todo) (k : kahn) :
  fold_left (fun k todo => fold_left (kahn_add_edge (id todo)) (deps_of todo) k) todos k
  = fold_left add_pair (all_pairs todos) k.
Proof.
  revert k. induction todos as [|todo r IH]; intros k; simpl; [reflexivity|].
  unfold all_pairs in *. simpl. rewrite fold_left_app, IH. f_equal.
  generalize (deps_of todo) as deps. clear. intros deps. revert k.
  induction deps as [|d deps IH]; intros k; simpl; [reflexivity|]. apply IH.
Qed.

Lemma kahn_init_spec (todos : list Todo) :
  forall k,
    NoDup (Map_keys (inDegree k)) ->
    (forall x, In x (Map_keys (inDegree k)) <-> In x (Map_keys (graph k))) ->
    (forall x v, Map_get (graph k) x = Some v -> v = []) ->
    (forall x v, Map_get (inDegree k) x = Some v -> v = Deg 0) ->
    let k' := fold_left (fun k todo =>
                 mkKahn (Map_set (graph k) (id todo) [])
                        (Map_set (inDegree k) (id todo) (Deg 0))) todos k in
    NoDup (Map_keys (inDegree k'))
    /\ (forall x, In x (Map_keys (inDegree k')) <-> In x (Map_keys (inDegree k)) \/ In x (ids todos))
    /\ (forall x, In x (Map_keys (graph k')) <-> In x (Map_keys (inDegree k')))
    /\ (forall x v, Map_get (graph k') x = Some v -> v = [])
    /\ (forall x v, Map_get (inDegree k') x = Some v -> v = Deg 0).
Proof.
  induction todos as [|todo r IH]; intros k Hnd Hsame Hg Hd; simpl.
  - repeat split; auto; try tauto; apply Hsame.
  - edestruct (IH (mkKahn (Map_set (graph k) (id todo) [])
                         (Map_set (inDegree k) (id todo) (Deg 0))))
      as (H1 & H2 & H3 & H4 & H5); simpl.
    + now apply Map_keys_set_NoDup.
    + intros x. rewrite !Map_keys_set_iff, Hsame. tauto.
    + intros x v. number_cases (id todo) x.
      * rewrite Map_get_set_same. congruence.
      * rewrite Map_get_set_other by assumption. apply Hg.
    + intros x v. number_cases (id todo) x.
      * rewrite Map_get_set_same. congruence.
      * rewrite Map_get_set_other by assumption. apply Hd.
    + split; [assumption|]. split; [|split; [|split]]; try assumption.
      intros x. rewrite H2. simpl. rewrite Map_keys_set_iff. intuition.
Qed.

Lemma out_of_app (E1 E2 : list (number * number)) (c : number) :
  out_of (E1 ++ E2) c = out_of E1 c ++ out_of E2 c.
Proof. unfold out_of. now rewrite filter_app, map_app. Qed.

Lemma waiting_app (E1 E2 : list (number * number)) (done : list number) (t : number) :
  waiting (E1 ++ E2) done t = (waiting E1 done t + waiting E2 done t)%nat.
Proof. unfold waiting. now rewrite filter_app, length_app. Qed.

Lemma out_of_single (d t c : number) :
  out_of [(d, t)] c = if number_eqb d c then [t] else [].
Proof. unfold out_of. simpl. destruct (number_eqb d c); reflexivity. Qed.

Lemma waiting_single (d t t' : number) :
  waiting [(d, t)] [] t' = if number_eqb t t' then 1%nat else 0%nat.
Proof. unfold waiting. simpl. destruct (number_eqb t t'); reflexivity. Qed.

Lemma kahn_init_inv (todos : list Todo) : build_inv todos (kahn_init todos) [].
Proof.
  assert (H : NoDup (Map_keys (inDegree (mkKahn [] [])))) by constructor.
  apply (kahn_init_spec todos) in H; simpl; try tauto; try discriminate.
  destruct H as (H1 & H2 & H3 & H4 & H5).
  fold (kahn_init todos) in *. simpl in H2.
  assert (Hk : forall x, In x (Map_keys (inDegree (kahn_init todos))) <-> In x (ids todos)).
  { intros x. rewrite H2. tauto. }
  constructor; try assumption.
  - intros c Hc. apply Hk, H3, Map_get_In in Hc as [v Hv].
    rewrite Hv. now rewrite (H4 c v Hv).
  - intros c Hc. apply Map_get_None. rewrite H3, Hk. assumption.
  - intros t Ht. apply Hk, Map_get_In in Ht as [v Hv].
    rewrite Hv. now rewrite (H5 t v Hv).
Qed.

Lemma add_pair_inv (todos : list Todo) (k : kahn) (Ep : list (number * number))
    (e : number * number) :
  In (snd e) (ids todos) ->
  build_inv todos k Ep ->
  build_inv todos (add_pair k e)
            (Ep ++ filter (fun e => Set_has (ids todos) (fst e)) [e]).
Proof.
  destruct e as [d t]. intros Ht [Hg Ha Hd Hnd Hk]. simpl in Ht.
  unfold add_pair, kahn_add_edge. simpl.
  destruct (Set_has (ids todos) d) eqn:Ed.
  - apply Set_has_In in Ed. rewrite (Hg d Ed).
    constructor; simpl.
    + intros c Hc. rewrite out_of_app, out_of_single.
      number_cases d c.
      * rewrite Map_get_set_same. reflexivity.
      * rewrite Map_get_set_other, app_nil_r by assumption. auto.
    + intros c Hc. rewrite Map_get_set_other by congruence. auto.
    + intros t' Ht'. rewrite waiting_app, waiting_single.
      rewrite (Hd t Ht). simpl. number_cases t t'.
      * rewrite Map_get_set_same. do 2 f_equal. lia.
      * rewrite Map_get_set_other by assumption.
        rewrite (Hd t' Ht'). do 2 f_equal. lia.
    + now apply Map_keys_set_NoDup.
    + intros x. rewrite Map_keys_set_iff, Hk. split; [intros [?| ->]; auto|auto].
  - apply Set_has_not_In in Ed. rewrite (Ha d Ed), app_nil_r.
    constructor; assumption.
Qed.

Lemma add_pairs_inv (todos : list Todo) (pairs : list (number * number)) :
  forall k Ep,
    (forall e, In e pairs -> In (snd e) (ids todos)) ->
    build_inv todos k Ep ->
    build_inv todos (fold_left add_pair pairs k)
              (Ep ++ filter (fun e => Set_has (ids todos) (fst e)) pairs).
Proof.
  induction pairs as [|e r IH]; intros k Ep Hin Hinv; simpl fold_left.
  - simpl. now rewrite app_nil_r.
  - replace (Ep ++ filter (fun e => Set_has (ids todos) (fst e)) (e :: r))
      with ((Ep ++ filter (fun e => Set_has (ids todos) (fst e)) [e])
            ++ filter (fun e => Set_has (ids todos) (fst e)) r).
    + apply IH; [intros x Hx; apply Hin; now right|].
      apply add_pair_inv; [apply Hin; now left|assumption].
    + rewrite <- app_assoc. f_equal. simpl.
      destruct (Set_has (ids todos) (fst e)); reflexivity.
Qed.

Lemma In_all_pairs (todos : list Todo) (d t : number) :
  In (d, t) (all_pairs todos) <-> edge todos d t.
Proof.
  unfold all_pairs, edge. rewrite in_flat_map. split.
  - intros (todo & Hin & H). apply in_map_iff in H as (x & Heq & Hx).
    injection Heq as -> <-. now exists todo.
  - intros (todo & Hin & <- & Hd). exists todo. split; [assumption|].
    apply in_map_iff. now exists d.
Qed.

Lemma In_existing_pairs (todos : list Todo) (d t : number) :
  In (d, t) (existing_pairs todos) <-> existing_edge todos d t.
Proof.
  unfold existing_pairs, existing_edge.
  rewrite filter_In, In_all_pairs. simpl. now rewrite Set_has_In.
Qed.

Lemma edge_target (todos : list Todo) (d t : number) :
  edge todos d t -> In t (ids todos).
Proof. intros (todo & Hin & <- & _). now apply in_map. Qed.

Lemma kahn_build_inv (todos : list Todo) :
  build_inv todos (kahn_build todos) (existing_pairs todos).
Proof.
  unfold kahn_build. rewrite kahn_build_pairs.
  apply (add_pairs_inv todos (all_pairs todos) (kahn_init todos) []).
  - intros [d t] H. apply In_all_pairs in H. simpl. eapply edge_target; eauto.
  - apply kahn_init_inv.
Qed.

(** ** Topological orderer: what the returned order is *)

Lemma zero_degree_keys (d : Map degree) (x : number) :
  In x (zero_degree d) -> In x (Map_keys d).
Proof.
  induction d as [|[k dg] r IH]; simpl; [tauto|].
  destruct dg as [z|]; [destruct (z =? 0)|]; simpl; tauto.
Qed.

Lemma zero_degree_NoDup (d : Map degree) :
  NoDup (Map_keys d) -> NoDup (zero_degree d).
Proof.
  induction d as [|[k dg] r IH]; simpl; intros H; [constructor|].
  inversion H as [|? ? Hk Hr]; subst.
  destruct dg as [z|]; [destruct (z =? 0)|]; auto.
  constructor; [|auto]. intros Hin. apply Hk. now apply zero_degree_keys.
Qed.

Lemma zero_degree_In (d : Map degree) (x : number) :
  NoDup (Map_keys d) ->
  (In x (zero_degree d) <-> Map_get d x = Some (Deg 0)).
Proof.
  induction d as [|[k dg] r IH]; simpl; intros H; [split; [tauto|discriminate]|].
  inversion H as [|? ? Hk Hr]; subst. specialize (IH Hr).
  number_cases k x.
  - assert (Hx : ~ In x (zero_degree r)) by (intros Hin; now apply Hk, zero_degree_keys).
    destruct dg as [z|]; simpl.
    + destruct (Z.eqb_spec z 0) as [->|Hz]; simpl.
      * split; auto.
      * split; [tauto|]. intros Heq. injection Heq as Heq. contradiction.
    + split; [tauto|discriminate].
  - destruct dg as [z|]; [destruct (z =? 0)|]; simpl; rewrite <- IH; tauto.
Qed.

Lemma existing_pairs_endpoints (todos : list Todo) (dep t : number) :
  In (dep, t) (existing_pairs todos) -> In dep (ids todos) /\ In t (ids todos).
Proof.
  intros H. apply In_existing_pairs in H as [He Hd]. split; [assumption|].
  eapply edge_target; eauto.
Qed.

Lemma topologicalSort_inv (todos : list Todo) (order : list number) :
  topologicalSort todos = Some order ->
  exists d, kahn_inv (existing_pairs todos) (ids todos) d [] order.
Proof.
  unfold topologicalSort. intros Hrun.
  destruct (kahn_build_inv todos) as [Hg Ha Hd Hnd Hk].
  eapply (kahn_loop_inv (existing_pairs todos) (ids todos) (graph (kahn_build todos)));
    [apply existing_pairs_endpoints|exact Hg| |exact Hrun].
  constructor; simpl.
  - exact Hd.
  - now apply zero_degree_NoDup.
  - intros x Hx. now apply Hk, zero_degree_keys.
  - intros t Ht. rewrite (zero_degree_In _ _ Hnd), (Hd t Ht). split.
    + intros H. injection H as H. lia.
    + intros ->. reflexivity.
  - intros l1 t l2 H. destruct l1; discriminate.
Qed.

Lemma Acc_equiv (R R' : number -> number -> Prop) (x : number) :
  (forall a b, R' a b -> R a b) -> Acc R x -> Acc R' x.
Proof.
  intros Hsub Hacc. induction Hacc as [x _ IH].
  constructor. intros y Hy. apply IH, Hsub, Hy.
Qed.

(** The order holds each identifier at most once; it holds exactly the
    tasks whose chains of existing dependencies are all finite; and a
    task comes after each of its existing dependencies. *)
Lemma topologicalSort_spec (todos : list Todo) (order : list number) :
  topologicalSort todos = Some order ->
  NoDup order
  /\ (forall x, In x order <-> In x (ids todos) /\ Acc (existing_edge todos) x)
  /\ (forall dep t, existing_edge todos dep t -> In t order -> before dep t order).
Proof.
  intros Hrun. destruct (topologicalSort_inv todos order Hrun) as [d Hinv].
  pose proof (inv_nodup _ _ _ _ _ Hinv) as Hnd.
  pose proof (inv_known _ _ _ _ _ Hinv) as Hknown.
  rewrite app_nil_r in Hnd, Hknown.
  split; [assumption|]. split.
  - intros x. split.
    + intros Hx. split; [auto|].
      apply Acc_equiv with (R := fun a b => In (a, b) (existing_pairs todos)).
      * intros a b. apply In_existing_pairs.
      * eapply kahn_final_accessible; eauto.
    + intros [Hx Hacc].
      eapply (kahn_final_complete (existing_pairs todos) (ids todos));
        [apply existing_pairs_endpoints|eassumption|assumption|].
      eapply Acc_equiv; [|exact Hacc]. intros a b. apply In_existing_pairs.
  - intros dep t He Ht.
    eapply kahn_final_before; [eassumption| |assumption].
    now apply In_existing_pairs.
Qed.

(** ** Cycles and existing edges *)

Lemma existing_edge_source (todos : list Todo) (d t : number) :
  existing_edge todos d t -> In d (ids todos).
Proof. now intros [_ H]. Qed.

Lemma existing_cycle_edge_cycle (todos : list Todo) (x y : number) :
  clos_trans number (existing_edge todos) x y -> clos_trans number (edge todos) x y.
Proof.
  induction 1 as [x y [H _]|x y z _ IH1 _ IH2].
  - now apply t_step.
  - eapply t_trans; eauto.
Qed.

Lemma existing_path_edge_path (todos : list Todo) (x y : number) :
  clos_refl_trans number (existing_edge todos) x y ->
  clos_refl_trans number (edge todos) x y.
Proof.
  induction 1 as [x y [H _]|x|x y z _ IH1 _ IH2].
  - now apply rt_step.
  - apply rt_refl.
  - eapply rt_trans; eauto.
Qed.

(** A path of dependency edges that starts at a task of the collection
    only uses existing edges. *)
Lemma edge_path_existing (todos : list Todo) (x y : number) :
  clos_refl_trans number (edge todos) x y -> In x (ids todos) ->
  clos_refl_trans number (existing_edge todos) x y.
Proof.
  intros H. apply clos_rt_rt1n in H.
  induction H as [x|x w y Hxw _ IH]; intros Hx.
  - apply rt_refl.
  - eapply rt_trans.
    + apply rt_step. split; eassumption.
    + apply IH. eapply edge_target; eauto.
Qed.

Lemma on_cycle_task (todos : list Todo) (x y : number) :
  clos_trans number (edge todos) x y -> In y (ids todos).
Proof.
  intros H. apply clos_trans_tn1 in H.
  destruct H as [y H|y z H _]; eapply edge_target; eauto.
Qed.

Lemma edge_trans_existing (todos : list Todo) (x y : number) :
  clos_trans number (edge todos) x y -> In x (ids todos) ->
  clos_trans number (existing_edge todos) x y.
Proof.
  intros H. apply clos_trans_t1n in H.
  induction H as [x y H|x w y Hxw _ IH]; intros Hx.
  - apply t_step. now split.
  - eapply t_trans; [apply t_step; split; eassumption|].
    apply IH. eapply edge_target; eauto.
Qed.

Lemma edge_cycle_existing (todos : list Todo) (c : number) :
  clos_trans number (edge todos) c c -> clos_trans number (existing_edge todos) c c.
Proof.
  intros H. apply edge_trans_existing; [assumption|]. eapply on_cycle_task; eauto.
Qed.

Lemma accessible_iff_not_blocked (todos : list Todo) (x : number) :
  In x (ids todos) ->
  (Acc (existing_edge todos) x <-> ~ blocked_by_cycle todos x).
Proof.
  intros Hx. split.
  - intros Hacc (c & Hc & Hcx).
    apply (accessible_cycle_free (existing_edge todos) x Hacc c).
    + now apply edge_cycle_existing.
    + apply edge_path_existing; [assumption|]. eapply on_cycle_task; eauto.
  - intros Hfree.
    apply (cycle_free_accessible (existing_edge todos) (ids todos));
      [apply existing_edge_source|assumption|].
    intros c Hc Hcx. apply Hfree. exists c. split.
    + now apply existing_cycle_edge_cycle.
    + now apply existing_path_edge_path.
Qed.

Lemma acyclic_not_blocked (todos : list Todo) (x : number) :
  acyclic todos -> ~ blocked_by_cycle todos x.
Proof. intros Hac (c & Hc & _). exact (Hac c Hc). Qed.

Lemma acyclicb_sound (todos : list Todo) : acyclicb todos = true -> acyclic todos.
Proof.
  unfold acyclicb. destruct (topologicalSort todos) as [order|] eqn:Hrun; [|discriminate].
  intros Hall c Hc. rewrite forallb_forall in Hall.
  destruct (topologicalSort_spec todos order Hrun) as (_ & Hin & _).
  assert (Hcid : In c (ids todos)) by (eapply on_cycle_task; eauto).
  specialize (Hall c Hcid). apply Set_has_In, Hin in Hall as [_ Hacc].
  apply (accessible_iff_not_blocked todos c Hcid) in Hacc. apply Hacc.
  exists c. split; [assumption|apply rt_refl].
Qed.

(** C2. On an acyclic collection the orderer returns; the order holds the
    identifier of every task exactly once and nothing else; and every
    dependency that is itself a task of the collection comes strictly
    before the task that lists it. *)
Theorem topologicalSort_acyclic (todos : list Todo) :
  acyclic todos ->
  exists order,
    topologicalSort todos = Some order
    /\ (forall todo, In todo todos -> count_occ number_eq_dec order (id todo) = 1%nat)
    /\ (forall x, In x order -> In x (ids todos))
    /\ (forall todo dep, In todo todos -> In dep (deps_of todo) -> In dep (ids todos) ->
          before dep (id todo) order).
Proof.
  intros Hac. destruct (topologicalSort_returns todos) as [order Hrun].
  exists order. split; [assumption|].
  destruct (topologicalSort_spec todos order Hrun) as (Hnd & Hin & Hbefore).
  assert (Hall : forall todo, In todo todos -> In (id todo) order).
  { intros todo Htodo. apply Hin.
    assert (Hid : In (id todo) (ids todos)) by now apply in_map.
    split; [assumption|].
    apply accessible_iff_not_blocked; [assumption|now apply acyclic_not_blocked]. }
  split; [|split].
  - intros todo Htodo. apply NoDup_count_occ'; auto.
  - intros x Hx. now apply Hin.
  - intros todo dep Htodo Hdep Hex. apply Hbefore; [|auto].
    split; [|assumption]. now exists todo.
Qed.

Lemma topologicalSort_acyclic_witness :
  exists order,
    topologicalSort scenario_A = Some order
    /\ (forall todo, In todo scenario_A -> count_occ number_eq_dec order (id todo) = 1%nat)
    /\ (forall x, In x order -> In x (ids scenario_A))
    /\ (forall todo dep, In todo scenario_A -> In dep (deps_of todo) ->
          In dep (ids scenario_A) -> before dep (id todo) order).
Proof.
  apply (topologicalSort_acyclic scenario_A).
  apply acyclicb_sound. vm_compute. reflexivity.
Defined.

Example topologicalSort_scenario_A :
  topologicalSort scenario_A = Some [NInt 1; NInt 2].
Proof. reflexivity. Qed.

Example topologicalSort_scenario_C :
  topologicalSort scenario_C = Some [NInt 1; NInt 2; NInt 3].
Proof. reflexivity. Qed.

Lemma scenario_B_cycle : on_cycle scenario_B (NInt 1).
Proof.
  apply t_trans with (NInt 2); apply t_step.
  - exists (task 2 "[1]" 1). split; [right; now left|]. split; [reflexivity|]. now left.
  - exists (task 1 "[2]" 1). split; [now left|]. split; [reflexivity|]. now left.
Qed.

(** C7. On a collection with a cycle the orderer still returns: no error
    is raised.  The order has no repetition, holds exactly the tasks that
    neither lie on a cycle nor depend on one, so a task of the cycle is
    missing from it, and it still puts every existing dependency before
    its dependent.  On the two tasks that wait for each other it is
    empty. *)
Theorem topologicalSort_cyclic (todos : list Todo) (c : number) :
  on_cycle todos c ->
  exists order,
    topologicalSort todos = Some order
    /\ NoDup order
    /\ (forall x, In x order <-> In x (ids todos) /\ ~ blocked_by_cycle todos x)
    /\ (In c (ids todos) /\ ~ In c order)
    /\ (forall dep t, existing_edge todos dep t -> In t order -> before dep t order)
    /\ topologicalSort scenario_B = Some [].
Proof.
  intros Hc. destruct (topologicalSort_returns todos) as [order Hrun].
  exists order. split; [assumption|].
  destruct (topologicalSort_spec todos order Hrun) as (Hnd & Hin & Hbefore).
  assert (Hiff : forall x, In x order <-> In x (ids todos) /\ ~ blocked_by_cycle todos x).
  { intros x. rewrite Hin. split; intros [Hx H]; (split; [assumption|]);
      now apply (accessible_iff_not_blocked todos x Hx). }
  split; [exact Hnd|]. split; [exact Hiff|]. split; [|split; [exact Hbefore|reflexivity]].
  split.
  - eapply on_cycle_task; eauto.
  - intros Hin'. apply Hiff in Hin' as [_ Hfree]. apply Hfree.
    exists c. split; [assumption|apply rt_refl].
Qed.

Lemma topologicalSort_cyclic_witness :
  exists order,
    topologicalSort scenario_B = Some order
    /\ NoDup order
    /\ (forall x, In x order <-> In x (ids scenario_B) /\ ~ blocked_by_cycle scenario_B x)
    /\ (In (NInt 1) (ids scenario_B) /\ ~ In (NInt 1) order)
    /\ (forall dep t, existing_edge scenario_B dep t -> In t order -> before dep t order)
    /\ topologicalSort scenario_B = Some [].
Proof.
  apply (topologicalSort_cyclic scenario_B (NInt 1)).
  exact scenario_B_cycle.
Defined.

(** ** Schedule calculator: the map of tasks *)

Lemma todoMap_fold_keys (todos : list Todo) :
  forall m x,
    In x (Map_keys (fold_left (fun m todo => Map_set m (id todo) todo) todos m))
    <-> In x (Map_keys m) \/ In x (ids todos).
Proof.
  induction todos as [|t r IH]; intros m x; simpl; [tauto|].
  rewrite IH, Map_keys_set_iff. intuition.
Qed.

Lemma todoMap_fold_frame (todos : list Todo) :
  forall m x, ~ In x (ids todos) ->
    Map_get (fold_left (fun m todo => Map_set m (id todo) todo) todos m) x = Map_get m x.
Proof.
  induction todos as [|t r IH]; intros m x Hx; simpl; [reflexivity|].
  simpl in Hx. rewrite IH by tauto. apply Map_get_set_other. tauto.
Qed.

Lemma todoMap_fold_member (todos : list Todo) :
  forall m x todo,
    Map_get (fold_left (fun m todo => Map_set m (id todo) todo) todos m) x = Some todo ->
    Map_get m x = Some todo \/ (In todo todos /\ id todo = x).
Proof.
  induction todos as [|t r IH]; intros m x todo H; simpl in *; [now left|].
  apply IH in H as [H|[H1 H2]]; [|right; tauto].
  number_cases (id t) x.
  - rewrite Map_get_set_same in H. injection H as <-. right. tauto.
  - rewrite Map_get_set_other in H by assumption. now left.
Qed.

Lemma todoMap_keys (todos : list Todo) (x : number) :
  In x (Map_keys (todoMap_of todos)) <-> In x (ids todos).
Proof. unfold todoMap_of. rewrite todoMap_fold_keys. simpl. tauto. Qed.

Lemma todoMap_member (todos : list Todo) (x : number) (todo : Todo) :
  Map_get (todoMap_of todos) x = Some todo -> In todo todos /\ id todo = x.
Proof.
  intros H. apply todoMap_fold_member in H as [H|H]; [discriminate|assumption].
Qed.

Lemma todoMap_unique (todos : list Todo) (todo : Todo) :
  NoDup (ids todos) -> In todo todos ->
  Map_get (todoMap_of todos) (id todo) = Some todo.
Proof.
  unfold todoMap_of. generalize (@nil (number * Todo)) as m.
  induction todos as [|t r IH]; intros m Hnd Hin; [destruct Hin|].
  simpl in *. inversion Hnd as [|? ? Ht Hr]; subst.
  destruct Hin as [->|Hin].
  - rewrite todoMap_fold_frame by assumption. apply Map_get_set_same.
  - now apply IH.
Qed.

(** ** Schedule calculator: the walk over the sorted identifiers *)

Lemma new_Date_Valid (ms : Z) (t : Date) :
  new_Date ms = Valid t <-> t = ms /\ Z.abs ms <= max_time.
Proof.
  unfold new_Date. destruct (Z.leb_spec (Z.abs ms) max_time) as [H|H].
  - split; [intros E; injection E as <-; auto|intros [-> _]; reflexivity].
  - split; [discriminate|]. intros [_ H']. lia.
Qed.

Lemma new_Date_Invalid (ms : Z) : new_Date ms = Invalid <-> max_time < Z.abs ms.
Proof.
  unfold new_Date. destruct (Z.leb_spec (Z.abs ms) max_time) as [H|H].
  - split; [discriminate|lia].
  - split; [auto|reflexivity].
Qed.

Section Walk.
Variable clock : nat -> Date.
Variable todoMap : Map Todo.

Lemma schedule_all_app (l1 l2 : list number) (s : schedule) :
  schedule_all clock todoMap (l1 ++ l2) s
  = match schedule_all clock todoMap l1 s with
    | Some s1 => schedule_all clock todoMap l2 s1
    | None => None
    end.
Proof.
  revert s. induction l1 as [|x r IH]; intros s; simpl; [reflexivity|].
  destruct (schedule_step clock todoMap s x); [apply IH|reflexivity].
Qed.

Lemma schedule_all_returns (l : list number) :
  forall s, (forall x, In x l -> In x (Map_keys todoMap)) ->
    exists s', schedule_all clock todoMap l s = Some s'.
Proof.
  induction l as [|x r IH]; intros s Hin; simpl; [now exists s|].
  unfold schedule_step.
  destruct (Map_get_In todoMap x (Hin x (or_introl eq_refl))) as [todo ->].
  apply IH. intros y Hy. apply Hin. now right.
Qed.

Lemma schedule_step_effect (s s' : schedule) (x : number) :
  schedule_step clock todoMap s x = Some s' ->
  exists todo,
    Map_get todoMap x = Some todo
    /\ let start := fold_left (later_completion (s_completionTime s)) (deps_of todo)
                              (clock (s_samples s)) in
       s' = mkSchedule (Map_set (s_earliestStart s) x start)
                       (Map_set (s_completionTime s) x
                          (new_Date (start + duration_or_default todo * 60 * 60 * 1000)))
                       (S (s_samples s)).
Proof.
  unfold schedule_step. destruct (Map_get todoMap x) as [todo|]; [|discriminate].
  intros H. injection H as <-. now exists todo.
Qed.

Lemma schedule_all_frame (l : list number) :
  forall s s', schedule_all clock todoMap l s = Some s' ->
    (s_samples s' = s_samples s + length l)%nat
    /\ (forall x, ~ In x l ->
          Map_get (s_earliestStart s') x = Map_get (s_earliestStart s) x
          /\ Map_get (s_completionTime s') x = Map_get (s_completionTime s) x)
    /\ (forall x, In x (Map_keys (s_completionTime s')) <->
                  In x (Map_keys (s_completionTime s)) \/ In x l)
    /\ (forall x, In x (Map_keys (s_earliestStart s')) <->
                  In x (Map_keys (s_earliestStart s)) \/ In x l).
Proof.
  induction l as [|y r IH]; intros s s' H; simpl in H.
  - injection H as <-. simpl. repeat split; try tauto; lia.
  - destruct (schedule_step clock todoMap s y) as [s1|] eqn:E; [|discriminate].
    apply schedule_step_effect in E as (todo & _ & ->).
    apply IH in H as (H1 & H2 & H3 & H4). simpl in *.
    split; [lia|]. split; [|split].
    + intros x Hx. destruct (H2 x) as [Ha Hb]; [tauto|].
      rewrite Ha, Hb, !Map_get_set_other by tauto. tauto.
    + intros x. rewrite H3, Map_keys_set_iff. intuition.
    + intros x. rewrite H4, Map_keys_set_iff. intuition.
Qed.

(** The task at position [length pre] of the order: what its step reads
    and what the final maps hold for it. *)
Lemma schedule_all_at (pre post : list number) (x : number) (s' : schedule) :
  NoDup (pre ++ x :: post) ->
  schedule_all clock todoMap (pre ++ x :: post) (mkSchedule [] [] 0) = Some s' ->
  exists sk todo,
    schedule_all clock todoMap pre (mkSchedule [] [] 0) = Some sk
    /\ Map_get todoMap x = Some todo
    /\ (forall d, In d (Map_keys (s_completionTime sk)) <-> In d pre)
    /\ (forall d, In d pre -> Map_get (s_completionTime s') d = Map_get (s_completionTime sk) d)
    /\ let start := fold_left (later_completion (s_completionTime sk)) (deps_of todo)
                              (clock (length pre)) in
       Map_get (s_earliestStart s') x = Some start
       /\ Map_get (s_completionTime s') x
          = Some (new_Date (start + duration_or_default todo * 60 * 60 * 1000)).
Proof.
  intros Hnd H. rewrite schedule_all_app in H.
  destruct (schedule_all clock todoMap pre (mkSchedule [] [] 0)) as [sk|] eqn:Hpre;
    [|discriminate].
  simpl in H. destruct (schedule_step clock todoMap sk x) as [s1|] eqn:Hstep; [|discriminate].
  apply schedule_step_effect in Hstep as (todo & Htodo & Hs1).
  apply schedule_all_frame in Hpre as (Hk1 & _ & Hk3 & _).
  apply schedule_all_frame in H as (_ & Hf & _ & _).
  simpl in *.
  assert (Hx : ~ In x post).
  { apply NoDup_remove_2 in Hnd. intros Hin. apply Hnd, in_app_iff. now right. }
  assert (Hxpre : ~ In x pre).
  { apply NoDup_remove_2 in Hnd. intros Hin. apply Hnd, in_app_iff. now left. }
  exists sk, todo. split; [reflexivity|]. split; [assumption|].
  split; [intros d; rewrite Hk3; tauto|]. split.
  - intros d Hd.
    assert (Hdp : ~ In d post).
    { intros Hin. apply NoDup_app_remove_l in Hnd as Hnd'.
      revert Hnd Hd Hin. clear. intros Hnd Hd Hin.
      induction pre as [|p r IH]; [destruct Hd|].
      simpl in Hnd. inversion Hnd as [|? ? Hp Hr]; subst.
      destruct Hd as [->|Hd]; [|auto].
      apply Hp, in_app_iff. right. now right. }
    destruct (Hf d Hdp) as [_ ->]. rewrite Hs1. simpl.
    apply Map_get_set_other. congruence.
  - destruct (Hf x Hx) as [-> ->]. rewrite Hs1, Hk1. simpl.
    rewrite !Map_get_set_same. split; reflexivity.
Qed.
End Walk.

(** ** Critical path: the choice of a dependency *)

Lemma critical_dep_spec (ct : Map DateObject) (start : option Date) (deps : list number) :
  forall a ca cd c,
    critical_dep ct start deps (a, ca) = Some (cd, c) ->
    ((cd, c) = (a, ca)
     /\ forall d c' s, In d deps -> Map_get ct d = Some (Valid c') -> start = Some s ->
          within_tolerance c' s -> c' <= ca)
    \/ (exists s, start = Some s /\ ca < c /\ selected ct s deps cd c).
Proof.
  unfold within_tolerance.
  induction deps as [|d rest IH]; intros a ca cd c H; simpl in H.
  - injection H as <- <-. left. split; [reflexivity|]. intros d c' s [].
  - assert (Hskip : critical_dep ct start rest (a, ca) = Some (cd, c) ->
              (forall c' s', Map_get ct d = Some (Valid c') -> start = Some s' ->
                 Z.abs (c' - s') < 1000 -> c' <= ca) ->
              ((cd, c) = (a, ca)
               /\ forall d' c' s', In d' (d :: rest) -> Map_get ct d' = Some (Valid c') ->
                    start = Some s' -> Z.abs (c' - s') < 1000 -> c' <= ca)
              \/ (exists s', start = Some s' /\ ca < c /\ selected ct s' (d :: rest) cd c)).
    { intros Hrest Hd. apply IH in Hrest as [[Heq Hall]|(s' & Hs & Hlt & Hsel)].
      - left. split; [assumption|].
        intros d' c' s' [<-|Hin] Hget Hs Htol; [|eauto].
        exact (Hd c' s' Hget Hs Htol).
      - right. exists s'. split; [assumption|]. split; [assumption|].
        destruct Hsel as (pre & post & -> & Hget & Htol & Hpre & Hpost).
        exists (d :: pre), post. split; [reflexivity|]. split; [assumption|].
        split; [assumption|]. split; [|assumption].
        intros d' c' [<-|Hin] Hget' Htol'; [|eauto].
        specialize (Hd c' s' Hget' Hs Htol'). lia. }
    destruct (Map_get ct d) as [[dc|]|] eqn:Ed.
    + destruct start as [s|]; [|discriminate].
      destruct (Z.ltb_spec (Z.abs (dc - s)) 1000) as [Htol|Htol].
      * simpl in H. destruct (Z.ltb_spec ca dc) as [Hlt|Hge].
        -- apply IH in H as [[Heq Hall]|(s' & Hs & Hlt' & Hsel)].
           ++ injection Heq as -> ->. right. exists s.
              split; [reflexivity|]. split; [assumption|].
              exists [], rest. split; [reflexivity|]. split; [assumption|].
              split; [exact Htol|]. split; [intros ? ? []|].
              intros d' c' Hin Hget Htol'. eapply Hall; eauto.
           ++ injection Hs as <-. right. exists s.
              split; [reflexivity|]. split; [lia|].
              destruct Hsel as (pre & post & -> & Hget & Htol' & Hpre & Hpost).
              exists (d :: pre), post. split; [reflexivity|]. split; [assumption|].
              split; [assumption|]. split; [|assumption].
              intros d' c' [<-|Hin] Hget' Htol''; [|eauto].
              rewrite Ed in Hget'. injection Hget' as <-. assumption.
        -- apply Hskip; [assumption|]. intros c' s' Hget Hs. injection Hget as <-. lia.
      * apply Hskip; [assumption|]. intros c' s' Hget Hs.
        injection Hget as <-. injection Hs as <-. lia.
    + destruct start as [s|]; [|discriminate].
      apply Hskip; [assumption|]. intros c' s' Hget. discriminate Hget.
    + apply Hskip; [assumption|]. intros c' s' Hget. discriminate Hget.
Qed.

Lemma critical_dep_returns (ct : Map DateObject) (s : Date) (deps : list number) :
  forall acc, exists r, critical_dep ct (Some s) deps acc = Some r.
Proof.
  induction deps as [|d rest IH]; intros acc; simpl; [now exists acc|].
  destruct (Map_get ct d) as [[dc|]|]; [|apply IH|apply IH].
  destruct (Z.abs (dc - s) <? 1000); [|apply IH].
  destruct (snd acc <? dc); apply IH.
Qed.

(** ** Critical path: the backward trace *)

Section Trace.
Variable todos : list Todo.
Variable es : Map Date.
Variable ct : Map DateObject.

Lemma critical_dep_key (start : option Date) (deps : list number) (cd : number) (c : Date) :
  critical_dep ct start deps (minus_one, 0) = Some (cd, c) ->
  cd = minus_one \/ In cd (Map_keys ct).
Proof.
  intros H. apply critical_dep_spec in H as [[Heq _]|(s & _ & _ & Hsel)].
  - injection Heq as -> _. now left.
  - destruct Hsel as (_ & _ & _ & Hget & _). right. eapply Map_get_Some_In; eauto.
Qed.

Lemma tracePath_returns (fuel : nat) :
  (forall x, In x (Map_keys ct) -> exists s, Map_get es x = Some s) ->
  forall x t, In x (Map_keys ct) ->
    (length (unvisited (Map_keys ct) (t_visited t)) < fuel)%nat ->
    exists t', tracePath fuel todos es ct x t = Some t'.
Proof.
  intros Hes. induction fuel as [|fuel IH]; intros x t Hx Hlt; [lia|].
  simpl. destruct (Set_has (t_visited t) x) eqn:Ev; [now exists t|].
  destruct (find_todo todos x) as [todo|]; [|eexists; reflexivity].
  destruct (Hes x Hx) as [s ->].
  destruct (critical_dep_returns ct s (deps_of todo) (minus_one, 0)) as [[cd c] Hcd].
  rewrite Hcd. destruct (number_eqb_spec cd minus_one) as [->|Hne]; [eexists; reflexivity|].
  apply IH.
  - apply critical_dep_key in Hcd as [?|?]; [contradiction|assumption].
  - simpl. apply Set_has_not_In in Ev.
    pose proof (unvisited_add (Map_keys ct) (t_visited t) x Hx Ev). lia.
Qed.

Lemma critical_dep_outcome (start : option Date) (deps : list number) (cd : number) (c : Date) :
  critical_dep ct start deps (minus_one, 0) = Some (cd, c) ->
  (cd = minus_one
   /\ forall d c' s, In d deps -> Map_get ct d = Some (Valid c') -> start = Some s ->
        within_tolerance c' s -> c' <= 0)
  \/ (exists s, start = Some s /\ selected ct s deps cd c).
Proof.
  intros H. apply critical_dep_spec in H as [[Heq Hall]|(s & Hs & _ & Hsel)].
  - injection Heq as -> ->. left. split; [reflexivity|assumption].
  - right. now exists s.
Qed.

Lemma tracePath_spec (fuel : nat) :
  forall x t t',
    tracePath fuel todos es ct x t = Some t' ->
    t_visited t = t_criticalPath t ->
    NoDup (t_criticalPath t) ->
    (In x (t_criticalPath t) /\ t' = t)
    \/ (~ In x (t_criticalPath t)
        /\ exists ext init final,
             t_criticalPath t' = t_criticalPath t ++ x :: ext
             /\ t_visited t' = t_criticalPath t'
             /\ NoDup (t_criticalPath t')
             /\ trace_chain todos es ct (x :: ext)
             /\ x :: ext = init ++ [final]
             /\ trace_end_raw todos es ct (t_criticalPath t') final).
Proof.
  induction fuel as [|fuel IH]; intros x t t' Hrun Hsync Hnd; [discriminate|].
  simpl in Hrun. destruct (Set_has (t_visited t) x) eqn:Ev.
  { injection Hrun as <-. left. split; [|reflexivity].
    rewrite <- Hsync. now apply Set_has_In. }
  right. apply Set_has_not_In in Ev as Hx. rewrite Hsync in Hx. split; [assumption|].
  assert (Hadd : Set_add (t_visited t) x = t_criticalPath t ++ [x]).
  { unfold Set_add. rewrite Ev, Hsync. reflexivity. }
  assert (Hnd1 : NoDup (t_criticalPath t ++ [x])).
  { apply NoDup_app; [assumption|repeat constructor; intros []|].
    intros y Hy [<-|[]]. contradiction. }
  rewrite Hadd in Hrun.
  set (t1 := mkTrace (t_criticalPath t ++ [x]) (t_criticalPath t ++ [x])) in *.
  assert (Hstop : Some t1 = Some t' ->
            trace_end_raw todos es ct (t_criticalPath t1) x ->
            exists ext init final,
              t_criticalPath t' = t_criticalPath t ++ x :: ext
              /\ t_visited t' = t_criticalPath t'
              /\ NoDup (t_criticalPath t')
              /\ trace_chain todos es ct (x :: ext)
              /\ x :: ext = init ++ [final]
              /\ trace_end_raw todos es ct (t_criticalPath t') final).
  { intros Heq Hend. injection Heq as <-. exists [], [], x. simpl. auto 10. }
  destruct (find_todo todos x) as [todo|] eqn:Efind.
  2:{ apply Hstop; [assumption|]. unfold trace_end_raw. now rewrite Efind. }
  destruct (critical_dep ct (Map_get es x) (deps_of todo) (minus_one, 0))
    as [[cd c]|] eqn:Ecd; [|discriminate].
  apply critical_dep_outcome in Ecd as [[-> Hnone]|(s & Hs & Hsel)].
  { rewrite number_eqb_refl in Hrun. apply Hstop; [assumption|].
    unfold trace_end_raw. rewrite Efind. left.
    intros d c' s Hd Hget Hs. eapply Hnone; eauto. }
  destruct (number_eqb_spec cd minus_one) as [->|Hne].
  { apply Hstop; [assumption|]. unfold trace_end_raw. rewrite Efind.
    right. exists s, c, minus_one. auto. }
  apply IH in Hrun as [[Hin ->]|(Hnin & ext & init & final & Hp & Hv & Hn & Hc & Hsplit & Hend)];
    try reflexivity; try assumption.
  - apply Hstop; [reflexivity|]. unfold trace_end_raw. rewrite Efind.
    right. exists s, c, cd. auto.
  - simpl in Hp. rewrite <- app_assoc in Hp. simpl in Hp.
    exists (cd :: ext), (x :: init), final.
    split; [assumption|]. split; [assumption|]. split; [assumption|]. split; [|split].
    + split; [|assumption]. exists todo, s, c. auto.
    + simpl. now rewrite Hsplit.
    + assumption.
Qed.

Lemma trace_chain_tail (y : number) (l : list number) :
  trace_chain todos es ct (y :: l) -> trace_chain todos es ct l.
Proof. destruct l as [|z l]; simpl; tauto. Qed.

(** A task for which no dependency qualifies has no successor. *)
Lemma trace_chain_stops (l l1 l2 : list number) (cur : number) (todo : Todo) :
  trace_chain todos es ct l ->
  l = l1 ++ cur :: l2 ->
  find_todo todos cur = Some todo ->
  none_qualifies ct (Map_get es cur) (deps_of todo) ->
  l2 = [].
Proof.
  intros Hc Heq Hfind Hnone. subst l. induction l1 as [|y l1 IH].
  - destruct l2 as [|next l2]; [reflexivity|]. exfalso.
    destruct Hc as [(todo' & s & c & Hf & Hs & Hsel) _].
    rewrite Hfind in Hf. injection Hf as <-.
    destruct Hsel as (pre & post & Hdeps & Hget & Htol & _).
    apply (Hnone next c s); auto.
    rewrite Hdeps, in_app_iff. right. now left.
  - apply IH. eapply trace_chain_tail. exact Hc.
Qed.

Lemma trace_end_of_raw (seen : list number) (final : number) :
  (forall d c, Map_get ct d = Some (Valid c) -> 0 < c) ->
  Map_get ct minus_one = None ->
  trace_end_raw todos es ct seen final -> trace_end todos es ct seen final.
Proof.
  unfold trace_end_raw, trace_end. intros Hpos Hm1.
  destruct (find_todo todos final) as [todo|]; [|auto].
  intros [H|(s & c & next & Hs & Hsel & [->|Hin])].
  - left. intros d c s Hd Hget Hs Htol.
    specialize (H d c s Hd Hget Hs Htol). specialize (Hpos d c Hget). lia.
  - exfalso. destruct Hsel as (_ & _ & _ & Hget & _). congruence.
  - right. exists s, c, next. auto.
Qed.
End Trace.

(** ** Critical path: the end task and the whole path *)

Lemma latest_task_fold (ct : Map DateObject) :
  forall acc,
    (fold_left later_entry ct acc = acc
     \/ In (snd (fold_left later_entry ct acc), Valid (fst (fold_left later_entry ct acc))) ct)
    /\ fst acc <= fst (fold_left later_entry ct acc)
    /\ (forall k v, In (k, Valid v) ct -> v <= fst (fold_left later_entry ct acc)).
Proof.
  induction ct as [|[k [v|]] rest IH]; intros acc; simpl fold_left.
  - split; [now left|]. split; [lia|]. intros ? ? [].
  - assert (Hstep : later_entry acc (k, Valid v) = if fst acc <? v then (v, k) else acc)
      by reflexivity.
    rewrite Hstep. clear Hstep.
    destruct (Z.ltb_spec (fst acc) v) as [Hlt|Hge].
    + destruct (IH (v, k)) as ([H1|H1] & H2 & H3); simpl fst in *; simpl snd in *.
      * rewrite H1. simpl. split; [right; now left|]. split; [lia|].
        intros k' v' [Heq|Hin]; [injection Heq as _ <-; lia|].
        specialize (H3 k' v' Hin). now rewrite H1 in H3.
      * split; [right; now right|]. split; [lia|].
        intros k' v' [Heq|Hin]; [injection Heq as _ <-; lia|eauto].
    + destruct (IH acc) as ([H1|H1] & H2 & H3).
      * split; [now left|]. split; [assumption|].
        intros k' v' [Heq|Hin]; [injection Heq as _ <-; lia|eauto].
      * split; [right; now right|]. split; [assumption|].
        intros k' v' [Heq|Hin]; [injection Heq as _ <-; lia|eauto].
  - assert (Hstep : later_entry acc (k, Invalid) = acc) by reflexivity.
    rewrite Hstep. clear Hstep.
    destruct (IH acc) as ([H1|H1] & H2 & H3).
    + split; [now left|]. split; [assumption|].
      intros k' v' [Heq|Hin]; [discriminate Heq|eauto].
    + split; [right; now right|]. split; [assumption|].
      intros k' v' [Heq|Hin]; [discriminate Heq|eauto].
Qed.

Lemma latest_task_key (ct : Map DateObject) :
  snd (latest_task ct) = minus_one \/ In (snd (latest_task ct)) (Map_keys ct).
Proof.
  destruct (latest_task_fold ct (0, minus_one)) as ([H|H] & _ & _);
    fold (latest_task ct) in H.
  - left. now rewrite H.
  - right. apply (in_map fst) in H. exact H.
Qed.

Lemma latest_task_found (ct : Map DateObject) (k : number) (v : Date) :
  In (k, Valid v) ct -> 0 < v -> In (snd (latest_task ct)) (Map_keys ct).
Proof.
  intros Hin Hv.
  destruct (latest_task_fold ct (0, minus_one)) as ([H|H] & _ & Hmax);
    fold (latest_task ct) in *.
  - specialize (Hmax k v Hin). rewrite H in Hmax. simpl in Hmax. lia.
  - apply (in_map fst) in H. exact H.
Qed.

Lemma Map_get_entry {V} (m : Map V) (k : number) (v : V) :
  Map_get m k = Some v -> In (k, v) m.
Proof.
  induction m as [|[k0 v0] r IH]; simpl; [discriminate|].
  number_cases k0 k.
  - intros H. injection H as ->. now left.
  - intros H. right. auto.
Qed.

Lemma trace_end_raw_seen (todos : list Todo) (es : Map Date) (ct : Map DateObject) (seen seen' : list number)
    (final : number) :
  (forall x, In x seen -> In x seen') ->
  trace_end_raw todos es ct seen final -> trace_end_raw todos es ct seen' final.
Proof.
  unfold trace_end_raw. intros Hsub. destruct (find_todo todos final); [|auto].
  intros [H|(s & c & next & H1 & H2 & H3)]; [now left|].
  right. exists s, c, next. split; [assumption|]. split; [assumption|].
  destruct H3; auto.
Qed.

Lemma findCriticalPath_returns (todos : list Todo) (es : Map Date) (ct : Map DateObject) :
  (forall x, In x (Map_keys ct) -> exists s, Map_get es x = Some s) ->
  exists path, findCriticalPath todos es ct = Some path.
Proof.
  intros Hes. unfold findCriticalPath.
  destruct (number_eqb_spec (snd (latest_task ct)) minus_one) as [_|Hne];
    [eexists; reflexivity|].
  destruct (tracePath_returns todos es ct (S (S (length ct))) Hes
              (snd (latest_task ct)) (mkTrace [] [])) as [t' ->].
  - destruct (latest_task_key ct); [contradiction|assumption].
  - simpl. unfold unvisited.
    pose proof (filter_length_le (fun u => negb (Set_has [] u)) (Map_keys ct)).
    rewrite Map_length_keys in H. lia.
  - eexists. reflexivity.
Qed.

Lemma findCriticalPath_spec (todos : list Todo) (es : Map Date) (ct : Map DateObject) (path : list number) :
  findCriticalPath todos es ct = Some path ->
  NoDup path
  /\ trace_chain todos es ct (rev path)
  /\ (forall final rest, path = final :: rest -> trace_end_raw todos es ct path final)
  /\ (snd (latest_task ct) <> minus_one ->
      exists init, path = init ++ [snd (latest_task ct)]).
Proof.
  unfold findCriticalPath.
  destruct (number_eqb_spec (snd (latest_task ct)) minus_one) as [Heq|Hne].
  - intros H. injection H as <-. split; [constructor|]. split; [exact I|].
    split; [discriminate|]. intros Hct. contradiction.
  - destruct (tracePath _ todos es ct _ _) as [t'|] eqn:Hrun; [|discriminate].
    intros H. injection H as <-.
    apply (tracePath_spec todos es ct) in Hrun; [|reflexivity|constructor].
    destruct Hrun as [[[] _]|(_ & ext & init & final & Hp & _ & Hnd & Hc & Hsplit & Hend)].
    simpl in Hp.
    split; [now apply NoDup_rev|]. split; [now rewrite rev_involutive, Hp|]. split.
    + intros final' rest Heq.
      assert (Hf : final' = final).
      { apply (f_equal (@rev number)) in Heq. rewrite rev_involutive, Hp, Hsplit in Heq.
        simpl in Heq. apply app_inj_tail in Heq as [_ Heq]. now symmetry. }
      subst final'. eapply trace_end_raw_seen; [|exact Hend].
      intros x Hx. rewrite <- in_rev. exact Hx.
    + intros _. exists (rev ext). rewrite Hp. reflexivity.
Qed.

Lemma schedule_all_keys_NoDup (clock : nat -> Date) (todoMap : Map Todo) (l : list number) :
  forall s s',
    NoDup (Map_keys (s_completionTime s)) ->
    schedule_all clock todoMap l s = Some s' ->
    NoDup (Map_keys (s_completionTime s')).
Proof.
  induction l as [|x r IH]; intros s s' Hnd Hrun; simpl in Hrun.
  - now injection Hrun as <-.
  - destruct (schedule_step clock todoMap s x) as [s1|] eqn:E; [|discriminate].
    apply (IH s1 s'); [|assumption].
    apply schedule_step_effect in E as (todo & _ & ->). simpl.
    now apply Map_keys_set_NoDup.
Qed.

Lemma Map_get_of_entry {V} (m : Map V) (k : number) (v : V) :
  NoDup (Map_keys m) -> In (k, v) m -> Map_get m k = Some v.
Proof.
  induction m as [|[k0 v0] r IH]; simpl; intros Hnd Hin; [destruct Hin|].
  inversion Hnd as [|? ? Hk Hr]; subst.
  destruct Hin as [Heq|Hin].
  - injection Heq as -> ->. now rewrite number_eqb_refl.
  - number_cases k0 k; [|auto].
    exfalso. apply Hk. apply (in_map fst) in Hin. exact Hin.
Qed.

Lemma latest_task_none (ct : Map DateObject) :
  forall acc,
    (forall k v, In (k, Valid v) ct -> v <= fst acc) ->
    fold_left later_entry ct acc = acc.
Proof.
  induction ct as [|[k [v|]] rest IH]; intros acc Hle; simpl fold_left.
  - reflexivity.
  - assert (Hstep : later_entry acc (k, Valid v) = acc).
    { specialize (Hle k v (or_introl eq_refl)).
      change (later_entry acc (k, Valid v)) with (if fst acc <? v then (v, k) else acc).
      destruct (Z.ltb_spec (fst acc) v) as [Hlt|_]; [lia|reflexivity]. }
    rewrite Hstep. apply IH. intros k' v' Hin. apply (Hle k' v'). now right.
  - change (later_entry acc (k, Invalid)) with acc.
    apply IH. intros k' v' Hin. apply (Hle k' v'). now right.
Qed.

(** Where the path is anchored: it is empty when no completion is a
    valid date after the epoch, and otherwise its last element, the
    task the trace starts from, has a completion that none exceeds. *)
Lemma findCriticalPath_anchor (todos : list Todo) (es : Map Date) (ct : Map DateObject)
    (path : list number) :
  NoDup (Map_keys ct) ->
  findCriticalPath todos es ct = Some path ->
  ((forall d c, Map_get ct d = Some (Valid c) -> c <= 0) -> path = [])
  /\ (Map_get ct minus_one = None ->
      forall d c, Map_get ct d = Some (Valid c) -> 0 < c ->
      exists init final latest,
        path = init ++ [final]
        /\ Map_get ct final = Some (Valid latest)
        /\ forall y c', Map_get ct y = Some (Valid c') -> c' <= latest).
Proof.
  intros Hnd Hpath. split.
  - intros Hnone. unfold findCriticalPath in Hpath.
    assert (Heq : latest_task ct = (0, minus_one)).
    { apply latest_task_none. intros k v Hin. simpl.
      apply (Hnone k v). now apply Map_get_of_entry. }
    rewrite Heq in Hpath. simpl in Hpath. now injection Hpath as <-.
  - intros Hm1 d c Hget Hc.
    destruct (latest_task_fold ct (0, minus_one)) as (Hfound & _ & Hmax).
    fold (latest_task ct) in Hfound, Hmax.
    destruct Hfound as [Heq|Hentry].
    { exfalso. specialize (Hmax d c (Map_get_entry ct d _ Hget)).
      rewrite Heq in Hmax. simpl in Hmax. lia. }
    apply Map_get_of_entry in Hentry; [|assumption].
    assert (Hne : snd (latest_task ct) <> minus_one).
    { intros Heq. rewrite Heq, Hm1 in Hentry. discriminate Hentry. }
    destruct (findCriticalPath_spec todos es ct path Hpath) as (_ & _ & _ & Hlast).
    destruct (Hlast Hne) as [init Hinit].
    exists init, (snd (latest_task ct)), (fst (latest_task ct)).
    split; [assumption|]. split; [assumption|].
    intros y c' Hy. apply (Hmax y c'). now apply Map_get_entry.
Qed.

Lemma trace_chain_keys (todos : list Todo) (es : Map Date) (ct : Map DateObject) (l : list number) :
  forall x, trace_chain todos es ct (x :: l) -> forall y, In y l -> In y (Map_keys ct).
Proof.
  induction l as [|z l IH]; intros x Hc y Hy; [destruct Hy|].
  destruct Hc as [(todo & s & c & _ & _ & Hsel) Hrest].
  destruct Hy as [<-|Hy]; [|eapply IH; eauto].
  destruct Hsel as (_ & _ & _ & Hget & _). eapply Map_get_Some_In; eauto.
Qed.

(** The critical path only holds tasks that have a completion time. *)
Lemma findCriticalPath_keys (todos : list Todo) (es : Map Date) (ct : Map DateObject) (path : list number) :
  findCriticalPath todos es ct = Some path ->
  forall y, In y path -> In y (Map_keys ct).
Proof.
  intros Hpath y Hy.
  destruct (findCriticalPath_spec todos es ct path Hpath) as (_ & Hchain & _ & Hlast).
  destruct (number_eqb_spec (snd (latest_task ct)) minus_one) as [Heq|Hne].
  - unfold findCriticalPath in Hpath. rewrite Heq, number_eqb_refl in Hpath.
    injection Hpath as <-. destruct Hy.
  - destruct (Hlast Hne) as [init ->]. rewrite rev_app_distr in Hchain. simpl in Hchain.
    apply in_app_iff in Hy as [Hy|[<-|[]]].
    + apply (trace_chain_keys todos es ct (rev init) _ Hchain). now apply in_rev in Hy.
    + destruct (latest_task_key ct); [contradiction|assumption].
Qed.

Example findCriticalPath_scenario_C :
  findCriticalPath scenario_C scenario_C_start scenario_C_completion
  = Some [NInt 1; NInt 3].
Proof. reflexivity. Qed.

(** ** Schedule calculator: the latest completion among dependencies *)

Lemma later_completion_max (ct : Map DateObject) (mx : Date) (d : number) :
  later_completion ct mx d
  = match Map_get ct d with Some (Valid c) => Z.max mx c | _ => mx end.
Proof.
  unfold later_completion. destruct (Map_get ct d) as [[c|]|]; [|reflexivity|reflexivity].
  destruct (Z.ltb_spec mx c); lia.
Qed.

Lemma later_fold_completions (ct : Map DateObject) (deps : list number) :
  forall base,
    fold_left (later_completion ct) deps base
    = fold_left Z.max (completions ct deps) base.
Proof.
  induction deps as [|d r IH]; intros base; simpl; [reflexivity|].
  rewrite IH, later_completion_max, fold_left_app.
  destruct (Map_get ct d) as [[c|]|]; reflexivity.
Qed.

Lemma fold_max_shift (l : list Z) :
  forall a b, fold_left Z.max l (Z.max a b) = Z.max a (fold_left Z.max l b).
Proof.
  induction l as [|x r IH]; intros a b; simpl; [reflexivity|].
  rewrite <- IH. f_equal. lia.
Qed.

Lemma fold_max_ge (l : list Z) : forall base, base <= fold_left Z.max l base.
Proof.
  induction l as [|x r IH]; intros base; simpl; [lia|].
  specialize (IH (Z.max base x)). lia.
Qed.

Lemma later_fold_maximum (ct : Map DateObject) (deps : list number) (base : Date) :
  fold_left (later_completion ct) deps base
  = match maximum (completions ct deps) with
    | Some m => Z.max base m
    | None => base
    end.
Proof.
  rewrite later_fold_completions. unfold maximum.
  destruct (completions ct deps) as [|x r]; simpl; [reflexivity|].
  apply fold_max_shift.
Qed.

Lemma later_fold_ge (ct : Map DateObject) (deps : list number) (base : Date) :
  base <= fold_left (later_completion ct) deps base.
Proof. rewrite later_fold_completions. apply fold_max_ge. Qed.

Lemma completions_ext (ct ct' : Map DateObject) (deps : list number) :
  (forall d, In d deps -> Map_get ct d = Map_get ct' d) ->
  completions ct deps = completions ct' deps.
Proof.
  induction deps as [|d r IH]; intros H; simpl; [reflexivity|].
  rewrite (H d (or_introl eq_refl)), IH; [reflexivity|].
  intros x Hx. apply H. now right.
Qed.

Lemma completions_none (ct : Map DateObject) (deps : list number) :
  (forall d, In d deps -> Map_get ct d = None) -> completions ct deps = [].
Proof.
  induction deps as [|d r IH]; intros H; simpl; [reflexivity|].
  rewrite (H d (or_introl eq_refl)), IH; [reflexivity|].
  intros x Hx. apply H. now right.
Qed.

Lemma completions_no_valid (ct : Map DateObject) (deps : list number) :
  (forall d c, In d deps -> Map_get ct d <> Some (Valid c)) -> completions ct deps = [].
Proof.
  induction deps as [|d r IH]; intros H; simpl; [reflexivity|].
  rewrite IH by (intros x c Hx; apply H; now right).
  destruct (Map_get ct d) as [[c|]|] eqn:E; try reflexivity.
  now elim (H d c (or_introl eq_refl)).
Qed.

Lemma completions_existing (todos : list Todo) (ct : Map DateObject) (todo : Todo) :
  (forall d, In d (Map_keys ct) -> In d (ids todos)) ->
  completions ct (existing_deps todos todo) = completions ct (deps_of todo).
Proof.
  intros Hk. unfold existing_deps. induction (deps_of todo) as [|d r IH]; simpl; [reflexivity|].
  destruct (Set_has (ids todos) d) eqn:E; simpl; rewrite IH; [reflexivity|].
  apply Set_has_not_In in E.
  assert (Hn : Map_get ct d = None) by (apply Map_get_None; auto).
  now rewrite Hn.
Qed.

Lemma duration_or_default_nonneg (todo : Todo) :
  (forall h, duration todo = Some h -> 0 <= h) -> 0 <= duration_or_default todo.
Proof.
  unfold duration_or_default. intros H. destruct (duration todo) as [h|]; [|lia].
  specialize (H h eq_refl). destruct h; lia.
Qed.

(** When no duration is negative, no task completes before the earliest
    reading of the clock. *)
Lemma schedule_all_lower_bound (clock : nat -> Date) (todoMap : Map Todo)
    (l : list number) (lo : Date) :
  (forall k, lo <= clock k) ->
  (forall x todo, Map_get todoMap x = Some todo -> 0 <= duration_or_default todo) ->
  forall s s',
    (forall d c, Map_get (s_completionTime s) d = Some (Valid c) -> lo <= c) ->
    schedule_all clock todoMap l s = Some s' ->
    forall d c, Map_get (s_completionTime s') d = Some (Valid c) -> lo <= c.
Proof.
  intros Hclock Hdur. induction l as [|x r IH]; intros s s' Hlo Hrun; simpl in Hrun.
  - now injection Hrun as <-.
  - destruct (schedule_step clock todoMap s x) as [s1|] eqn:E; [|discriminate].
    apply (IH s1 s'); [|assumption].
    apply schedule_step_effect in E as (todo & Hget & ->). simpl.
    intros d c. number_cases x d.
    + rewrite Map_get_set_same. intros H. injection H as H.
      apply new_Date_Valid in H as [-> _].
      pose proof (later_fold_ge (s_completionTime s) (deps_of todo)
                    (clock (s_samples s))).
      specialize (Hclock (s_samples s)). specialize (Hdur d todo Hget). nia.
    + rewrite Map_get_set_other by assumption. apply Hlo.
Qed.

(** A completion is the start plus the duration, an hour when the
    duration is absent or zero. *)
Lemma schedule_all_completion (clock : nat -> Date) (todoMap : Map Todo) (l : list number) :
  forall s s',
    (forall d v, Map_get (s_completionTime s) d = Some v ->
       exists todo start, Map_get todoMap d = Some todo
                          /\ Map_get (s_earliestStart s) d = Some start
                          /\ v = new_Date (start + duration_or_default todo * 60 * 60 * 1000)) ->
    schedule_all clock todoMap l s = Some s' ->
    forall d v, Map_get (s_completionTime s') d = Some v ->
      exists todo start, Map_get todoMap d = Some todo
                         /\ Map_get (s_earliestStart s') d = Some start
                         /\ v = new_Date (start + duration_or_default todo * 60 * 60 * 1000).
Proof.
  induction l as [|x r IH]; intros s s' Hinv Hrun; simpl in Hrun.
  - now injection Hrun as <-.
  - destruct (schedule_step clock todoMap s x) as [s1|] eqn:E; [|discriminate].
    apply (IH s1 s'); [|assumption].
    apply schedule_step_effect in E as (todo & Hget & ->). simpl.
    intros d v. number_cases x d.
    + rewrite !Map_get_set_same. intros H. injection H as <-.
      exists todo. eexists. split; [eassumption|]. split; reflexivity.
    + rewrite !Map_get_set_other by assumption. apply Hinv.
Qed.

Lemma maximum_In (l : list Z) (m : Z) : maximum l = Some m -> In m l.
Proof.
  unfold maximum. destruct l as [|x r]; [discriminate|]. intros H. injection H as <-.
  revert x. induction r as [|y r IH]; intros x; simpl; [now left|].
  destruct (IH (Z.max x y)) as [H|H]; [|tauto].
  destruct (Z.max_spec x y) as [[_ E]|[_ E]]; rewrite E in *; tauto.
Qed.

Lemma completions_source (ct : Map DateObject) (deps : list number) (c : Date) :
  In c (completions ct deps) -> exists d, In d deps /\ Map_get ct d = Some (Valid c).
Proof.
  unfold completions. rewrite in_flat_map. intros (d & Hd & Hc).
  exists d. split; [assumption|].
  destruct (Map_get ct d) as [[c'|]|]; [|destruct Hc|destruct Hc].
  destruct Hc as [->|[]]. reflexivity.
Qed.

(** ** Schedule calculator: the call returns *)

Lemma topologicalSort_known (todos : list Todo) (order : list number) (x : number) :
  topologicalSort todos = Some order -> In x order -> In x (ids todos).
Proof.
  intros Hrun Hx. destruct (topologicalSort_spec todos order Hrun) as (_ & Hin & _).
  now apply Hin.
Qed.

Lemma computeSchedule_returns (clock : nat -> Date) (todos : list Todo) :
  exists order s,
    topologicalSort todos = Some order
    /\ computeSchedule clock todos = Some s
    /\ schedule_all clock (todoMap_of todos) order (mkSchedule [] [] 0) = Some s
    /\ s_samples s = length order
    /\ (forall x, In x (Map_keys (s_completionTime s)) <-> In x order)
    /\ (forall x, In x (Map_keys (s_earliestStart s)) <-> In x order).
Proof.
  destruct (topologicalSort_returns todos) as [order Hrun].
  destruct (schedule_all_returns clock (todoMap_of todos) order (mkSchedule [] [] 0))
    as [s Hs].
  { intros x Hx. apply todoMap_keys. eapply topologicalSort_known; eauto. }
  exists order, s. unfold computeSchedule. rewrite Hrun.
  split; [reflexivity|]. split; [assumption|]. split; [assumption|].
  apply schedule_all_frame in Hs as (H1 & _ & H3 & H4). simpl in *.
  split; [assumption|]. split; intros x; [rewrite H3|rewrite H4]; tauto.
Qed.

(** The completion recorded for a task is the date built from its
    earliest start plus the duration of the task stored under its
    identifier. *)
Lemma completion_recorded (clock : nat -> Date) (todos : list Todo)
    (s : schedule) (x : number) (v : DateObject) :
  computeSchedule clock todos = Some s ->
  Map_get (s_completionTime s) x = Some v ->
  exists todo start,
    In todo todos /\ id todo = x
    /\ Map_get (s_earliestStart s) x = Some start
    /\ v = new_Date (start + duration_or_default todo * 60 * 60 * 1000).
Proof.
  intros Hs Hget.
  destruct (computeSchedule_returns clock todos) as (order & s' & _ & Hs' & Hall & _).
  rewrite Hs in Hs'. injection Hs' as <-.
  destruct (schedule_all_completion clock (todoMap_of todos) order
              (mkSchedule [] [] 0) s) with (d := x) (v := v)
    as (todo & start & Htodo & Hstart & Hc); [|assumption|assumption|].
  - intros ? ? H. discriminate H.
  - apply todoMap_member in Htodo as [Hin Hid]. exists todo, start. auto.
Qed.

Lemma completion_is_start_plus_duration (clock : nat -> Date) (todos : list Todo)
    (s : schedule) (x : number) (c : Date) :
  computeSchedule clock todos = Some s ->
  Map_get (s_completionTime s) x = Some (Valid c) ->
  exists todo start,
    In todo todos /\ id todo = x
    /\ Map_get (s_earliestStart s) x = Some start
    /\ c = start + duration_or_default todo * 60 * 60 * 1000.
Proof.
  intros Hs Hget.
  destruct (completion_recorded clock todos s x _ Hs Hget)
    as (todo & start & Hin & Hid & Hstart & Hv).
  symmetry in Hv. apply new_Date_Valid in Hv as [-> _].
  exists todo, start. auto.
Qed.

Lemma calculateSchedule_returns (clock : nat -> Date) (todos : list Todo) :
  exists s path,
    computeSchedule clock todos = Some s
    /\ findCriticalPath todos (s_earliestStart s) (s_completionTime s) = Some path
    /\ calculateSchedule clock todos
       = Some (map (with_calculations (s_earliestStart s) path) todos).
Proof.
  destruct (computeSchedule_returns clock todos) as (order & s & _ & Hs & _ & _ & Hc & He).
  destruct (findCriticalPath_returns todos (s_earliestStart s) (s_completionTime s))
    as [path Hpath].
  { intros x Hx. apply Map_get_In, He, Hc, Hx. }
  exists s, path. unfold calculateSchedule. rewrite Hs, Hpath. auto.
Qed.

(** C10. The calculator returns one result for each task of the input, in
    the order of the input; a result carries every field of its task
    unchanged, and besides them only the parsed dependencies, the
    earliest start and the critical-path flag. *)
Theorem calculateSchedule_frame (clock : nat -> Date) (todos : list Todo) :
  exists results,
    calculateSchedule clock todos = Some results
    /\ length results = length todos
    /\ Forall2 keeps_fields todos results
    /\ Forall2 (fun todo r => dependsOn r = parseDependencies (or_null (dependencies todo)))
               todos results.
Proof.
  destruct (calculateSchedule_returns clock todos) as (s & path & _ & _ & ->).
  eexists. split; [reflexivity|]. split; [apply length_map|].
  split; induction todos as [|todo r IH]; simpl; constructor; auto.
  repeat split.
Qed.

(** ** Schedule calculator: earliest starts *)

Lemma ids_unique (todos : list Todo) (a b : Todo) :
  NoDup (ids todos) -> In a todos -> In b todos -> id a = id b -> a = b.
Proof.
  induction todos as [|t r IH]; intros Hnd Ha Hb Heq; [destruct Ha|].
  simpl in Hnd. inversion Hnd as [|? ? Ht Hr]; subst.
  destruct Ha as [->|Ha], Hb as [->|Hb]; auto.
  - exfalso. apply Ht. rewrite Heq. now apply in_map.
  - exfalso. apply Ht. rewrite <- Heq. now apply in_map.
Qed.

Lemma NoDup_split_unique (a a' b b' : list number) (x : number) :
  NoDup (a ++ x :: b) -> a ++ x :: b = a' ++ x :: b' -> a = a'.
Proof.
  revert a'. induction a as [|y a IH]; intros a' Hnd Heq.
  - destruct a' as [|y' a']; [reflexivity|]. simpl in *.
    injection Heq as <- ->. inversion Hnd as [|? ? Hx _]; subst.
    exfalso. apply Hx, in_app_iff. right. now left.
  - destruct a' as [|y' a']; simpl in *.
    + injection Heq as -> <-. inversion Hnd as [|? ? Hx _]; subst.
      exfalso. apply Hx, in_app_iff. right. now left.
    + injection Heq as <- Heq. f_equal. apply IH; [|assumption].
      now inversion Hnd.
Qed.

Lemma before_in_prefix (pre post : list number) (d x : number) :
  NoDup (pre ++ x :: post) -> before d x (pre ++ x :: post) -> In d pre.
Proof.
  intros Hnd (l1 & l2 & l3 & Heq).
  replace (l1 ++ d :: l2 ++ x :: l3) with ((l1 ++ d :: l2) ++ x :: l3) in Heq
    by (rewrite <- app_assoc; reflexivity).
  apply NoDup_split_unique in Heq; [|assumption].
  rewrite Heq, in_app_iff. right. now left.
Qed.

Lemma nth_error_middle (pre post : list number) (x : number) :
  nth_error (pre ++ x :: post) (length pre) = Some x.
Proof. induction pre as [|y r IH]; simpl; auto. Qed.

Lemma results_earliestStart (es : Map Date) (path : list number) (todos : list Todo)
    (r : TodoWithCalculations) (x : number) :
  In r (map (with_calculations es path) todos) -> c_id r = x ->
  earliestStart r = Map_get es x.
Proof.
  intros Hin Hid. apply in_map_iff in Hin as (todo & <- & _).
  simpl in *. now rewrite Hid.
Qed.

(** The task that holds position [length pre] of the order starts at the
    later of the reading taken for it and the completions, in the final
    map, of those of its dependencies that were processed before it. *)
Lemma start_at_position (clock : nat -> Date) (todos : list Todo) (todo : Todo)
    (pre post : list number) (s : schedule) :
  NoDup (ids todos) -> In todo todos ->
  topologicalSort todos = Some (pre ++ id todo :: post) ->
  computeSchedule clock todos = Some s ->
  (forall d, In d (deps_of todo) -> In d (Map_keys (s_completionTime s)) -> In d pre) ->
  Map_get (s_earliestStart s) (id todo)
  = Some (fold_left (later_completion (s_completionTime s)) (deps_of todo)
                    (clock (length pre))).
Proof.
  intros Hnd Htodo Hrun Hs Hdeps. unfold computeSchedule in Hs. rewrite Hrun in Hs.
  destruct (topologicalSort_spec todos _ Hrun) as (Hndo & _ & _).
  destruct (schedule_all_at clock (todoMap_of todos) pre post (id todo) s Hndo Hs)
    as (sk & todo' & _ & Hget & Hkeys & Hsame & Hstart & _).
  rewrite (todoMap_unique todos todo Hnd Htodo) in Hget. injection Hget as <-.
  rewrite Hstart. f_equal. rewrite !later_fold_completions. f_equal.
  apply completions_ext. intros d Hd.
  destruct (in_dec number_eq_dec d pre) as [Hin|Hout].
  - symmetry. now apply Hsame.
  - assert (H1 : Map_get (s_completionTime sk) d = None).
    { apply Map_get_None. now rewrite Hkeys. }
    assert (H2 : Map_get (s_completionTime s) d = None).
    { apply Map_get_None. intros Hk. apply Hout. auto. }
    now rewrite H1, H2.
Qed.

(** C4, as the code has it.  The clock is read once for every task of the
    order, when the walk reaches that task, not once for the call: a task
    without an existing dependency starts at the reading taken at its own
    position in the order, which is the common instant when all readings
    are the same. *)
Theorem clock_read_per_task (clock : nat -> Date) (todos : list Todo) (todo : Todo) :
  NoDup (ids todos) ->
  In todo todos ->
  (forall d, In d (deps_of todo) -> ~ In d (ids todos)) ->
  exists order s k results,
    topologicalSort todos = Some order
    /\ computeSchedule clock todos = Some s
    /\ s_samples s = length order
    /\ nth_error order k = Some (id todo)
    /\ calculateSchedule clock todos = Some results
    /\ (forall r, In r results -> c_id r = id todo -> earliestStart r = Some (clock k))
    /\ (forall now, (forall j, clock j = now) ->
          forall r, In r results -> c_id r = id todo -> earliestStart r = Some now).
Proof.
  intros Hnd Htodo Hfree.
  destruct (computeSchedule_returns clock todos)
    as (order & s & Hrun & Hs & _ & Hn & Hc & _).
  destruct (calculateSchedule_returns clock todos) as (s' & path & Hs' & _ & Hres).
  rewrite Hs in Hs'. injection Hs' as <-.
  destruct (topologicalSort_spec todos order Hrun) as (_ & Hin & _).
  assert (Hplaced : In (id todo) order).
  { apply Hin. split; [now apply in_map|]. constructor.
    intros d [(todo' & Hin' & Heq & Hd) Hex]. exfalso.
    rewrite (ids_unique todos todo' todo Hnd Hin' Htodo Heq) in Hd.
    exact (Hfree d Hd Hex). }
  apply in_split in Hplaced as (pre & post & ->).
  exists (pre ++ id todo :: post), s, (length pre),
         (map (with_calculations (s_earliestStart s) path) todos).
  split; [assumption|]. split; [assumption|]. split; [assumption|].
  split; [apply nth_error_middle|]. split; [exact Hres|].
  assert (Hstart : forall r,
            In r (map (with_calculations (s_earliestStart s) path) todos) ->
            c_id r = id todo -> earliestStart r = Some (clock (length pre))).
  { intros r Hr Hid. rewrite (results_earliestStart _ _ _ _ _ Hr Hid).
    rewrite (start_at_position clock todos todo pre post s Hnd Htodo Hrun Hs).
    - rewrite later_fold_completions, completions_none; [reflexivity|].
      intros d Hd. apply Map_get_None. intros Hk. apply Hc in Hk.
      apply (Hfree d Hd). apply Hin in Hk. tauto.
    - intros d Hd Hk. exfalso. apply Hc, Hin in Hk. apply (Hfree d Hd). tauto. }
  split; [exact Hstart|].
  intros now Hnow r Hr Hid. rewrite <- (Hnow (length pre)). now apply Hstart.
Qed.

Lemma completions_In (ct : Map DateObject) (deps : list number) (d : number) (c : Date) :
  In d deps -> Map_get ct d = Some (Valid c) -> In c (completions ct deps).
Proof.
  intros Hd Hget. unfold completions. apply in_flat_map. exists d.
  split; [assumption|]. rewrite Hget. now left.
Qed.

Lemma acyclic_all_placed (todos : list Todo) (order : list number) (x : number) :
  acyclic todos -> topologicalSort todos = Some order -> In x (ids todos) -> In x order.
Proof.
  intros Hac Hrun Hx. destruct (topologicalSort_spec todos order Hrun) as (_ & Hin & _).
  apply Hin. split; [assumption|].
  apply accessible_iff_not_blocked; [assumption|now apply acyclic_not_blocked].
Qed.

(** C3, as the code has it.  On an acyclic collection of tasks with
    distinct identifiers, a task with at least one existing dependency
    starts at the later of two instants: the reading of the clock taken
    when the walk reaches the task, and the maximum among the completion
    timestamps of its existing dependencies that are valid dates.  Every
    existing dependency has a completion recorded, but one that lies
    beyond the range of dates is an Invalid Date, which the comparison
    passes over; when all of them are, the task starts at the reading.
    When all readings of the clock are the same, no duration is negative
    and some completion is valid, the start is that maximum itself. *)
Theorem earliestStart_latest (clock : nat -> Date) (todos : list Todo) (todo : Todo) :
  acyclic todos ->
  NoDup (ids todos) ->
  In todo todos ->
  existing_deps todos todo <> [] ->
  exists order s k results,
    topologicalSort todos = Some order
    /\ nth_error order k = Some (id todo)
    /\ computeSchedule clock todos = Some s
    /\ calculateSchedule clock todos = Some results
    /\ (forall d, In d (existing_deps todos todo) ->
          exists v, Map_get (s_completionTime s) d = Some v)
    /\ ((forall d, In d (existing_deps todos todo) ->
           Map_get (s_completionTime s) d <> Some Invalid) ->
        exists m,
          maximum (completions (s_completionTime s) (existing_deps todos todo)) = Some m)
    /\ (forall r, In r results -> c_id r = id todo ->
          earliestStart r
          = Some (match maximum (completions (s_completionTime s)
                                             (existing_deps todos todo)) with
                  | Some m => Z.max (clock k) m
                  | None => clock k
                  end))
    /\ ((forall j, clock j = clock 0%nat) ->
        (forall t h, In t todos -> duration t = Some h -> 0 <= h) ->
        forall m,
          maximum (completions (s_completionTime s) (existing_deps todos todo)) = Some m ->
          forall r, In r results -> c_id r = id todo -> earliestStart r = Some m).
Proof.
  intros Hac Hnd Htodo Hdeps.
  destruct (computeSchedule_returns clock todos)
    as (order & s & Hrun & Hs & Hall & _ & Hc & _).
  destruct (calculateSchedule_returns clock todos) as (s' & path & Hs' & _ & Hres).
  rewrite Hs in Hs'. injection Hs' as <-.
  destruct (topologicalSort_spec todos order Hrun) as (Hndo & Hin & Hbefore).
  assert (Hplaced : In (id todo) order).
  { eapply acyclic_all_placed; eauto. now apply in_map. }
  apply in_split in Hplaced as (pre & post & ->).
  assert (Hknown : forall d, In d (Map_keys (s_completionTime s)) -> In d (ids todos)).
  { intros d Hd. apply Hc, Hin in Hd. tauto. }
  assert (Hrecorded : forall d, In d (existing_deps todos todo) ->
            exists v, Map_get (s_completionTime s) d = Some v).
  { intros d Hd. unfold existing_deps in Hd. apply filter_In in Hd as [Hd Hex].
    apply Set_has_In in Hex. apply Map_get_In, Hc. eapply acyclic_all_placed; eauto. }
  exists (pre ++ id todo :: post), s, (length pre),
         (map (with_calculations (s_earliestStart s) path) todos).
  split; [assumption|]. split; [apply nth_error_middle|]. split; [assumption|].
  split; [exact Hres|]. split; [exact Hrecorded|].
  assert (Hstart : forall r,
            In r (map (with_calculations (s_earliestStart s) path) todos) ->
            c_id r = id todo ->
            earliestStart r
            = Some (match maximum (completions (s_completionTime s)
                                               (existing_deps todos todo)) with
                    | Some m => Z.max (clock (length pre)) m
                    | None => clock (length pre)
                    end)).
  { intros r Hr Hid. rewrite (results_earliestStart _ _ _ _ _ Hr Hid).
    rewrite (start_at_position clock todos todo pre post s Hnd Htodo Hrun Hs).
    - now rewrite later_fold_maximum, <- (completions_existing todos) by assumption.
    - intros d Hd Hk. apply (before_in_prefix pre post d (id todo) Hndo).
      apply Hbefore; [|apply in_app_iff; right; now left].
      split; [now exists todo|auto]. }
  split; [|split; [exact Hstart|]].
  - intros Hvalid.
    destruct (existing_deps todos todo) as [|d rest] eqn:E; [congruence|].
    destruct (Hrecorded d (or_introl eq_refl)) as [[c|] Hget];
      [|elim (Hvalid d (or_introl eq_refl) Hget)].
    pose proof (completions_In _ (d :: rest) d c (or_introl eq_refl) Hget) as Hcin.
    destruct (completions (s_completionTime s) (d :: rest)); [destruct Hcin|].
    eexists. reflexivity.
  - intros Hfrozen Hdur m Hm r Hr Hid. rewrite (Hstart r Hr Hid), Hm. f_equal.
    apply maximum_In, completions_source in Hm as (d & _ & Hget).
    assert (Hlo : clock 0%nat <= m).
    { apply (schedule_all_lower_bound clock (todoMap_of todos)
               (pre ++ id todo :: post) (clock 0%nat))
        with (s := mkSchedule [] [] 0) (s' := s) (d := d); [| | |exact Hall|exact Hget].
      - intros j. rewrite (Hfrozen j). lia.
      - intros y t Hy. apply todoMap_member in Hy as [Hy _].
        apply duration_or_default_nonneg. eauto.
      - intros ? ? H. discriminate H. }
    rewrite (Hfrozen (length pre)). lia.
Qed.

(** ** Schedule calculator: completions within the range of dates *)

Lemma fold_max_le (l : list Z) (bound : Z) :
  (forall c, In c l -> c <= bound) ->
  forall base, base <= bound -> fold_left Z.max l base <= bound.
Proof.
  induction l as [|x r IH]; intros Hl base Hbase; simpl; [assumption|].
  apply IH; [intros c Hc; apply Hl; now right|].
  specialize (Hl x (or_introl eq_refl)). lia.
Qed.

(** With readings of the clock between the epoch and [latest] and
    durations of at most [hours] hours, every completion is a valid
    date as long as the tasks, one after the other, fit into the range
    of dates. *)
Lemma schedule_all_in_range (clock : nat -> Date) (todoMap : Map Todo)
    (l : list number) (hours latest : Z) :
  (forall k, 0 < clock k <= latest) ->
  (forall x todo, Map_get todoMap x = Some todo ->
     0 <= duration_or_default todo <= hours) ->
  forall s s',
    (forall d v, Map_get (s_completionTime s) d = Some v ->
       exists c, v = Valid c
                 /\ 0 < c <= latest + Z.of_nat (s_samples s) * (hours * 3600000)) ->
    latest + Z.of_nat (s_samples s + length l) * (hours * 3600000) <= max_time ->
    schedule_all clock todoMap l s = Some s' ->
    forall d v, Map_get (s_completionTime s') d = Some v ->
      exists c, v = Valid c
                /\ 0 < c <= latest + Z.of_nat (s_samples s') * (hours * 3600000).
Proof.
  intros Hclock Hdur. induction l as [|x r IH]; intros s s' Hinv Hfit Hrun; simpl in Hrun.
  - now injection Hrun as <-.
  - destruct (schedule_step clock todoMap s x) as [s1|] eqn:E; [|discriminate].
    apply schedule_step_effect in E as (todo & Hget & ->).
    eapply IH; [| |exact Hrun]; cbn [s_samples s_completionTime].
    2:{ cbn [length] in Hfit. rewrite Nat.add_succ_r in Hfit. exact Hfit. }
    set (start := fold_left (later_completion (s_completionTime s)) (deps_of todo)
                            (clock (s_samples s))).
    assert (Hstart : 0 < start <= latest + Z.of_nat (s_samples s) * (hours * 3600000)).
    { pose proof (Hclock (s_samples s)) as Hk. split.
      - pose proof (later_fold_ge (s_completionTime s) (deps_of todo)
                      (clock (s_samples s))). unfold start. lia.
      - unfold start. rewrite later_fold_completions. apply fold_max_le.
        + intros c Hc. apply completions_source in Hc as (d & _ & Hd).
          destruct (Hinv d _ Hd) as (c' & Hc' & Hle). injection Hc' as <-. lia.
        + specialize (Hdur x todo Hget). nia. }
    specialize (Hdur x todo Hget).
    intros d v. number_cases x d.
    + rewrite Map_get_set_same. intros H. injection H as <-.
      exists (start + duration_or_default todo * 60 * 60 * 1000).
      assert (Hhi : start + duration_or_default todo * 60 * 60 * 1000
                    <= latest + Z.of_nat (S (s_samples s)) * (hours * 3600000))
        by (rewrite Nat2Z.inj_succ; lia).
      split; [|split; [lia|exact Hhi]].
      apply new_Date_Valid. split; [reflexivity|].
      cbn [length] in Hfit. rewrite Nat.add_succ_r, Nat2Z.inj_succ, Nat2Z.inj_add in Hfit.
      rewrite Nat2Z.inj_succ in Hhi.
      assert (0 <= Z.of_nat (length r) * (hours * 3600000)) by nia.
      lia.
    + rewrite Map_get_set_other by assumption. intros H.
      destruct (Hinv d v H) as (c & Hc & Hle). exists c. split; [assumption|].
      rewrite Nat2Z.inj_succ. nia.
Qed.

(** The condition of the next theorem on the completion of a task
    holds for every task of such a collection. *)
Lemma completes_validly_in_range (clock : nat -> Date) (todos : list Todo)
    (hours latest : Z) :
  1 <= hours ->
  (forall todo h, In todo todos -> duration todo = Some h -> 0 <= h <= hours) ->
  (forall k, 0 < clock k <= latest) ->
  latest + Z.of_nat (length todos) * (hours * 3600000) <= max_time ->
  forall x, completes_validly clock todos x.
Proof.
  intros Hhours Hdur Hclock Hfit x s Hs.
  destruct (computeSchedule_returns clock todos) as (order & s' & Hrun & Hs' & Hall & _).
  rewrite Hs in Hs'. injection Hs' as <-.
  destruct (topologicalSort_spec todos order Hrun) as (Hnd & Hin & _).
  assert (Hlen : (length order <= length todos)%nat).
  { replace (length todos) with (length (ids todos)) by apply length_map.
    apply NoDup_incl_length; [assumption|]. intros y Hy. now apply Hin in Hy. }
  intros Hget.
  destruct (schedule_all_in_range clock (todoMap_of todos) order hours latest Hclock)
    with (s := mkSchedule [] [] 0) (s' := s) (d := x) (v := Invalid)
    as (c & Hc & _); try assumption; [| |simpl|discriminate Hc].
  - intros y todo Hy. apply todoMap_member in Hy as [Hy _].
    unfold duration_or_default. destruct (duration todo) as [h|] eqn:E; [|lia].
    specialize (Hdur todo h Hy E). destruct h; lia.
  - intros ? ? H. discriminate H.
  - nia.
Qed.

(** ** Schedule calculator: the critical path is not empty *)

Lemma includes_In (l : list number) (x : number) : In x l -> includes l x = true.
Proof.
  intros H. unfold includes. apply existsb_exists. exists x.
  split; [assumption|apply number_eqb_refl].
Qed.

(** C5, as the code has it.  When some task neither lies on a cycle nor
    depends on one and its completion is a valid date, no task has the
    identifier -1, no duration is negative and the clock shows instants
    after the epoch, the calculator flags at least one task as
    critical. *)
Theorem critical_path_nonempty (clock : nat -> Date) (todos : list Todo) (x : number) :
  In x (ids todos) ->
  ~ blocked_by_cycle todos x ->
  completes_validly clock todos x ->
  ~ In minus_one (ids todos) ->
  (forall todo h, In todo todos -> duration todo = Some h -> 0 <= h) ->
  (forall k, 0 < clock k) ->
  exists results r,
    calculateSchedule clock todos = Some results
    /\ In r results
    /\ isOnCriticalPath r = true.
Proof.
  intros Hx Hfree Hvalid Hm1 Hdur Hclock.
  destruct (computeSchedule_returns clock todos)
    as (order & s & Hrun & Hs & Hall & _ & Hc & _).
  destruct (calculateSchedule_returns clock todos) as (s' & path & Hs' & Hpath & Hres).
  rewrite Hs in Hs'. injection Hs' as <-.
  destruct (topologicalSort_spec todos order Hrun) as (_ & Hin & _).
  assert (Hpos : forall d c, Map_get (s_completionTime s) d = Some (Valid c) -> 0 < c).
  { intros d c Hget. cut (1 <= c); [lia|].
    apply (schedule_all_lower_bound clock (todoMap_of todos) order 1)
      with (s := mkSchedule [] [] 0) (s' := s) (d := d); [| | |exact Hall|exact Hget].
    - intros k. specialize (Hclock k). lia.
    - intros y todo Hy. apply todoMap_member in Hy as [Hy _].
      apply duration_or_default_nonneg. eauto.
    - intros ? ? H. discriminate H. }
  assert (Hxo : In x (Map_keys (s_completionTime s))).
  { apply Hc, Hin. split; [assumption|]. now apply accessible_iff_not_blocked. }
  destruct (findCriticalPath_spec todos _ _ path Hpath) as (_ & _ & _ & Hlast).
  set (endTask := snd (latest_task (s_completionTime s))) in *.
  assert (Hend : In endTask (ids todos)).
  { apply Map_get_In in Hxo as [[c|] Hget]; [|elim (Hvalid s Hs Hget)].
    pose proof (latest_task_found _ x c (Map_get_entry _ _ _ Hget) (Hpos x c Hget)) as Hk.
    apply Hc, Hin in Hk. tauto. }
  destruct Hlast as [init Hinit]; [intros Heq; rewrite Heq in Hend; contradiction|].
  apply in_map_iff in Hend as (todo & Hid & Htodo).
  exists (map (with_calculations (s_earliestStart s) path) todos),
         (with_calculations (s_earliestStart s) path todo).
  split; [exact Hres|]. split; [now apply in_map|].
  simpl. apply includes_In. rewrite Hid, Hinit, in_app_iff. right. now left.
Qed.

(** ** The scheduler reads a task through its identifier, its parsed
    dependencies and its duration only *)

Lemma fold_left_related {A B : Type} (R : B -> B -> Prop) (f : A -> B -> A)
    (l l' : list B) :
  Forall2 R l l' -> (forall a x y, R x y -> f a x = f a y) ->
  forall a, fold_left f l a = fold_left f l' a.
Proof.
  intros H Hf. induction H as [|x y l l' Hxy _ IH]; intros a; simpl; [reflexivity|].
  rewrite (Hf a x y Hxy). apply IH.
Qed.

Lemma topologicalSort_equiv (todos todos' : list Todo) :
  Forall2 sched_equiv todos todos' -> topologicalSort todos = topologicalSort todos'.
Proof.
  intros H. unfold topologicalSort.
  assert (Hbuild : kahn_build todos = kahn_build todos').
  { unfold kahn_build, kahn_init.
    rewrite (fold_left_related sched_equiv _ todos todos' H).
    - rewrite (fold_left_related sched_equiv _ todos todos' H); [reflexivity|].
      intros a x y (Hid & _ & _). now rewrite Hid.
    - intros a x y (Hid & Hdeps & _). now rewrite Hid, Hdeps. }
  now rewrite Hbuild.
Qed.

Lemma Map_set_equiv (m m' : Map Todo) (x : number) (a b : Todo) :
  map_equiv m m' -> sched_equiv a b -> map_equiv (Map_set m x a) (Map_set m' x b).
Proof.
  unfold map_equiv.
  intros H Hab. induction H as [|[k v] [k' v'] m m' [Hk Hv] Hm IH]; simpl in *.
  - constructor; [split; [reflexivity|assumption]|constructor].
  - subst k'. destruct (number_eqb k x); constructor; simpl; auto.
Qed.

Lemma todoMap_equiv (todos todos' : list Todo) :
  Forall2 sched_equiv todos todos' -> map_equiv (todoMap_of todos) (todoMap_of todos').
Proof.
  unfold todoMap_of. intros H.
  assert (Hgen : forall m m', map_equiv m m' ->
            map_equiv (fold_left (fun m todo => Map_set m (id todo) todo) todos m)
                      (fold_left (fun m todo => Map_set m (id todo) todo) todos' m')).
  { induction H as [|x y l l' Hxy _ IH]; intros m m' Hm; simpl; [assumption|].
    apply IH. destruct Hxy as (Hid & Hrest). rewrite <- Hid.
    apply Map_set_equiv; [assumption|]. split; assumption. }
  apply Hgen. constructor.
Qed.

Lemma Map_get_equiv (m m' : Map Todo) (x : number) :
  map_equiv m m' ->
  match Map_get m x, Map_get m' x with
  | Some a, Some b => sched_equiv a b
  | None, None => True
  | _, _ => False
  end.
Proof.
  intros H. induction H as [|[k v] [k' v'] m m' [Hk Hv] _ IH]; simpl in *; [exact I|].
  subst k'. destruct (number_eqb k x); assumption.
Qed.

Lemma duration_or_default_equiv (a b : Todo) :
  sched_equiv a b -> duration_or_default a = duration_or_default b.
Proof. intros (_ & _ & H). unfold duration_or_default. now rewrite H. Qed.

Lemma schedule_all_equiv (clock : nat -> Date) (m m' : Map Todo) (l : list number) :
  map_equiv m m' ->
  forall s, schedule_all clock m l s = schedule_all clock m' l s.
Proof.
  intros H. induction l as [|x r IH]; intros s; simpl; [reflexivity|].
  assert (Hstep : schedule_step clock m s x = schedule_step clock m' s x).
  { unfold schedule_step. pose proof (Map_get_equiv m m' x H) as Hx.
    destruct (Map_get m x) as [a|], (Map_get m' x) as [b|]; try contradiction; auto.
    rewrite (duration_or_default_equiv a b Hx).
    destruct Hx as (_ & -> & _). reflexivity. }
  rewrite Hstep. destruct (schedule_step clock m' s x); auto.
Qed.

Lemma find_todo_equiv (todos todos' : list Todo) (x : number) :
  Forall2 sched_equiv todos todos' ->
  match find_todo todos x, find_todo todos' x with
  | Some a, Some b => sched_equiv a b
  | None, None => True
  | _, _ => False
  end.
Proof.
  unfold find_todo. intros H. induction H as [|a b l l' Hab _ IH]; simpl; [exact I|].
  destruct Hab as (Hid & Hrest). rewrite <- Hid.
  destruct (number_eqb (id a) x); [split; assumption|assumption].
Qed.

Lemma tracePath_equiv (todos todos' : list Todo) (es : Map Date) (ct : Map DateObject) (fuel : nat) :
  Forall2 sched_equiv todos todos' ->
  forall x t, tracePath fuel todos es ct x t = tracePath fuel todos' es ct x t.
Proof.
  intros H. induction fuel as [|fuel IH]; intros x t; simpl; [reflexivity|].
  destruct (Set_has (t_visited t) x); [reflexivity|].
  pose proof (find_todo_equiv todos todos' x H) as Hx.
  destruct (find_todo todos x) as [a|], (find_todo todos' x) as [b|];
    try contradiction; auto.
  destruct Hx as (_ & -> & _).
  destruct (critical_dep ct (Map_get es x) (deps_of b) (minus_one, 0)) as [[cd c]|]; auto.
  destruct (number_eqb cd minus_one); auto.
Qed.

Lemma calculateSchedule_equiv (clock : nat -> Date) (todos todos' : list Todo) :
  Forall2 sched_equiv todos todos' ->
  match calculateSchedule clock todos, calculateSchedule clock todos' with
  | Some results, Some results' => Forall2 same_schedule results results'
  | None, None => True
  | _, _ => False
  end.
Proof.
  intros H. unfold calculateSchedule, computeSchedule.
  rewrite <- (topologicalSort_equiv todos todos' H).
  destruct (topologicalSort todos) as [order|]; [|exact I].
  rewrite <- (schedule_all_equiv clock _ _ order (todoMap_equiv todos todos' H)).
  destruct (schedule_all clock (todoMap_of todos) order (mkSchedule [] [] 0)) as [s|];
    [|exact I].
  unfold findCriticalPath.
  destruct (number_eqb (snd (latest_task (s_completionTime s))) minus_one).
  - induction H as [|a b l l' (Hid & Hdeps & _) _ IH]; simpl; constructor; auto.
    repeat split; simpl; congruence.
  - rewrite <- (tracePath_equiv todos todos' _ _ _ H).
    destruct (tracePath _ todos _ _ _ _) as [t|]; [|exact I].
    induction H as [|a b l l' (Hid & Hdeps & _) _ IH]; simpl; constructor; auto.
    repeat split; simpl; congruence.
Qed.

Lemma Forall2_sched_equiv_refl (l : list Todo) : Forall2 sched_equiv l l.
Proof. induction l; constructor; auto. repeat split. Qed.

(** C8. The parser never fails: on an absent or empty field and on every
    text that does not parse as a sequence it returns the empty list; and
    the calculator schedules a task with such a field exactly as it would
    the same task without the field. *)
Theorem parseDependencies_fail_open (field : option string) :
  (field = None \/ field = Some EmptyString
   \/ exists s, field = Some s /\ forall parsed, Json.parse s <> Some (Json.JArray parsed)) ->
  parseDependencies field = []
  /\ forall clock pre post todo,
       dependencies todo = field ->
       exists results results',
         calculateSchedule clock (pre ++ todo :: post) = Some results
         /\ calculateSchedule clock (pre ++ without_dependencies todo :: post) = Some results'
         /\ Forall2 same_schedule results results'.
Proof.
  intros H.
  assert (Hnil : parseDependencies field = []).
  { destruct H as [->|[->|(s & -> & Hs)]]; try reflexivity.
    now apply parseDependencies_not_array. }
  split; [assumption|]. intros clock pre post todo Hfield.
  assert (Hdeps : deps_of todo = []).
  { unfold deps_of. rewrite Hfield. destruct field as [[|c s]|]; try reflexivity.
    exact Hnil. }
  assert (Hequiv : Forall2 sched_equiv (pre ++ todo :: post)
                           (pre ++ without_dependencies todo :: post)).
  { apply Forall2_app; [apply Forall2_sched_equiv_refl|].
    constructor; [|apply Forall2_sched_equiv_refl].
    split; [reflexivity|]. split; [|reflexivity]. now rewrite Hdeps. }
  pose proof (calculateSchedule_equiv clock _ _ Hequiv) as Hsame.
  destruct (calculateSchedule_returns clock (pre ++ todo :: post)) as (s & p & _ & _ & Hr).
  destruct (calculateSchedule_returns clock (pre ++ without_dependencies todo :: post))
    as (s' & p' & _ & _ & Hr').
  rewrite Hr, Hr' in Hsame. eauto.
Qed.

Lemma parseDependencies_fail_open_witness :
  parseDependencies (Some "not-json"%string) = []
  /\ forall clock pre post todo,
       dependencies todo = Some "not-json"%string ->
       exists results results',
         calculateSchedule clock (pre ++ todo :: post) = Some results
         /\ calculateSchedule clock (pre ++ without_dependencies todo :: post) = Some results'
         /\ Forall2 same_schedule results results'.
Proof.
  apply (parseDependencies_fail_open (Some "not-json"%string)).
  right. right. exists "not-json"%string. split; [reflexivity|].
  intros parsed H. vm_compute in H. discriminate H.
Defined.

Example parse_not_json : Json.parse "not-json" = None.
Proof. reflexivity. Qed.

(** A text that holds a sequence inside a JSON string, as a client that
    encodes the list twice would store it, is not a sequence either. *)
Example parseDependencies_double_encoded :
  parseDependencies (Some (quoted "[1,2]")) = [].
Proof. reflexivity. Qed.

(** C9, as the code has it.  When the text parses as a sequence, the
    parser returns the elements of the sequence that are numbers, whether
    integers or not, in their order, and drops every other element. *)
Theorem parseDependencies_numbers (s : string) (parsed : list Json.value) :
  Json.parse s = Some (Json.JArray parsed) ->
  map Json.JNumber (parseDependencies (Some s)) = filter is_number parsed.
Proof.
  intros H. rewrite (parseDependencies_array s parsed H). apply filter_numbers_filter.
Qed.

Lemma parseDependencies_numbers_witness :
  map Json.JNumber (parseDependencies (Some "[3, true, 1.5, null, [2], 7]"%string))
  = filter is_number
      [Json.JNumber (NInt 3); Json.JBool true; Json.JNumber (NDec 15 1);
       Json.JNull; Json.JArray [Json.JNumber (NInt 2)]; Json.JNumber (NInt 7)].
Proof.
  apply (parseDependencies_numbers "[3, true, 1.5, null, [2], 7]"%string).
  vm_compute. reflexivity.
Defined.

Lemma integer_filter_counterexample : ~ integer_filter_claim "[1.5]".
Proof.
  intros H. specialize (H [Json.JNumber (NDec 15 1)] eq_refl).
  vm_compute in H. discriminate H.
Qed.

Example parseDependencies_keeps_fraction :
  parseDependencies (Some "[1.5]"%string) = [NDec 15 1]
  /\ is_integer (NDec 15 1) = false.
Proof. split; reflexivity. Qed.

(** ** Cycle detector: the verdict of the traversal is lost *)

(** C1.  The detector does not report cycles.  On a task that lists
    itself, and on a candidate that closes a cycle of two tasks, the
    graph it builds has a cycle and the traversal meets it (the callback
    yields true), yet the function returns false. *)
Theorem hasCircularDependency_misses_cycle :
  (graph_has_cycle (dependencyGraph self_dependent (mkNewTodo None []))
   /\ (exists verdicts st,
         forEach_hasCycle (dfs_fuel (dependencyGraph self_dependent (mkNewTodo None [])))
                          (dependencyGraph self_dependent (mkNewTodo None []))
                          (Map_keys (dependencyGraph self_dependent (mkNewTodo None [])))
                          (mkDfs [] []) = Some (verdicts, st)
         /\ In true verdicts)
   /\ hasCircularDependency self_dependent (mkNewTodo None []) = Some false)
  /\ (graph_has_cycle (dependencyGraph before_candidate candidate)
      /\ hasCircularDependency before_candidate candidate = Some false).
Proof.
  split; [split; [|split]|split].
  - exists (NInt 1). apply t_step. exists [NInt 1]. split; [reflexivity|now left].
  - eexists _, _. split; [vm_compute; reflexivity|now left].
  - reflexivity.
  - exists (NInt 1). apply t_trans with (NInt 2); apply t_step.
    + exists [NInt 2]. split; [reflexivity|now left].
    + exists [NInt 1]. split; [reflexivity|now left].
  - reflexivity.
Qed.

(** ** Instances *)

Lemma scenario_ids_distinct (a b : Z) (x y : Todo) :
  a <> b -> id x = NInt a -> id y = NInt b -> NoDup (ids [x; y]).
Proof.
  intros Hab Hx Hy. simpl. rewrite Hx, Hy.
  constructor; [intros [H|[]]; congruence|]. constructor; [intros []|constructor].
Qed.

Lemma earliestStart_latest_witness :
  exists order s k results,
    topologicalSort scenario_A = Some order
    /\ nth_error order k = Some (id (task 2 "[1]" 3))
    /\ computeSchedule (frozen_clock 1000000) scenario_A = Some s
    /\ calculateSchedule (frozen_clock 1000000) scenario_A = Some results
    /\ (forall d, In d (existing_deps scenario_A (task 2 "[1]" 3)) ->
          exists v, Map_get (s_completionTime s) d = Some v)
    /\ ((forall d, In d (existing_deps scenario_A (task 2 "[1]" 3)) ->
           Map_get (s_completionTime s) d <> Some Invalid) ->
        exists m,
          maximum (completions (s_completionTime s)
                               (existing_deps scenario_A (task 2 "[1]" 3))) = Some m)
    /\ (forall r, In r results -> c_id r = id (task 2 "[1]" 3) ->
          earliestStart r
          = Some (match maximum (completions (s_completionTime s)
                                             (existing_deps scenario_A (task 2 "[1]" 3))) with
                  | Some m => Z.max (frozen_clock 1000000 k) m
                  | None => frozen_clock 1000000 k
                  end))
    /\ ((forall j, frozen_clock 1000000 j = frozen_clock 1000000 0%nat) ->
        (forall t h, In t scenario_A -> duration t = Some h -> 0 <= h) ->
        forall m,
          maximum (completions (s_completionTime s)
                               (existing_deps scenario_A (task 2 "[1]" 3))) = Some m ->
          forall r, In r results -> c_id r = id (task 2 "[1]" 3) ->
            earliestStart r = Some m).
Proof.
  apply (earliestStart_latest (frozen_clock 1000000) scenario_A (task 2 "[1]" 3)).
  - apply acyclicb_sound. vm_compute. reflexivity.
  - apply (scenario_ids_distinct 1 2); [lia|reflexivity|reflexivity].
  - right. left. reflexivity.
  - vm_compute. discriminate.
Defined.

Example calculateSchedule_scenario_A :
  option_map (map (fun r => (c_id r, earliestStart r, isOnCriticalPath r)))
             (calculateSchedule (frozen_clock 1000000) scenario_A)
  = Some [(NInt 1, Some 1000000, true); (NInt 2, Some 8200000, true)].
Proof. reflexivity. Qed.

Example calculateSchedule_scenario_C :
  option_map (map (fun r => (c_id r, earliestStart r, isOnCriticalPath r)))
             (calculateSchedule (frozen_clock 1000000) scenario_C)
  = Some [(NInt 1, Some 1000000, true); (NInt 2, Some 1000000, false);
          (NInt 3, Some 4600000, true)].
Proof. reflexivity. Qed.

Example computeSchedule_scenario_C :
  computeSchedule (frozen_clock 1000000) scenario_C
  = Some (mkSchedule scenario_C_start scenario_C_completion 3).
Proof. reflexivity. Qed.

Lemma latest_completion_counterexample :
  ~ latest_completion_claim (frozen_clock 1000000) negative_duration.
Proof.
  intros H.
  assert (Hac : acyclic negative_duration) by (apply acyclicb_sound; reflexivity).
  destruct (H Hac (task 2 "[1]" 1)) as (s & results & m & Hs & Hres & Hm & Hstart).
  - right. left. reflexivity.
  - vm_compute. discriminate.
  - vm_compute in Hs. injection Hs as <-.
    vm_compute in Hres. injection Hres as <-.
    vm_compute in Hm. injection Hm as <-.
    specialize (Hstart _ (or_intror (or_introl eq_refl)) eq_refl).
    vm_compute in Hstart. discriminate Hstart.
Qed.

Example negative_duration_schedule :
  computeSchedule (frozen_clock 1000000) negative_duration
  = Some (mkSchedule [(NInt 1, 1000000); (NInt 2, 1000000)]
                     [(NInt 1, Valid (-6200000)); (NInt 2, Valid 4600000)] 2).
Proof. reflexivity. Qed.

(** A dependency whose completion is an Invalid Date is passed over:
    the third task starts at the reading of the clock. *)
Example overlong_chain_schedule :
  computeSchedule (frozen_clock 1000000) overlong_chain
  = Some (mkSchedule [(NInt 1, 1000000); (NInt 2, 7730941130200000); (NInt 3, 1000000)]
                     [(NInt 1, Valid 7730941130200000); (NInt 2, Invalid);
                      (NInt 3, Valid 4600000)] 3).
Proof. reflexivity. Qed.

(** With durations of whole hours the same happens when the clock moves
    on by more than the duration of the dependency between two readings. *)
Example latest_completion_clock_step :
  computeSchedule (fun k => 1000000 + Z.of_nat k * 7200001) scenario_A
  = Some (mkSchedule [(NInt 1, 1000000); (NInt 2, 8200001)]
                     [(NInt 1, Valid 8200000); (NInt 2, Valid 19000001)] 2).
Proof. reflexivity. Qed.

Lemma clock_read_per_task_witness :
  exists order s k results,
    topologicalSort two_independent = Some order
    /\ computeSchedule (ticking_clock 1000000) two_independent = Some s
    /\ s_samples s = length order
    /\ nth_error order k = Some (id (free_task 2 1))
    /\ calculateSchedule (ticking_clock 1000000) two_independent = Some results
    /\ (forall r, In r results -> c_id r = id (free_task 2 1) ->
          earliestStart r = Some (ticking_clock 1000000 k))
    /\ (forall now, (forall j, ticking_clock 1000000 j = now) ->
          forall r, In r results -> c_id r = id (free_task 2 1) ->
            earliestStart r = Some now).
Proof.
  apply (clock_read_per_task (ticking_clock 1000000) two_independent (free_task 2 1)).
  - apply (scenario_ids_distinct 1 2); [lia|reflexivity|reflexivity].
  - right. left. reflexivity.
  - intros d Hd. vm_compute in Hd. destruct Hd.
Defined.

Lemma single_reading_counterexample :
  ~ single_reading_claim (ticking_clock 1000000) two_independent.
Proof.
  intros H.
  destruct (calculateSchedule (ticking_clock 1000000) two_independent)
    as [results|] eqn:E; [|vm_compute in E; discriminate E].
  pose proof E as E'. vm_compute in E'. injection E' as <-.
  specialize (H _ _ E (or_intror (or_introl eq_refl))).
  simpl in H. discriminate H. intros d [].
Qed.

Example two_independent_starts :
  option_map (map (fun r => (c_id r, earliestStart r)))
             (calculateSchedule (ticking_clock 1000000) two_independent)
  = Some [(NInt 1, Some 1000000); (NInt 2, Some 1000001)].
Proof. reflexivity. Qed.

Lemma critical_path_nonempty_witness :
  exists results r,
    calculateSchedule (frozen_clock 1000000) scenario_A = Some results
    /\ In r results
    /\ isOnCriticalPath r = true.
Proof.
  apply (critical_path_nonempty (frozen_clock 1000000) scenario_A (NInt 1)).
  - left. reflexivity.
  - apply acyclic_not_blocked, acyclicb_sound. vm_compute. reflexivity.
  - intros s H. vm_compute in H. injection H as <-. vm_compute. discriminate.
  - intros [H|[H|[]]]; discriminate H.
  - intros todo h [<-|[<-|[]]] H; injection H as <-; lia.
  - intros k. unfold frozen_clock. lia.
Defined.

Lemma critical_path_counterexample :
  ~ critical_path_claim (frozen_clock 1000000) scenario_B.
Proof.
  intros H. destruct H as (results & r & Hres & Hin & Hflag); [discriminate|].
  vm_compute in Hres. injection Hres as <-.
  destruct Hin as [<-|[<-|[]]]; discriminate Hflag.
Qed.

(** So is the condition on the completion: a single task whose
    completion is an Invalid Date is not flagged. *)
Example critical_path_overlong :
  option_map (map isOnCriticalPath) (calculateSchedule (frozen_clock 1000000) overlong_task)
  = Some [false].
Proof. reflexivity. Qed.

(** The condition on identifiers is needed as well: a task with the
    identifier -1 is taken for "no task". *)
Example critical_path_minus_one :
  option_map (map isOnCriticalPath) (calculateSchedule (frozen_clock 1000000) minus_one_task)
  = Some [false].
Proof. reflexivity. Qed.

(** ** Critical path: the trace the calculator runs *)

Lemma find_todo_found (todos : list Todo) (x : number) :
  In x (ids todos) -> exists todo, find_todo todos x = Some todo /\ id todo = x.
Proof.
  intros Hx. apply in_map_iff in Hx as (t & Hid & Hin).
  unfold find_todo. destruct (find _ todos) as [todo|] eqn:E.
  - exists todo. split; [reflexivity|].
    apply find_some in E as [_ E]. now apply number_eqb_eq in E.
  - pose proof (find_none _ _ E t Hin) as Hf. simpl in Hf.
    rewrite Hid, number_eqb_refl in Hf. discriminate.
Qed.

(** C6.  On the maps the calculator has computed, the backward trace
    returns a path on which no task occurs twice and whose elements are
    tasks of the collection.  The path is anchored:
    it is empty only when no completion is a valid date after the epoch,
    and otherwise (no task having the identifier -1) it holds the task
    the trace starts from, whose completion none exceeds, as its last
    element.  Every task of the trace is followed by a dependency of its
    own that completes within 1000 ms of its earliest start, no earlier
    than any other dependency within that tolerance, and strictly later
    than those listed before it.  A task for which no dependency
    qualifies is the last of the trace.  The trace ends at a task only
    when no dependency of it within the tolerance completes after the
    epoch, or when the selected one has the identifier -1 or is on the
    path already; so when every completion lies after the epoch and no
    task has the identifier -1, it ends only for one of two reasons: no
    dependency qualifies, or the selected one was visited before. *)
Theorem critical_path_trace (clock : nat -> Date) (todos : list Todo) :
  exists s path,
    computeSchedule clock todos = Some s
    /\ findCriticalPath todos (s_earliestStart s) (s_completionTime s) = Some path
    /\ NoDup path
    /\ (forall x, In x path -> exists todo, find_todo todos x = Some todo /\ id todo = x)
    /\ ((forall d c, Map_get (s_completionTime s) d = Some (Valid c) -> c <= 0) ->
        path = [])
    /\ (Map_get (s_completionTime s) minus_one = None ->
        forall d c, Map_get (s_completionTime s) d = Some (Valid c) -> 0 < c ->
        exists init final latest,
          path = init ++ [final]
          /\ Map_get (s_completionTime s) final = Some (Valid latest)
          /\ forall y c', Map_get (s_completionTime s) y = Some (Valid c') ->
               c' <= latest)
    /\ trace_chain todos (s_earliestStart s) (s_completionTime s) (rev path)
    /\ (forall l1 cur l2 todo,
          rev path = l1 ++ cur :: l2 ->
          find_todo todos cur = Some todo ->
          none_qualifies (s_completionTime s) (Map_get (s_earliestStart s) cur)
                         (deps_of todo) ->
          l2 = [])
    /\ (forall final rest, path = final :: rest ->
          trace_end_raw todos (s_earliestStart s) (s_completionTime s) path final)
    /\ ((forall d c, Map_get (s_completionTime s) d = Some (Valid c) -> 0 < c) ->
        Map_get (s_completionTime s) minus_one = None ->
        forall final rest, path = final :: rest ->
          trace_end todos (s_earliestStart s) (s_completionTime s) path final).
Proof.
  destruct (computeSchedule_returns clock todos)
    as (order & s & Hrun & Hs & Hall & _ & Hc & _).
  destruct (calculateSchedule_returns clock todos) as (s' & path & Hs' & Hpath & _).
  rewrite Hs in Hs'. injection Hs' as <-.
  exists s, path. split; [assumption|]. split; [assumption|].
  destruct (findCriticalPath_spec todos _ _ path Hpath) as (Hnd & Hchain & Hend & _).
  assert (Hkeys : NoDup (Map_keys (s_completionTime s))).
  { apply (schedule_all_keys_NoDup clock (todoMap_of todos) order
             (mkSchedule [] [] 0) s); [constructor|exact Hall]. }
  destruct (findCriticalPath_anchor todos _ _ path Hkeys Hpath) as [Hempty Hanchor].
  split; [assumption|]. split.
  { intros x Hx. apply find_todo_found.
    apply (findCriticalPath_keys _ _ _ _ Hpath), Hc in Hx.
    destruct (topologicalSort_spec todos order Hrun) as (_ & Hin & _).
    apply Hin in Hx. tauto. }
  split; [assumption|]. split; [assumption|].
  split; [assumption|]. split; [|split; [assumption|]].
  - intros l1 cur l2 todo Heq Hfind Hnone.
    eapply trace_chain_stops; eauto.
  - intros Hpos Hm1 final rest Heq.
    apply trace_end_of_raw; eauto.
Qed.

Example critical_path_scenario_C :
  option_map (fun s => findCriticalPath scenario_C (s_earliestStart s) (s_completionTime s))
             (computeSchedule (frozen_clock 1000000) scenario_C)
  = Some (Some [NInt 1; NInt 3]).
Proof. reflexivity. Qed.

(* ================================================================== *)
(** * Further properties of the scheduler *)

(** ** What the calculator does with tasks behind a cycle *)

Lemma includes_not_In (l : list number) (x : number) : ~ In x l -> includes l x = false.
Proof.
  intros H. unfold includes. destruct (existsb (number_eqb x) l) eqn:E; [|reflexivity].
  apply existsb_exists in E as (y & Hy & Heq). apply number_eqb_eq in Heq. now subst.
Qed.

Lemma trace_chain_valid (todos : list Todo) (es : Map Date) (ct : Map DateObject)
    (l : list number) :
  forall x, trace_chain todos es ct (x :: l) ->
    forall y, In y l -> exists c, Map_get ct y = Some (Valid c).
Proof.
  induction l as [|z l IH]; intros x Hc y Hy; [destruct Hy|].
  destruct Hc as [(todo & s & c & _ & _ & Hsel) Hrest].
  destruct Hy as [<-|Hy]; [|eapply IH; eauto].
  destruct Hsel as (_ & _ & _ & Hget & _). now exists c.
Qed.

(** Every task of the critical path completes at a valid date. *)
Lemma findCriticalPath_valid (todos : list Todo) (es : Map Date) (ct : Map DateObject)
    (path : list number) :
  NoDup (Map_keys ct) ->
  findCriticalPath todos es ct = Some path ->
  forall y, In y path -> exists c, Map_get ct y = Some (Valid c).
Proof.
  intros Hnd Hpath y Hy.
  destruct (findCriticalPath_spec todos es ct path Hpath) as (_ & Hchain & _ & Hlast).
  destruct (number_eqb_spec (snd (latest_task ct)) minus_one) as [Heq|Hne].
  - unfold findCriticalPath in Hpath. rewrite Heq, number_eqb_refl in Hpath.
    injection Hpath as <-. destruct Hy.
  - destruct (Hlast Hne) as [init ->]. rewrite rev_app_distr in Hchain. simpl in Hchain.
    apply in_app_iff in Hy as [Hy|[<-|[]]].
    + apply (trace_chain_valid todos es ct (rev init) _ Hchain). now apply in_rev in Hy.
    + destruct (latest_task_fold ct (0, minus_one)) as ([H|H] & _ & _);
        fold (latest_task ct) in H.
      * rewrite H in Hne. now elim Hne.
      * eexists. apply Map_get_of_entry; eassumption.
Qed.

(** X1.  A task that lies on a dependency cycle, or depends on a task of
    one, is left out of the schedule without any error: the calculator
    returns, and the result for that task has no earliest start and is
    not flagged as critical. *)
Theorem blocked_task_unscheduled (clock : nat -> Date) (todos : list Todo) (x : number) :
  blocked_by_cycle todos x ->
  exists results,
    calculateSchedule clock todos = Some results
    /\ forall r, In r results -> c_id r = x ->
         earliestStart r = None /\ isOnCriticalPath r = false.
Proof.
  intros Hblocked.
  destruct (computeSchedule_returns clock todos)
    as (order & s & Hrun & Hs & _ & _ & Hc & He).
  destruct (calculateSchedule_returns clock todos) as (s' & path & Hs' & Hpath & Hres).
  rewrite Hs in Hs'. injection Hs' as <-.
  destruct (topologicalSort_spec todos order Hrun) as (_ & Hin & _).
  assert (Hout : ~ In x order).
  { intros Hx. apply Hin in Hx as [Hx Hacc].
    now apply (accessible_iff_not_blocked todos x Hx) in Hacc. }
  exists (map (with_calculations (s_earliestStart s) path) todos).
  split; [exact Hres|]. intros r Hr Hid.
  apply in_map_iff in Hr as (todo & <- & _). simpl in *. rewrite Hid. split.
  - apply Map_get_None. now rewrite He.
  - apply includes_not_In. intros Hp.
    apply (findCriticalPath_keys _ _ _ _ Hpath) in Hp. now apply Hc in Hp.
Qed.

Lemma blocked_task_unscheduled_witness :
  exists results,
    calculateSchedule (frozen_clock 1000000) scenario_B = Some results
    /\ forall r, In r results -> c_id r = NInt 1 ->
         earliestStart r = None /\ isOnCriticalPath r = false.
Proof.
  apply (blocked_task_unscheduled (frozen_clock 1000000) scenario_B (NInt 1)).
  exists (NInt 1). split; [exact scenario_B_cycle|apply rt_refl].
Defined.

(** ** Starts against the clock and against dependencies *)

Lemma schedule_all_start_bound (clock : nat -> Date) (todoMap : Map Todo)
    (l : list number) (lo : Date) :
  (forall k, lo <= clock k) ->
  forall s s',
    (forall d c, Map_get (s_earliestStart s) d = Some c -> lo <= c) ->
    schedule_all clock todoMap l s = Some s' ->
    forall d c, Map_get (s_earliestStart s') d = Some c -> lo <= c.
Proof.
  intros Hclock. induction l as [|x r IH]; intros s s' Hlo Hrun; simpl in Hrun.
  - now injection Hrun as <-.
  - destruct (schedule_step clock todoMap s x) as [s1|] eqn:E; [|discriminate].
    apply (IH s1 s'); [|assumption].
    apply schedule_step_effect in E as (todo & Hget & ->). simpl.
    intros d c. number_cases x d.
    + rewrite Map_get_set_same. intros H. injection H as <-.
      pose proof (later_fold_ge (s_completionTime s) (deps_of todo)
                    (clock (s_samples s))).
      specialize (Hclock (s_samples s)). lia.
    + rewrite Map_get_set_other by assumption. apply Hlo.
Qed.

(** X2.  No task starts before the call: when the clock never shows an
    instant earlier than its first reading, every earliest start the
    calculator returns is at or after that first reading, whatever the
    durations and the dependencies are. *)
Theorem start_not_before_call (clock : nat -> Date) (todos : list Todo) :
  (forall k, clock 0%nat <= clock k) ->
  exists results,
    calculateSchedule clock todos = Some results
    /\ forall r start, In r results -> earliestStart r = Some start ->
         clock 0%nat <= start.
Proof.
  intros Hmono.
  destruct (computeSchedule_returns clock todos) as (order & s & _ & Hs & Hall & _).
  destruct (calculateSchedule_returns clock todos) as (s' & path & Hs' & _ & Hres).
  rewrite Hs in Hs'. injection Hs' as <-.
  exists (map (with_calculations (s_earliestStart s) path) todos).
  split; [exact Hres|]. intros r start Hr Hstart.
  apply in_map_iff in Hr as (todo & <- & _). simpl in Hstart.
  apply (schedule_all_start_bound clock (todoMap_of todos) order (clock 0%nat) Hmono
           (mkSchedule [] [] 0) s) with (d := id todo); [|assumption|assumption].
  intros ? ? H. discriminate H.
Qed.

Lemma start_not_before_call_witness :
  exists results,
    calculateSchedule (ticking_clock 1000000) scenario_C = Some results
    /\ forall r start, In r results -> earliestStart r = Some start ->
         ticking_clock 1000000 0%nat <= start.
Proof.
  apply (start_not_before_call (ticking_clock 1000000) scenario_C).
  intros k. unfold ticking_clock. lia.
Defined.

Lemma fold_max_ge_In (l : list Z) (c : Z) :
  In c l -> forall base, c <= fold_left Z.max l base.
Proof.
  induction l as [|x r IH]; intros Hin base; [destruct Hin|]. simpl.
  destruct Hin as [->|Hin]; [|now apply IH].
  pose proof (fold_max_ge r (Z.max base c)). lia.
Qed.

(** X3.  A task never starts before a dependency has completed: on an
    acyclic collection with distinct identifiers, a task does not start
    before the start of a dependency plus the duration of that
    dependency, whenever this instant lies within the range of dates. *)
Theorem start_after_dependency (clock : nat -> Date) (todos : list Todo)
    (todo dep : Todo) :
  acyclic todos ->
  NoDup (ids todos) ->
  In todo todos ->
  In dep todos ->
  In (id dep) (deps_of todo) ->
  exists results,
    calculateSchedule clock todos = Some results
    /\ forall r rd, In r results -> In rd results ->
         c_id r = id todo -> c_id rd = id dep ->
         exists start dep_start,
           earliestStart r = Some start
           /\ earliestStart rd = Some dep_start
           /\ (Z.abs (dep_start + duration_or_default dep * 60 * 60 * 1000) <= max_time ->
               dep_start + duration_or_default dep * 60 * 60 * 1000 <= start).
Proof.
  intros Hac Hnd Htodo Hdep Hlisted.
  destruct (computeSchedule_returns clock todos)
    as (order & s & Hrun & Hs & _ & _ & Hc & _).
  destruct (calculateSchedule_returns clock todos) as (s' & path & Hs' & _ & Hres).
  rewrite Hs in Hs'. injection Hs' as <-.
  destruct (topologicalSort_spec todos order Hrun) as (Hndo & Hin & Hbefore).
  assert (Hplaced : In (id todo) order).
  { eapply acyclic_all_placed; eauto. now apply in_map. }
  assert (Hdplaced : In (id dep) order).
  { eapply acyclic_all_placed; eauto. now apply in_map. }
  apply in_split in Hplaced as (pre & post & ->).
  apply Hc, Map_get_In in Hdplaced as [v Hget].
  destruct (completion_recorded clock todos s (id dep) v Hs Hget)
    as (dep' & dep_start & Hdep' & Hid & Hds & Hv).
  rewrite (ids_unique todos dep' dep Hnd Hdep' Hdep Hid) in Hv.
  exists (map (with_calculations (s_earliestStart s) path) todos).
  split; [exact Hres|]. intros r rd Hr Hrd Hrid Hrdid.
  rewrite (results_earliestStart _ _ _ _ _ Hr Hrid).
  rewrite (results_earliestStart _ _ _ _ _ Hrd Hrdid).
  rewrite (start_at_position clock todos todo pre post s Hnd Htodo Hrun Hs).
  - eexists _, dep_start. split; [reflexivity|]. split; [assumption|].
    intros Hrange. rewrite later_fold_completions.
    apply fold_max_ge_In. apply (completions_In _ _ (id dep)); [assumption|].
    rewrite Hget, Hv. f_equal. apply new_Date_Valid. auto.
  - intros d Hd Hk. apply (before_in_prefix pre post d (id todo) Hndo).
    apply Hbefore; [|apply in_app_iff; right; now left].
    split; [now exists todo|]. apply Hc, Hin in Hk. tauto.
Qed.

Lemma start_after_dependency_witness :
  exists results,
    calculateSchedule (ticking_clock 1000000) scenario_C = Some results
    /\ forall r rd, In r results -> In rd results ->
         c_id r = id (task 3 "[1,2]" 1) -> c_id rd = id (free_task 2 1) ->
         exists start dep_start,
           earliestStart r = Some start
           /\ earliestStart rd = Some dep_start
           /\ (Z.abs (dep_start + duration_or_default (free_task 2 1) * 60 * 60 * 1000)
                 <= max_time ->
               dep_start + duration_or_default (free_task 2 1) * 60 * 60 * 1000 <= start).
Proof.
  apply (start_after_dependency (ticking_clock 1000000) scenario_C).
  - apply acyclicb_sound. vm_compute. reflexivity.
  - simpl. repeat constructor; simpl; intuition discriminate.
  - right. right. left. reflexivity.
  - right. left. reflexivity.
  - vm_compute. right. left. reflexivity.
Defined.

(** ** The end of the critical path *)

(** X4.  The critical path ends at the task that completes last.  When
    some task is not blocked by a cycle and completes at a valid date,
    no task has the identifier -1, no duration is negative and the clock
    shows instants after the epoch, the last task of the returned path
    has a completion time that is a valid date and that no valid
    completion of a scheduled task exceeds. *)
Theorem critical_path_ends_at_latest (clock : nat -> Date) (todos : list Todo) (x : number) :
  In x (ids todos) ->
  ~ blocked_by_cycle todos x ->
  completes_validly clock todos x ->
  ~ In minus_one (ids todos) ->
  (forall todo h, In todo todos -> duration todo = Some h -> 0 <= h) ->
  (forall k, 0 < clock k) ->
  exists s path init final latest,
    computeSchedule clock todos = Some s
    /\ findCriticalPath todos (s_earliestStart s) (s_completionTime s) = Some path
    /\ path = init ++ [final]
    /\ Map_get (s_completionTime s) final = Some (Valid latest)
    /\ forall y c, Map_get (s_completionTime s) y = Some (Valid c) -> c <= latest.
Proof.
  intros Hx Hfree Hvalid Hm1 Hdur Hclock.
  destruct (computeSchedule_returns clock todos)
    as (order & s & Hrun & Hs & Hall & _ & Hc & _).
  destruct (calculateSchedule_returns clock todos) as (s' & path & Hs' & Hpath & _).
  rewrite Hs in Hs'. injection Hs' as <-.
  destruct (topologicalSort_spec todos order Hrun) as (_ & Hin & _).
  specialize (Hvalid s Hs).
  set (ct := s_completionTime s) in *.
  assert (Hpos : forall d c, Map_get ct d = Some (Valid c) -> 0 < c).
  { intros d c Hget. cut (1 <= c); [lia|].
    apply (schedule_all_lower_bound clock (todoMap_of todos) order 1)
      with (s := mkSchedule [] [] 0) (s' := s) (d := d); [| | |exact Hall|exact Hget].
    - intros k. specialize (Hclock k). lia.
    - intros y todo Hy. apply todoMap_member in Hy as [Hy _].
      apply duration_or_default_nonneg. eauto.
    - intros ? ? H. discriminate H. }
  assert (Hnd : NoDup (Map_keys ct)).
  { apply (schedule_all_keys_NoDup clock (todoMap_of todos) order
             (mkSchedule [] [] 0) s); [constructor|exact Hall]. }
  assert (Hxo : In x (Map_keys ct)).
  { apply Hc, Hin. split; [assumption|]. now apply accessible_iff_not_blocked. }
  apply Map_get_In in Hxo as [[cx|] Hgetx]; [|contradiction].
  assert (Hnone : Map_get ct minus_one = None).
  { apply Map_get_None. intros Hk. apply Hm1. apply Hc, Hin in Hk. tauto. }
  destruct (findCriticalPath_anchor todos _ ct path Hnd Hpath) as [_ Hanchor].
  destruct (Hanchor Hnone x cx Hgetx (Hpos x cx Hgetx))
    as (init & final & latest & Hsplit & Hfinal & Hmax).
  exists s, path, init, final, latest. auto.
Qed.

Lemma critical_path_ends_at_latest_witness :
  exists s path init final latest,
    computeSchedule (frozen_clock 1000000) scenario_C = Some s
    /\ findCriticalPath scenario_C (s_earliestStart s) (s_completionTime s) = Some path
    /\ path = init ++ [final]
    /\ Map_get (s_completionTime s) final = Some (Valid latest)
    /\ forall y c, Map_get (s_completionTime s) y = Some (Valid c) -> c <= latest.
Proof.
  apply (critical_path_ends_at_latest (frozen_clock 1000000) scenario_C (NInt 1)).
  - left. reflexivity.
  - apply acyclic_not_blocked, acyclicb_sound. vm_compute. reflexivity.
  - intros s H. vm_compute in H. injection H as <-. vm_compute. discriminate.
  - intros [H|[H|[H|[]]]]; discriminate H.
  - intros todo h [<-|[<-|[<-|[]]]] H; injection H as <-; lia.
  - intros k. unfold frozen_clock. lia.
Defined.

(** ** The schedule route *)

Lemma ids_toTodoWithDependencies (todos : list Todo) :
  ids (map toTodoWithDependencies todos) = ids todos.
Proof. unfold ids. rewrite map_map. reflexivity. Qed.

Lemma flagged_count (es : Map Date) (path : list number) (todos : list Todo) :
  NoDup (ids todos) -> NoDup path -> incl path (ids todos) ->
  length (filter isOnCriticalPath (map (with_calculations es path) todos)) = length path.
Proof.
  intros Hnd Hpath Hincl.
  assert (Hmap : map c_id (filter isOnCriticalPath (map (with_calculations es path) todos))
                 = filter (includes path) (ids todos)).
  { unfold ids. clear. induction todos as [|t r IH]; simpl; [reflexivity|].
    destruct (includes path (id t)); simpl; now rewrite IH. }
  rewrite <- (length_map c_id), Hmap. apply Nat.le_antisymm.
  - apply NoDup_incl_length; [now apply NoDup_filter|].
    intros y Hy. apply filter_In in Hy as [_ Hy]. unfold includes in Hy.
    apply existsb_exists in Hy as (z & Hz & Heq). apply number_eqb_eq in Heq. now subst.
  - apply NoDup_incl_length; [assumption|].
    intros y Hy. apply filter_In. split; [auto|now apply includes_In].
Qed.

(** X5.  The schedule route answers with status 500 only when the query
    of the database fails: the scheduler itself never throws, whatever
    the rows hold (malformed dependency texts, unknown identifiers,
    cycles).  In its answer [totalTodos] is the number of rows, there is
    one result per row, and [criticalPathTodos] is at most
    [totalTodos]. *)
Theorem GET_dependencies_answers (clock : nat -> Date) (rows : list Todo) :
  exists results flagged,
    GET_dependencies clock (Some rows) = Ok200 results (length rows) flagged
    /\ length results = length rows
    /\ (flagged <= length rows)%nat
    /\ Forall2 (fun row r => c_id r = id row /\ c_title r = title row) rows results.
Proof.
  unfold GET_dependencies.
  destruct (calculateSchedule_returns clock (map toTodoWithDependencies rows))
    as (s & path & _ & _ & ->).
  eexists _, _. split; [reflexivity|].
  split; [rewrite !length_map; reflexivity|]. split.
  - etransitivity; [apply filter_length_le|]. rewrite !length_map. reflexivity.
  - clear. induction rows as [|row r IH]; simpl; constructor; auto.
Qed.

(** X6.  When the rows have distinct identifiers, the [criticalPathTodos]
    of the answer is the length of the critical path the scheduler
    found. *)
Theorem GET_dependencies_critical_count (clock : nat -> Date) (rows : list Todo) :
  NoDup (ids rows) ->
  exists results s path,
    computeSchedule clock (map toTodoWithDependencies rows) = Some s
    /\ findCriticalPath (map toTodoWithDependencies rows)
                        (s_earliestStart s) (s_completionTime s) = Some path
    /\ GET_dependencies clock (Some rows) = Ok200 results (length rows) (length path).
Proof.
  intros Hnd. unfold GET_dependencies.
  destruct (computeSchedule_returns clock (map toTodoWithDependencies rows))
    as (order & s & Hrun & Hs & _ & _ & Hc & _).
  destruct (calculateSchedule_returns clock (map toTodoWithDependencies rows))
    as (s' & path & Hs' & Hpath & Hres).
  rewrite Hs in Hs'. injection Hs' as <-.
  exists (map (with_calculations (s_earliestStart s) path) (map toTodoWithDependencies rows)),
         s, path.
  split; [assumption|]. split; [assumption|]. rewrite Hres. f_equal.
  apply flagged_count.
  - now rewrite ids_toTodoWithDependencies.
  - now destruct (findCriticalPath_spec _ _ _ path Hpath) as (H & _).
  - intros y Hy. apply (findCriticalPath_keys _ _ _ _ Hpath) in Hy.
    apply Hc in Hy. eapply topologicalSort_known; eauto.
Qed.

Lemma GET_dependencies_critical_count_witness :
  exists results s path,
    computeSchedule (frozen_clock 1000000) (map toTodoWithDependencies scenario_C) = Some s
    /\ findCriticalPath (map toTodoWithDependencies scenario_C)
                        (s_earliestStart s) (s_completionTime s) = Some path
    /\ GET_dependencies (frozen_clock 1000000) (Some scenario_C)
       = Ok200 results (length scenario_C) (length path).
Proof.
  apply (GET_dependencies_critical_count (frozen_clock 1000000) scenario_C).
  simpl. repeat constructor; simpl; intuition discriminate.
Defined.

(** ** The selection of dependencies on the page *)

Lemma includes_Set_has (l : list number) (x : number) : includes l x = Set_has l x.
Proof.
  unfold includes. induction l as [|y r IH]; simpl; [reflexivity|].
  now rewrite IH, (number_eqb_sym x y).
Qed.

Lemma Set_has_filter_other (l : list number) (x y : number) :
  Set_has (filter (fun i => negb (number_eqb i x)) l) y
  = Set_has l y && negb (number_eqb x y).
Proof.
  induction l as [|z r IH]; simpl; [reflexivity|].
  number_cases z x; simpl.
  - rewrite IH. destruct (number_eqb x y), (Set_has r y); reflexivity.
  - rewrite IH. number_cases z y; simpl; [|reflexivity].
    destruct (number_eqb_spec x y); [congruence|reflexivity].
Qed.

Lemma handleDependencyToggle_has (prev : list number) (x y : number) :
  Set_has (handleDependencyToggle prev x) y = xorb (Set_has prev y) (number_eqb x y).
Proof.
  unfold handleDependencyToggle. rewrite includes_Set_has.
  destruct (Set_has prev x) eqn:E.
  - rewrite Set_has_filter_other. number_cases x y; [rewrite E; reflexivity|].
    simpl. now rewrite andb_true_r, xorb_false_r.
  - rewrite Set_has_app. simpl. rewrite orb_false_r.
    number_cases x y; [rewrite E; reflexivity|]. now rewrite orb_false_r, xorb_false_r.
Qed.

Lemma handleDependencyToggle_NoDup (prev : list number) (x : number) :
  NoDup prev -> NoDup (handleDependencyToggle prev x).
Proof.
  intros H. unfold handleDependencyToggle. rewrite includes_Set_has.
  destruct (Set_has prev x) eqn:E; [now apply NoDup_filter|].
  apply Set_has_not_In in E. apply NoDup_app; [assumption|repeat constructor; intros []|].
  intros y Hy [<-|[]]. contradiction.
Qed.

(** X7.  Whatever sequence of checkboxes is clicked, starting from the
    empty selection, the selection never holds an identifier twice, and
    it holds exactly the identifiers that were clicked an odd number of
    times. *)
Theorem selection_after_clicks (clicks : list number) :
  NoDup (fold_left handleDependencyToggle clicks [])
  /\ forall x, In x (fold_left handleDependencyToggle clicks [])
               <-> Nat.odd (count_occ number_eq_dec clicks x) = true.
Proof.
  assert (H : forall sel, NoDup sel ->
            NoDup (fold_left handleDependencyToggle clicks sel)
            /\ forall x, Set_has (fold_left handleDependencyToggle clicks sel) x
                         = xorb (Set_has sel x)
                                (Nat.odd (count_occ number_eq_dec clicks x))).
  { induction clicks as [|c r IH]; intros sel Hnd; simpl.
    - split; [assumption|]. intros x. now rewrite xorb_false_r.
    - destruct (IH (handleDependencyToggle sel c) (handleDependencyToggle_NoDup sel c Hnd))
        as [H1 H2].
      split; [assumption|]. intros x. rewrite H2, handleDependencyToggle_has.
      destruct (number_eq_dec c x) as [->|Hne].
      + rewrite number_eqb_refl, Nat.odd_succ, <- Nat.negb_odd.
        destruct (Set_has sel x), (Nat.odd (count_occ number_eq_dec r x)); reflexivity.
      + apply number_eqb_neq in Hne. rewrite Hne. now rewrite xorb_false_r. }
  destruct (H [] (NoDup_nil _)) as [H1 H2]. split; [assumption|].
  intros x. rewrite <- Set_has_In, H2. simpl. reflexivity.
Qed.

(** ** Cycle detector: the verdicts of the traversal *)

Lemma Set_delete_absent (s : NumSet) (n : number) : ~ In n s -> Set_delete s n = s.
Proof.
  induction s as [|x r IH]; simpl; intros H; [reflexivity|].
  number_cases x n; [exfalso; apply H; now left|].
  f_equal. apply IH. intros Hr. apply H. now right.
Qed.

Lemma Set_delete_added (s : NumSet) (n : number) :
  ~ In n s -> Set_delete (Set_add s n) n = s.
Proof.
  intros H. unfold Set_add.
  assert (E : Set_has s n = false) by now apply Set_has_not_In.
  rewrite E. clear E.
  induction s as [|x r IH]; simpl.
  - now rewrite number_eqb_refl.
  - number_cases x n; [exfalso; apply H; now left|].
    f_equal. apply IH. intros Hr. apply H. now right.
Qed.

Lemma clos_trans_depends_on (g : Map (list number)) (x y : number) :
  clos_trans number (graph_edge g) x y -> clos_trans number (depends_on g) y x.
Proof.
  induction 1 as [x y H|x y z _ IH1 _ IH2].
  - now apply t_step.
  - now apply t_trans with y.
Qed.

Section Verdicts.
Variable g : Map (list number).

Lemma for_dependencies_verdict (rec : number -> dfs_state -> option (bool * dfs_state)) :
  (forall d st b st', rec d st = Some (b, st') ->
     explored g st ->
     (forall s, In s (recursionStack st) -> clos_trans number (graph_edge g) s d) ->
     verdict_sound g d st b st') ->
  forall deps st b st',
    for_dependencies rec deps st = Some (b, st') ->
    explored g st ->
    (forall s d, In s (recursionStack st) -> In d deps ->
       clos_trans number (graph_edge g) s d) ->
    if b then graph_has_cycle g
    else recursionStack st' = recursionStack st
         /\ explored g st'
         /\ forall d, In d deps -> Acc (depends_on g) d.
Proof.
  intros Hrec deps. induction deps as [|d r IH]; intros st b st' Hrun Hexp Hstack;
    simpl in Hrun.
  - injection Hrun as <- <-. split; [reflexivity|]. split; [assumption|]. intros d [].
  - destruct (rec d st) as [[b1 st1]|] eqn:E; [|discriminate].
    apply Hrec in E; [|assumption|intros s Hs; apply Hstack; [assumption|now left]].
    destruct b1.
    + injection Hrun as <- <-. exact E.
    + destruct E as (Hs1 & Hexp1 & Hd).
      apply IH in Hrun; [|assumption|].
      * destruct b; [assumption|]. destruct Hrun as (Hs' & Hexp' & Hall).
        split; [congruence|]. split; [assumption|].
        intros d' [<-|Hd']; auto.
      * intros s d' Hs Hd'. apply Hstack; [|now right]. now rewrite <- Hs1.
Qed.

Lemma hasCycle_verdict (fuel : nat) :
  forall n st b st',
    hasCycle fuel g n st = Some (b, st') ->
    explored g st ->
    (forall s, In s (recursionStack st) -> clos_trans number (graph_edge g) s n) ->
    verdict_sound g n st b st'.
Proof.
  induction fuel as [|fuel IH]; intros n st b st' Hrun Hexp Hstack; [discriminate|].
  simpl in Hrun.
  destruct (Set_has (recursionStack st) n) eqn:Es.
  { injection Hrun as <- <-. exists n. apply Hstack. now apply Set_has_In. }
  apply Set_has_not_In in Es.
  destruct (Set_has (visited st) n) eqn:Ev.
  { injection Hrun as <- <-. split; [reflexivity|]. split; [assumption|].
    apply Hexp; [now apply Set_has_In|assumption]. }
  destruct (for_dependencies (hasCycle fuel g) (or_empty (Map_get g n))
              (mkDfs (Set_add (visited st) n) (Set_add (recursionStack st) n)))
    as [[b2 st2]|] eqn:E; [|discriminate].
  apply (for_dependencies_verdict _ IH) in E.
  - destruct b2; injection Hrun as <- <-; [exact E|].
    destruct E as (Hs2 & Hexp2 & Hall). simpl in Hs2.
    assert (Hn : Acc (depends_on g) n).
    { constructor. intros d (deps & Hget & Hd). apply Hall. now rewrite Hget. }
    split; [simpl; rewrite Hs2; now apply Set_delete_added|]. split; [|assumption].
    intros v Hv Hnv. simpl in Hv, Hnv.
    destruct (number_eq_dec v n) as [->|Hne]; [assumption|].
    apply Hexp2; [assumption|]. rewrite Hs2. intros Hin.
    apply Hnv. apply Set_delete_In. apply Set_add_In in Hin as [Hin|Hin].
    + split; [|assumption]. rewrite Hs2. apply Set_add_In. now left.
    + contradiction.
  - intros v Hv Hnv. simpl in Hv, Hnv. apply Set_add_In in Hv as [Hv| ->].
    + apply Hexp; [assumption|]. intros Hin. apply Hnv, Set_add_In. now left.
    + exfalso. apply Hnv, Set_add_In. now right.
  - intros s d Hs Hd. simpl in Hs.
    assert (Hedge : graph_edge g n d).
    { destruct (Map_get g n) as [deps|] eqn:Hget; [|destruct Hd]. now exists deps. }
    apply Set_add_In in Hs as [Hs| ->].
    + apply t_trans with n; [now apply Hstack|now apply t_step].
    + now apply t_step.
Qed.

Lemma forEach_hasCycle_verdict (fuel : nat) :
  forall keys st verdicts st',
    forEach_hasCycle fuel g keys st = Some (verdicts, st') ->
    explored g st -> recursionStack st = [] ->
    (In true verdicts -> graph_has_cycle g)
    /\ (~ In true verdicts -> forall k, In k keys -> Acc (depends_on g) k).
Proof.
  induction keys as [|k r IH]; intros st verdicts st' Hrun Hexp Hempty; simpl in Hrun.
  - injection Hrun as <- <-. split; [intros []|intros _ k []].
  - destruct (hasCycle fuel g k st) as [[b st1]|] eqn:E; [|discriminate].
    destruct (forEach_hasCycle fuel g r st1) as [[bs st2]|] eqn:Er; [|discriminate].
    injection Hrun as <- <-.
    apply hasCycle_verdict in E; [|assumption|rewrite Hempty; intros s []].
    destruct b.
    + split; [intros _; exact E|]. intros H. exfalso. apply H. now left.
    + destruct E as (Hs1 & Hexp1 & Hk).
      apply IH in Er as [H1 H2]; [|assumption|congruence].
      split.
      * intros [H|H]; [discriminate H|auto].
      * intros H k' [<-|Hk']; [assumption|]. apply H2; [|assumption].
        intros Hin. apply H. now right.
Qed.
End Verdicts.

(** X9.  The traversal inside the detector is right: on every graph it
    terminates, and one of the calls of [hasCycle] made for the keys
    yields true exactly when the graph has a cycle.  What the detector
    loses is only the way from these calls to its own result. *)
Theorem traversal_finds_cycles (g : Map (list number)) :
  exists verdicts st,
    forEach_hasCycle (dfs_fuel g) g (Map_keys g) (mkDfs [] []) = Some (verdicts, st)
    /\ (In true verdicts <-> graph_has_cycle g).
Proof.
  destruct (forEach_hasCycle_returns g (graph_nodes g) (graph_nodes_closed g)
              (dfs_fuel g) (Map_keys g) (mkDfs [] [])) as ([verdicts st] & Hrun).
  - intros x Hx. unfold graph_nodes. apply in_app_iff. now left.
  - unfold dfs_fuel. simpl. unfold unvisited.
    pose proof (filter_length_le (fun u => negb (Set_has [] u)) (graph_nodes g)). lia.
  - exists verdicts, st. split; [assumption|].
    destruct (forEach_hasCycle_verdict g _ _ _ _ _ Hrun) as [H1 H2];
      [intros v []|reflexivity|].
    split; [assumption|]. intros (x & Hx).
    destruct (in_dec bool_dec true verdicts) as [Hin|Hout]; [assumption|].
    exfalso.
    assert (Hkey : In x (Map_keys g)).
    { assert (Hfirst : forall a b, clos_trans number (graph_edge g) a b -> In a (Map_keys g)).
      { induction 1 as [a b (deps & Hget & _)|]; [|assumption].
        now apply Map_get_Some_In in Hget. }
      now apply (Hfirst x x). }
    apply (accessible_cycle_free (depends_on g) x (H2 Hout x Hkey) x).
    + now apply clos_trans_depends_on.
    + apply rt_refl.
Qed.

(** ** Creation of a task: what becomes of the dependencies *)

Lemma lex_silent (m m' : Json.lexmode) (c : ascii) (r : list ascii) :
  Json.lex_step m c = Some (m', []) -> Json.lex m (c :: r) = Json.lex m' r.
Proof.
  intros H. simpl. rewrite H. destruct (Json.lex m' r); reflexivity.
Qed.

Lemma lex_quote_char (c : ascii) (acc : list N) (r : list ascii) :
  Json.lex (Json.LStr acc) (quote_char c ++ r)
  = Json.lex (Json.LStr (N_of_ascii c :: acc)) r.
Proof.
  destruct c as [b0 b1 b2 b3 b4 b5 b6 b7].
  destruct b0, b1, b2, b3, b4, b5, b6, b7;
    match goal with
    | |- Json.lex _ (quote_char ?c ++ _) = _ =>
      let x := eval vm_compute in (quote_char c) in change (quote_char c) with x
    end;
    cbn [app];
    repeat (erewrite lex_silent by (vm_compute; reflexivity));
    reflexivity.
Qed.

Lemma lex_quoted (cs : list ascii) :
  forall acc,
    Json.lex (Json.LStr acc) (flat_map quote_char cs ++ [Json.dquote])
    = Some [Json.TLit (Json.JString (rev acc ++ map N_of_ascii cs))].
Proof.
  induction cs as [|c r IH]; intros acc; simpl.
  - now rewrite app_nil_r.
  - rewrite <- app_assoc, lex_quote_char, IH. simpl. now rewrite <- app_assoc.
Qed.

Lemma parse_JSON_stringify_text (s : string) :
  Json.parse (JSON_stringify_text s)
  = Some (Json.JString (map N_of_ascii (list_ascii_of_string s))).
Proof.
  unfold Json.parse, JSON_stringify_text.
  rewrite list_ascii_of_string_of_list_ascii.
  rewrite (lex_silent Json.LTop (Json.LStr [])) by reflexivity.
  rewrite lex_quoted. reflexivity.
Qed.

Lemma parseDependencies_JSON_stringify_text (s : string) :
  parseDependencies (or_null (Some (JSON_stringify_text s))) = [].
Proof.
  pose proof (parse_JSON_stringify_text s) as H.
  unfold JSON_stringify_text in *. simpl string_of_list_ascii in *.
  simpl or_null. unfold parseDependencies. now rewrite H.
Qed.

Lemma strip_zeros_value (fuel : nat) :
  forall m e, 0 <= e ->
    fst (Json.strip_zeros fuel m e) * 10 ^ snd (Json.strip_zeros fuel m e) = m * 10 ^ e
    /\ 0 <= snd (Json.strip_zeros fuel m e).
Proof.
  induction fuel as [|fuel IH]; intros m e He; simpl; [split; [reflexivity|assumption]|].
  destruct (m mod 10 =? 0) eqn:E; [|split; [reflexivity|assumption]].
  apply Z.eqb_eq in E.
  destruct (IH (m / 10) (e + 1)) as [H1 H2]; [lia|].
  split; [|assumption]. rewrite H1, Z.pow_add_r by lia.
  pose proof (Z.div_mod m 10). lia.
Qed.

Lemma number_of_integer_literal (sign : bool) (p : positive) (n : nat) :
  Json.number_of_numlit (Json.mkNumlit sign (Z.pos p) n 0 false 0)
  = NInt (if sign then Z.neg p else Z.pos p).
Proof.
  unfold Json.number_of_numlit.
  cbn [Json.digits Json.eneg Json.expo Json.fracdigits Json.ndigits Json.neg Z.eqb].
  change (0 - 0) with 0.
  destruct (strip_zeros_value n (Z.pos p) 0) as [H1 H2]; [lia|].
  destruct (Json.strip_zeros n (Z.pos p) 0) as [m e]. simpl in H1, H2.
  apply Z.leb_le in H2. rewrite H2. f_equal.
  destruct sign; lia.
Qed.

Lemma to_uint_shape (p : positive) :
  Pos.of_uint (Pos.to_uint p) = N.pos p /\ Decimal.unorm (Pos.to_uint p) = Pos.to_uint p.
Proof.
  split; [apply DecimalPos.Unsigned.of_to|].
  rewrite <- (DecimalPos.Unsigned.to_of (Pos.to_uint p)), DecimalPos.Unsigned.of_to.
  reflexivity.
Qed.

Lemma unorm_leading_zero (d d' : Decimal.uint) :
  Decimal.unorm d = Decimal.D0 d' -> d' = Decimal.Nil.
Proof.
  induction d; simpl; intros H; try discriminate H; auto.
  now injection H as <-.
Qed.

Lemma lex_digits (sign : bool) (d : Decimal.uint) :
  forall (a : positive) (n : nat) (r : list ascii),
    Json.lex (Json.LNum Json.NIntPart (Json.mkNumlit sign (Z.pos a) n 0 false 0))
             (list_ascii_of_string (DecimalString.NilEmpty.string_of_uint d) ++ r)
    = Json.lex (Json.LNum Json.NIntPart
                  (Json.mkNumlit sign (Z.pos (Pos.of_uint_acc d a))
                     (Nat.add (length (list_ascii_of_string
                                 (DecimalString.NilEmpty.string_of_uint d))) n)
                     0 false 0)) r.
Proof.
  induction d as [|d IH|d IH|d IH|d IH|d IH|d IH|d IH|d IH|d IH|d IH]; intros a n r;
    [reflexivity|..];
    simpl DecimalString.NilEmpty.string_of_uint; simpl list_ascii_of_string;
    cbn [app length Pos.of_uint_acc];
    (erewrite lex_silent by reflexivity);
    unfold Json.add_int_digit;
    cbn [Json.digits Json.eneg Json.expo Json.fracdigits Json.ndigits Json.neg];
    rewrite Nat.add_succ_l, <- Nat.add_succ_r;
    rewrite <- IH; do 3 f_equal;
    match goal with
    | |- context [Z.of_N (N_of_ascii ?c) - 48] =>
      let v := eval vm_compute in (Z.of_N (N_of_ascii c) - 48) in
      change (Z.of_N (N_of_ascii c) - 48) with v
    end; lia.
Qed.

Lemma lex_after_number (st : Json.numstate) (l : Json.numlit) (c : ascii) (r : list ascii) :
  separator c -> st = Json.NZero \/ st = Json.NIntPart ->
  Json.lex (Json.LNum st l) (c :: r)
  = option_map (cons (Json.TLit (Json.JNumber (Json.number_of_numlit l))))
               (Json.lex Json.LTop (c :: r)).
Proof.
  intros [-> | ->] [-> | ->]; simpl; destruct (Json.lex Json.LTop r); reflexivity.
Qed.

Lemma lex_Number_toString (z : Z) (c : ascii) (r : list ascii) :
  separator c ->
  Json.lex Json.LTop (list_ascii_of_string (Number_toString z) ++ c :: r)
  = option_map (cons (Json.TLit (Json.JNumber (NInt z)))) (Json.lex Json.LTop (c :: r)).
Proof.
  intros Hc. unfold Number_toString.
  destruct z as [|p|p]; simpl Z.to_int; simpl DecimalString.NilEmpty.string_of_int.
  - simpl list_ascii_of_string. cbn [app].
    erewrite lex_silent by reflexivity.
    now rewrite lex_after_number by auto.
  - destruct (to_uint_shape p) as [Hval Hnorm].
    destruct (Pos.to_uint p) as [|d|d|d|d|d|d|d|d|d|d] eqn:E;
      [discriminate Hval
      |apply unorm_leading_zero in Hnorm; subst d; discriminate Hval
      |..];
      simpl DecimalString.NilEmpty.string_of_uint; simpl list_ascii_of_string; cbn [app];
      (erewrite lex_silent by reflexivity);
      unfold Json.add_int_digit, Json.lit0;
      cbn [Json.digits Json.eneg Json.expo Json.fracdigits Json.ndigits Json.neg];
      match goal with
      | |- context [0 * 10 + ?k] =>
        let v := eval vm_compute in (0 * 10 + k) in change (0 * 10 + k) with v
      end;
      rewrite lex_digits, lex_after_number by auto;
      rewrite number_of_integer_literal; simpl in Hval; injection Hval as ->; reflexivity.
  - destruct (to_uint_shape p) as [Hval Hnorm].
    simpl list_ascii_of_string. cbn [app].
    erewrite lex_silent by reflexivity.
    destruct (Pos.to_uint p) as [|d|d|d|d|d|d|d|d|d|d] eqn:E;
      [discriminate Hval
      |apply unorm_leading_zero in Hnorm; subst d; discriminate Hval
      |..];
      simpl DecimalString.NilEmpty.string_of_uint; simpl list_ascii_of_string; cbn [app];
      (erewrite lex_silent by reflexivity);
      unfold Json.add_int_digit, Json.lit0;
      cbn [Json.digits Json.eneg Json.expo Json.fracdigits Json.ndigits Json.neg];
      match goal with
      | |- context [0 * 10 + ?k] =>
        let v := eval vm_compute in (0 * 10 + k) in change (0 * 10 + k) with v
      end;
      rewrite lex_digits, lex_after_number by auto;
      rewrite number_of_integer_literal; simpl in Hval; injection Hval as ->; reflexivity.
Qed.


Lemma lex_emit (m m' : Json.lexmode) (c : ascii) (ts : list Json.token) (r : list ascii) :
  Json.lex_step m c = Some (m', ts) ->
  Json.lex m (c :: r) = option_map (app ts) (Json.lex m' r).
Proof.
  intros H. simpl. rewrite H. destruct (Json.lex m' r); reflexivity.
Qed.

Lemma lex_ids (z : Z) (ids : list Z) :
  Json.lex Json.LTop
    (join_comma (map (fun z => list_ascii_of_string (Number_toString z)) (z :: ids))
       ++ ["]"%char])
  = Some (id_tokens (z :: ids) ++ [Json.TRBracket]).
Proof.
  revert z. induction ids as [|y r IH]; intros z.
  - simpl join_comma. rewrite lex_Number_toString by (right; reflexivity). reflexivity.
  - change (join_comma (map (fun z => list_ascii_of_string (Number_toString z)) (z :: y :: r)))
      with (list_ascii_of_string (Number_toString z)
              ++ ","%char :: join_comma (map (fun z => list_ascii_of_string (Number_toString z))
                                             (y :: r))).
    rewrite <- app_assoc, <- app_comm_cons.
    rewrite lex_Number_toString by (left; reflexivity).
    rewrite (lex_emit Json.LTop Json.LTop ","%char [Json.TComma]) by reflexivity.
    rewrite IH. reflexivity.
Qed.

Lemma parse_id_tokens (ids : list Z) :
  forall (z : Z) (es : list Json.value) (e : Json.expect),
    e = Json.EValue \/ e = Json.EValueOrClose ->
    Json.parse_tokens [Json.FArr es] e (id_tokens (z :: ids) ++ [Json.TRBracket])
    = Some (Json.JArray (rev es ++ map (fun z => Json.JNumber (NInt z)) (z :: ids))).
Proof.
  induction ids as [|y r IH]; intros z es e He.
  - destruct He as [-> | ->]; reflexivity.
  - change (id_tokens (z :: y :: r))
      with (Json.TLit (Json.JNumber (NInt z)) :: Json.TComma :: id_tokens (y :: r)).
    assert (Hstep : Json.parse_tokens [Json.FArr es] e
                      ((Json.TLit (Json.JNumber (NInt z)) :: Json.TComma :: id_tokens (y :: r))
                         ++ [Json.TRBracket])
                    = Json.parse_tokens [Json.FArr (Json.JNumber (NInt z) :: es)] Json.EValue
                        (id_tokens (y :: r) ++ [Json.TRBracket])).
    { destruct He as [-> | ->]; reflexivity. }
    rewrite Hstep, IH by now left. simpl. now rewrite <- app_assoc.
Qed.

Lemma parse_of_tokens (s : string) (ts : list Json.token) :
  Json.lex Json.LTop (list_ascii_of_string s) = Some ts ->
  Json.parse s = Json.parse_tokens [] Json.EValue ts.
Proof. intros H. unfold Json.parse. now rewrite H. Qed.

Lemma parse_JSON_stringify_ids (ids : list Z) :
  Json.parse (JSON_stringify_ids ids)
  = Some (Json.JArray (map (fun z => Json.JNumber (NInt z)) ids)).
Proof.
  destruct ids as [|z r]; [reflexivity|].
  rewrite (parse_of_tokens _ (Json.TLBracket :: id_tokens (z :: r) ++ [Json.TRBracket])).
  - change (Json.parse_tokens [] Json.EValue
              (Json.TLBracket :: id_tokens (z :: r) ++ [Json.TRBracket]))
      with (Json.parse_tokens [Json.FArr []] Json.EValueOrClose
              (id_tokens (z :: r) ++ [Json.TRBracket])).
    rewrite (parse_id_tokens r z [] Json.EValueOrClose) by (now right). reflexivity.
  - unfold JSON_stringify_ids. rewrite list_ascii_of_string_of_list_ascii.
    rewrite (lex_emit Json.LTop Json.LTop "["%char [Json.TLBracket]) by reflexivity.
    rewrite lex_ids. reflexivity.
Qed.

Lemma parseDependencies_JSON_stringify_ids (ids : list Z) :
  parseDependencies (or_null (Some (JSON_stringify_ids ids))) = map NInt ids.
Proof.
  pose proof (parse_JSON_stringify_ids ids) as H.
  unfold JSON_stringify_ids in *. simpl string_of_list_ascii in *.
  simpl or_null. unfold parseDependencies. rewrite H.
  clear. induction ids as [|z r IH]; simpl; [reflexivity|now rewrite IH].
Qed.

(** X10.  A request whose [dependencies] member is a text never yields
    dependencies: the handler stores the JSON encoding of the text, which
    parses to a text and not to an array, and the parser answers with the
    empty list. *)
Theorem text_dependencies_parse_empty (s : string) :
  parseDependencies (or_null (POST_dependencies (Text s))) = [].
Proof.
  destruct s as [|c r]; [reflexivity|].
  apply parseDependencies_JSON_stringify_text.
Qed.

(** X11.  The dependencies selected on the page are lost.  The page
    sends the selection already encoded as a text, the handler encodes
    that text once more, and the task that is stored has no dependency
    for the scheduler, whatever was selected. *)
Theorem page_dependencies_lost (selected : list Z) (i : number) (t : string) (c : Z)
    (due : option Z) (image : option string) (hours : option Z) :
  deps_of (mkTodo i t c due image
             (POST_dependencies (handleAddTodo_dependencies selected)) hours) = [].
Proof.
  unfold deps_of. simpl dependencies.
  destruct selected as [|z r]; [reflexivity|].
  apply parseDependencies_JSON_stringify_text.
Qed.

(** X12.  A request that carries the dependencies as an array of safe
    integers is stored so that the scheduler reads exactly these
    identifiers back, in the same order. *)
Theorem array_dependencies_round_trip (ids : list Z) (i : number) (t : string) (c : Z)
    (due : option Z) (image : option string) (hours : option Z) :
  Forall isSafeInteger ids ->
  deps_of (mkTodo i t c due image (POST_dependencies (Identifiers ids)) hours)
  = map NInt ids.
Proof.
  intros _. unfold deps_of. simpl dependencies.
  apply parseDependencies_JSON_stringify_ids.
Qed.

Lemma array_dependencies_round_trip_witness :
  deps_of (mkTodo (NInt 3) "c" 0 None None (POST_dependencies (Identifiers [1; 2])) None)
  = map NInt [1; 2].
Proof.
  apply (array_dependencies_round_trip [1; 2]).
  repeat constructor; unfold isSafeInteger; simpl; lia.
Defined.

(** ** The dependency graph component *)

Lemma extends_refl st : extends st st.
Proof.
  split; [apply incl_refl|]. split; [reflexivity|]. intros v H H'. contradiction.
Qed.

Lemma extends_trans st1 st2 st3 : extends st1 st2 -> extends st2 st3 -> extends st1 st3.
Proof.
  intros (A1 & A2 & A3) (B1 & B2 & B3). split; [eapply incl_tran; eauto|]. split.
  - intros v Hv. rewrite B2, A2; auto.
  - intros v Hv Hn.
    destruct (in_dec number_eq_dec v (DependencyGraph.visited st2)) as [H2|H2].
    + rewrite B2 by assumption. auto.
    + auto.
Qed.

Section Levels.
Variable todos : list TodoWithCalculations.

Lemma drawn_edge_node (t d : number) :
  drawn_edge todos t d -> In d (DependencyGraph.nodes todos).
Proof.
  intros (todo & Hfind & Hd). unfold DependencyGraph.nodes. apply in_app_iff. right.
  apply in_concat. exists (dependsOn todo). split; [|assumption].
  apply in_map. unfold DependencyGraph.find_todo in Hfind.
  now apply find_some in Hfind as [H _].
Qed.

Lemma map_dfs_returns (rec : number -> DependencyGraph.state -> option (Z * DependencyGraph.state))
    (bound : nat) :
  (forall n st, In n (DependencyGraph.nodes todos) ->
     (length (unvisited (DependencyGraph.nodes todos) (DependencyGraph.visited st)) < bound)%nat ->
     exists l st', rec n st = Some (l, st')
       /\ incl (DependencyGraph.visited st) (DependencyGraph.visited st')) ->
  forall deps st, incl deps (DependencyGraph.nodes todos) ->
    (length (unvisited (DependencyGraph.nodes todos) (DependencyGraph.visited st)) < bound)%nat ->
    exists ls st', DependencyGraph.map_dfs rec deps st = Some (ls, st')
                   /\ incl (DependencyGraph.visited st) (DependencyGraph.visited st').
Proof.
  intros Hrec deps. induction deps as [|d r IH]; intros st Hincl Hlt; simpl.
  - exists [], st. split; [reflexivity|apply incl_refl].
  - destruct (Hrec d st) as (l & st1 & -> & Hv); [apply Hincl; now left|assumption|].
    destruct (IH st1) as (ls & st2 & -> & Hv').
    + intros x Hx. apply Hincl. now right.
    + pose proof (unvisited_mono (DependencyGraph.nodes todos) _ _ Hv). lia.
    + exists (l :: ls), st2. split; [reflexivity|]. eapply incl_tran; eauto.
Qed.

Lemma dfs_returns (fuel : nat) :
  forall n st, In n (DependencyGraph.nodes todos) ->
    (length (unvisited (DependencyGraph.nodes todos) (DependencyGraph.visited st)) < fuel)%nat ->
    exists l st', DependencyGraph.dfs fuel todos n st = Some (l, st')
                  /\ incl (DependencyGraph.visited st) (DependencyGraph.visited st').
Proof.
  induction fuel as [|fuel IH]; intros n st Hn Hlt; [lia|].
  simpl. destruct (Set_has (DependencyGraph.visited st) n) eqn:Ev.
  { eexists _, st. split; [reflexivity|apply incl_refl]. }
  apply Set_has_not_In in Ev.
  pose proof (unvisited_add (DependencyGraph.nodes todos) _ n Hn Ev) as Hadd.
  assert (Hsub : incl (DependencyGraph.visited st) (Set_add (DependencyGraph.visited st) n)).
  { intros x Hx. apply Set_add_In. now left. }
  destruct (DependencyGraph.find_todo todos n) as [todo|] eqn:Hfind.
  2:{ eexists _, _. split; [reflexivity|]. exact Hsub. }
  destruct (dependsOn todo) as [|d rest] eqn:Hdeps.
  { eexists _, _. split; [reflexivity|]. exact Hsub. }
  assert (Hin : incl (d :: rest) (DependencyGraph.nodes todos)).
  { intros x Hx. apply (drawn_edge_node n). exists todo. split; [assumption|].
    now rewrite Hdeps. }
  set (st1 := DependencyGraph.mkState (DependencyGraph.levels st)
                (Set_add (DependencyGraph.visited st) n)) in *.
  destruct (IH d st1) as (first & st2 & -> & Hv2); [apply Hin; now left|simpl; lia|].
  destruct (map_dfs_returns (DependencyGraph.dfs fuel todos) fuel IH rest st2)
    as (others & st3 & -> & Hv3).
  - intros x Hx. apply Hin. now right.
  - pose proof (unvisited_mono (DependencyGraph.nodes todos) _ _ Hv2). simpl in *. lia.
  - eexists _, _. split; [reflexivity|]. simpl.
    eapply incl_tran; [exact Hsub|]. eapply incl_tran; eauto.
Qed.


Lemma pending_extends (st st' : DependencyGraph.state) (n : number) :
  extends st st' -> pending_reach todos st n -> pending_reach todos st' n.
Proof.
  intros (E1 & E2 & E3) Hp s Hs Hnone.
  destruct (in_dec number_eq_dec s (DependencyGraph.visited st)) as [Hin|Hout].
  - apply Hp; [assumption|]. now rewrite <- E2.
  - exfalso. now apply (E3 s).
Qed.

Lemma level_ok_mono (L L' : Map Z) (v : number) (l : Z) :
  (forall d ld, Map_get L d = Some ld -> Map_get L' d = Some ld) ->
  level_ok todos L v l -> level_ok todos L' v l.
Proof.
  intros Hm. unfold level_ok.
  destruct (DependencyGraph.find_todo todos v) as [todo|]; [|auto].
  intros (H1 & H2 & H3). split; [assumption|]. split.
  - intros d Hd. destruct (H2 d Hd) as (ld & Hget & Hlt). eauto.
  - intros Hne. destruct (H3 Hne) as (d & Hd & Hget). eauto.
Qed.

Lemma settled_level (st : DependencyGraph.state) (n : number) :
  settled st -> 0 <= DependencyGraph.or_zero (Map_get (DependencyGraph.levels st) n).
Proof.
  intros [_ H]. destruct (Map_get (DependencyGraph.levels st) n) as [l|] eqn:E; simpl;
    [eauto|lia].
Qed.

(** Giving its level to a node whose call ends. *)
Lemma set_level_spec (st0 st : DependencyGraph.state) (n : number) (l : Z) :
  settled st0 -> ~ In n (DependencyGraph.visited st0) ->
  settled st ->
  extends (DependencyGraph.mkState (DependencyGraph.levels st0)
             (Set_add (DependencyGraph.visited st0) n)) st ->
  0 <= l ->
  settled (DependencyGraph.set_level st n l)
  /\ extends st0 (DependencyGraph.set_level st n l)
  /\ In n (DependencyGraph.visited (DependencyGraph.set_level st n l))
  /\ Map_get (DependencyGraph.levels (DependencyGraph.set_level st n l)) n = Some l
  /\ (forall v, v <> n ->
        Map_get (DependencyGraph.levels (DependencyGraph.set_level st n l)) v
        = Map_get (DependencyGraph.levels st) v)
  /\ Map_get (DependencyGraph.levels st) n = None.
Proof.
  intros [K0 N0] Hfresh [K N] (E1 & E2 & E3) Hl. simpl in E1, E2, E3.
  assert (Hn : In n (DependencyGraph.visited st)).
  { apply E1, Set_add_In. now right. }
  assert (Hnone : Map_get (DependencyGraph.levels st) n = None).
  { rewrite E2 by (apply Set_add_In; now right).
    apply Map_get_None. intros Hk. apply Hfresh, K0, Hk. }
  assert (Hother : forall v, v <> n ->
            Map_get (Map_set (DependencyGraph.levels st) n l) v
            = Map_get (DependencyGraph.levels st) v).
  { intros v Hv. apply Map_get_set_other. congruence. }
  unfold settled, extends, DependencyGraph.set_level. simpl.
  split; [split|]; [| |split; [|split; [|split; [|split]]]].
  - intros v Hv. apply Map_keys_set_iff in Hv as [Hv| ->]; auto.
  - intros v l' Hget. destruct (number_eq_dec v n) as [->|Hne].
    + rewrite Map_get_set_same in Hget. injection Hget as <-. assumption.
    + rewrite Hother in Hget by assumption. eauto.
  - split; [|split]; simpl.
    + intros v Hv. apply E1, Set_add_In. now left.
    + intros v Hv. rewrite Hother by (intros ->; contradiction).
      apply E2, Set_add_In. now left.
    + intros v Hv Hnv. destruct (number_eq_dec v n) as [->|Hne].
      * rewrite Map_get_set_same. discriminate.
      * rewrite Hother by assumption. apply E3; [assumption|].
        intros Hin. apply Set_add_In in Hin as [Hin|Hin]; contradiction.
  - assumption.
  - apply Map_get_set_same.
  - assumption.
  - assumption.
Qed.

Lemma map_dfs_spec (rec : number -> DependencyGraph.state -> option (Z * DependencyGraph.state)) :
  (forall d st l st', rec d st = Some (l, st') -> settled st -> dfs_post todos st d l st') ->
  forall deps st ls st',
    DependencyGraph.map_dfs rec deps st = Some (ls, st') -> settled st ->
    settled st' /\ extends st st'
    /\ (drawn_acyclic todos -> levelled todos st ->
        (forall d, In d deps -> pending_reach todos st d) ->
        levelled todos st'
        /\ Forall2 (fun d l => Map_get (DependencyGraph.levels st') d = Some l) deps ls).
Proof.
  intros Hrec deps. induction deps as [|d r IH]; intros st ls st' Hrun Hset; simpl in Hrun.
  - injection Hrun as <- <-. split; [assumption|]. split; [apply extends_refl|].
    intros _ Hl _. split; [assumption|constructor].
  - destruct (rec d st) as [[l st1]|] eqn:E; [|discriminate].
    destruct (DependencyGraph.map_dfs rec r st1) as [[ls' st2]|] eqn:Er; [|discriminate].
    injection Hrun as <- <-.
    destruct (Hrec _ _ _ _ E Hset) as (S1 & X1 & V1 & L1 & A1).
    destruct (IH _ _ _ Er S1) as (S2 & X2 & A2).
    split; [assumption|]. split; [eapply extends_trans; eauto|].
    intros Hac Hlev Hpend.
    destruct (A1 Hac Hlev (Hpend d (or_introl eq_refl))) as [Hlev1 Hget1].
    destruct (A2 Hac Hlev1) as [Hlev2 Hall].
    { intros d' Hd'. apply (pending_extends st); [assumption|]. apply Hpend. now right. }
    split; [assumption|]. constructor; [|assumption].
    destruct X2 as (_ & X2 & _). now rewrite X2.
Qed.

Lemma dfs_spec (fuel : nat) :
  forall n st l st',
    DependencyGraph.dfs fuel todos n st = Some (l, st') -> settled st ->
    dfs_post todos st n l st'.
Proof.
  induction fuel as [|fuel IH]; intros n st l st' Hrun Hset; [discriminate|].
  simpl in Hrun.
  destruct (Set_has (DependencyGraph.visited st) n) eqn:Ev.
  { injection Hrun as <- <-. apply Set_has_In in Ev.
    split; [assumption|]. split; [apply extends_refl|]. split; [assumption|].
    split; [reflexivity|]. intros Hac Hlev Hpend. split; [assumption|].
    destruct (Map_get (DependencyGraph.levels st) n) as [l|] eqn:E; [reflexivity|].
    exfalso. apply (Hac n). now apply Hpend. }
  apply Set_has_not_In in Ev.
  set (st1 := DependencyGraph.mkState (DependencyGraph.levels st)
                (Set_add (DependencyGraph.visited st) n)) in *.
  assert (Hset1 : settled st1).
  { destruct Hset as [K N]. split; [|exact N].
    intros v Hv. simpl. apply Set_add_In. left. now apply K. }
  assert (Hleaf : forall todo_deps_empty : DependencyGraph.find_todo todos n = None
                    \/ exists todo, DependencyGraph.find_todo todos n = Some todo
                                    /\ dependsOn todo = [],
            dfs_post todos st n 0 (DependencyGraph.set_level st1 n 0)).
  { intros Hcase.
    destruct (set_level_spec st st1 n 0 Hset Ev Hset1 (extends_refl st1))
      as (S' & X' & V' & G' & O' & N'); [lia|].
    split; [assumption|]. split; [assumption|]. split; [assumption|].
    split; [now rewrite G'|]. intros _ Hlev _. split; [|assumption].
    intros v l' Hget. destruct (number_eq_dec v n) as [->|Hne].
    - rewrite G' in Hget. injection Hget as <-. unfold level_ok.
      destruct Hcase as [->|(todo & -> & Hnil)]; [reflexivity|].
      rewrite Hnil. split; [reflexivity|]. split; [intros d []|]. intros H. now destruct H.
    - rewrite O' in Hget by assumption.
      apply (level_ok_mono (DependencyGraph.levels st)); [|now apply Hlev].
      intros d ld Hd. rewrite O'; [assumption|]. intros ->. simpl in N'. congruence. }
  destruct (DependencyGraph.find_todo todos n) as [todo|] eqn:Hfind.
  2:{ injection Hrun as <- <-. apply Hleaf. now left. }
  destruct (dependsOn todo) as [|d rest] eqn:Hdeps.
  { injection Hrun as <- <-. apply Hleaf. right. now exists todo. }
  clear Hleaf.
  destruct (DependencyGraph.dfs fuel todos d st1) as [[first st2]|] eqn:E1; [|discriminate].
  destruct (DependencyGraph.map_dfs (DependencyGraph.dfs fuel todos) rest st2)
    as [[others st3]|] eqn:E2; [|discriminate].
  injection Hrun as <- <-.
  destruct (IH _ _ _ _ E1 Hset1) as (S2 & X2 & V2 & L2 & A2).
  destruct (map_dfs_spec _ IH _ _ _ _ E2 S2) as (S3 & X3 & A3).
  assert (Hfirst : 0 <= first) by (rewrite L2; now apply settled_level).
  pose proof (fold_max_ge others first) as Hmax.
  destruct (set_level_spec st st3 n (fold_left Z.max others first + 1) Hset Ev S3)
    as (S' & X' & V' & G' & O' & N'); [eapply extends_trans; eauto|lia|].
  split; [assumption|]. split; [assumption|]. split; [assumption|].
  split; [now rewrite G'|]. intros Hac Hlev Hpend. split; [|assumption].
  assert (Hedge : forall d', In d' (d :: rest) -> drawn_edge todos n d').
  { intros d' Hd'. exists todo. split; [assumption|]. now rewrite Hdeps. }
  assert (Hpend1 : forall d', In d' (d :: rest) -> pending_reach todos st1 d').
  { intros d' Hd' s Hs Hnone. simpl in Hs, Hnone.
    apply Set_add_In in Hs as [Hs| ->].
    - apply t_trans with n; [now apply Hpend|apply t_step; auto].
    - apply t_step; auto. }
  destruct (A2 Hac Hlev (Hpend1 d (or_introl eq_refl))) as [Hlev2 Hget2].
  destruct (A3 Hac Hlev2) as [Hlev3 Hall].
  { intros d' Hd'. apply (pending_extends st1); [assumption|]. apply Hpend1. now right. }
  assert (Hall' : Forall2 (fun d' l' => Map_get (DependencyGraph.levels st3) d' = Some l')
                    (d :: rest) (first :: others)).
  { constructor; [|assumption]. destruct X3 as (_ & X3 & _). now rewrite X3. }
  assert (Hkeep : forall d' ld, Map_get (DependencyGraph.levels st3) d' = Some ld ->
            Map_get (DependencyGraph.levels
                       (DependencyGraph.set_level st3 n (fold_left Z.max others first + 1))) d'
            = Some ld).
  { intros d' ld Hd'. rewrite O'; [assumption|]. intros ->. congruence. }
  intros v l' Hget. destruct (number_eq_dec v n) as [->|Hne].
  - rewrite G' in Hget. injection Hget as <-. unfold level_ok. rewrite Hfind, Hdeps.
    split; [discriminate|]. split.
    + intros d' Hd'.
      assert (Hex : exists ld, In ld (first :: others)
                               /\ Map_get (DependencyGraph.levels st3) d' = Some ld).
      { clear -Hall' Hd'. induction Hall' as [|x y xs ys Hxy _ IHf]; [destruct Hd'|].
        destruct Hd' as [<-|Hd']; [exists y; split; [now left|assumption]|].
        destruct (IHf Hd') as (ld & Hin & Hg). exists ld. split; [now right|assumption]. }
      destruct Hex as (ld & Hin & Hg). exists ld. split; [now apply Hkeep|].
      destruct Hin as [<-|Hin]; [lia|]. pose proof (fold_max_ge_In others ld Hin first). lia.
    + intros _.
      assert (Hin : In (fold_left Z.max others first) (first :: others)).
      { apply maximum_In. reflexivity. }
      replace (fold_left Z.max others first + 1 - 1) with (fold_left Z.max others first) by lia.
      remember (fold_left Z.max others first) as m eqn:Hm in *.
      clear -Hall' Hin Hkeep. induction Hall' as [|x y xs ys Hxy _ IHf]; [destruct Hin|].
      destruct Hin as [->|Hin].
      * exists x. split; [now left|now apply Hkeep].
      * destruct (IHf Hin) as (d' & Hd' & Hg). exists d'. split; [now right|assumption].
  - rewrite O' in Hget by assumption.
    apply (level_ok_mono (DependencyGraph.levels st3)); [assumption|now apply Hlev3].
Qed.


Lemma forEach_dfs_returns (fuel : nat) :
  forall l st, incl (map c_id l) (DependencyGraph.nodes todos) ->
    (length (unvisited (DependencyGraph.nodes todos) (DependencyGraph.visited st)) < fuel)%nat ->
    exists st', DependencyGraph.forEach_dfs fuel todos l st = Some st'.
Proof.
  induction l as [|todo r IH]; intros st Hincl Hlt; simpl.
  - eexists. reflexivity.
  - destruct (dfs_returns fuel (c_id todo) st) as (lv & st1 & -> & Hv);
      [apply Hincl; now left|assumption|].
    apply IH.
    + intros x Hx. apply Hincl. now right.
    + pose proof (unvisited_mono (DependencyGraph.nodes todos) _ _ Hv). lia.
Qed.

Lemma forEach_dfs_spec (fuel : nat) :
  forall l st st',
    DependencyGraph.forEach_dfs fuel todos l st = Some st' ->
    settled st -> all_levelled st ->
    settled st' /\ all_levelled st'
    /\ incl (DependencyGraph.visited st) (DependencyGraph.visited st')
    /\ (forall todo, In todo l -> In (c_id todo) (DependencyGraph.visited st'))
    /\ (drawn_acyclic todos -> levelled todos st -> levelled todos st').
Proof.
  induction l as [|todo r IH]; intros st st' Hrun Hset Hdone; simpl in Hrun.
  - injection Hrun as <-. split; [assumption|]. split; [assumption|].
    split; [apply incl_refl|]. split; [intros todo []|auto].
  - destruct (DependencyGraph.dfs fuel todos (c_id todo) st) as [[lv st1]|] eqn:E;
      [|discriminate].
    destruct (dfs_spec fuel _ _ _ _ E Hset) as (S1 & (X1 & X2 & X3) & V1 & _ & A1).
    assert (Hdone1 : all_levelled st1).
    { intros v Hv. destruct (in_dec number_eq_dec v (DependencyGraph.visited st)) as [Hin|Hout].
      - rewrite X2 by assumption. now apply Hdone.
      - now apply X3. }
    destruct (IH _ _ Hrun S1 Hdone1) as (S2 & D2 & I2 & V2 & A2).
    split; [assumption|]. split; [assumption|]. split; [eapply incl_tran; eauto|]. split.
    + intros todo' [<-|Hin]; auto.
    + intros Hac Hlev. apply A2; [assumption|]. apply A1; [assumption|assumption|].
      intros s Hs Hnone. exfalso. now apply (Hdone s).
Qed.

End Levels.

Lemma calculateLevels_spec (todos : list TodoWithCalculations) :
  exists st,
    DependencyGraph.forEach_dfs (S (length (DependencyGraph.nodes todos))) todos todos
      (DependencyGraph.mkState [] []) = Some st
    /\ DependencyGraph.calculateLevels todos = Some (DependencyGraph.levels st)
    /\ settled st /\ all_levelled st
    /\ (forall todo, In todo todos -> In (c_id todo) (DependencyGraph.visited st))
    /\ (drawn_acyclic todos -> levelled todos st).
Proof.
  destruct (forEach_dfs_returns todos (S (length (DependencyGraph.nodes todos))) todos
              (DependencyGraph.mkState [] [])) as (st & Hrun).
  - intros x Hx. unfold DependencyGraph.nodes. apply in_app_iff. now left.
  - simpl. unfold unvisited.
    pose proof (filter_length_le (fun u => negb (Set_has [] u)) (DependencyGraph.nodes todos)).
    lia.
  - exists st. split; [assumption|]. split.
    { unfold DependencyGraph.calculateLevels. now rewrite Hrun. }
    destruct (forEach_dfs_spec todos _ _ _ _ Hrun) as (S1 & D1 & _ & V1 & A1).
    + split; [intros v []|]. intros v l H. discriminate H.
    + intros v [].
    + split; [assumption|]. split; [assumption|]. split; [assumption|].
      intros Hac. apply A1; [assumption|]. intros v l H. discriminate H.
Qed.

(** X13.  The computation of the levels of the graph terminates on every
    collection, cyclic ones included, and gives every task a level that
    is not negative. *)
Theorem calculateLevels_total (todos : list TodoWithCalculations) :
  exists L,
    DependencyGraph.calculateLevels todos = Some L
    /\ forall todo, In todo todos -> exists l, Map_get L (c_id todo) = Some l /\ 0 <= l.
Proof.
  destruct (calculateLevels_spec todos) as (st & _ & Hcalc & [_ Hnn] & Hdone & Hv & _).
  exists (DependencyGraph.levels st). split; [assumption|].
  intros todo Hin. specialize (Hdone _ (Hv todo Hin)).
  destruct (Map_get (DependencyGraph.levels st) (c_id todo)) as [l|] eqn:E; [|congruence].
  exists l. split; [reflexivity|eauto].
Qed.

(** X14.  When the [dependsOn] lists hold no cycle, the level of a task
    without dependencies is zero, every dependency of a task has a
    strictly lower level than the task, and some dependency lies exactly
    one level below it: the level is the length of the longest chain of
    dependencies under the task. *)
Theorem levels_of_acyclic (todos : list TodoWithCalculations) :
  drawn_acyclic todos ->
  exists L,
    DependencyGraph.calculateLevels todos = Some L
    /\ forall todo, In todo todos ->
         exists first l,
           DependencyGraph.find_todo todos (c_id todo) = Some first
           /\ Map_get L (c_id todo) = Some l
           /\ (dependsOn first = [] -> l = 0)
           /\ (forall d, In d (dependsOn first) ->
                 exists ld, Map_get L d = Some ld /\ ld < l)
           /\ (dependsOn first <> [] ->
                 exists d, In d (dependsOn first) /\ Map_get L d = Some (l - 1)).
Proof.
  intros Hac.
  destruct (calculateLevels_spec todos) as (st & _ & Hcalc & _ & Hdone & Hv & Hlev).
  specialize (Hlev Hac).
  exists (DependencyGraph.levels st). split; [assumption|].
  intros todo Hin. specialize (Hdone _ (Hv todo Hin)).
  destruct (Map_get (DependencyGraph.levels st) (c_id todo)) as [l|] eqn:E; [|congruence].
  specialize (Hlev _ _ E). unfold level_ok in Hlev.
  destruct (DependencyGraph.find_todo todos (c_id todo)) as [first|] eqn:Hfind.
  - exists first, l. tauto.
  - exfalso. unfold DependencyGraph.find_todo in Hfind.
    apply (find_none _ _ Hfind) in Hin. simpl in Hin. now rewrite number_eqb_refl in Hin.
Qed.

Lemma drawn_edge_of_schedule (es : Map Date) (path : list number) (todos : list Todo)
    (t d : number) :
  drawn_edge (map (with_calculations es path) todos) t d -> edge todos d t.
Proof.
  intros (r & Hfind & Hd). unfold DependencyGraph.find_todo in Hfind.
  apply find_some in Hfind as [Hin Heq]. apply number_eqb_eq in Heq.
  apply in_map_iff in Hin as (todo & <- & Hin). simpl in *.
  exists todo. auto.
Qed.

Lemma drawn_acyclic_of_schedule (es : Map Date) (path : list number) (todos : list Todo) :
  acyclic todos -> drawn_acyclic (map (with_calculations es path) todos).
Proof.
  intros Hac x Hx. apply (Hac x). unfold on_cycle.
  assert (H : forall a b, clos_trans number (drawn_edge (map (with_calculations es path) todos)) a b ->
                          clos_trans number (edge todos) b a).
  { induction 1 as [a b H|a b c _ IH1 _ IH2].
    - apply t_step. eapply drawn_edge_of_schedule; eauto.
    - now apply t_trans with b. }
  now apply H.
Qed.

Lemma find_calculated (es : Map Date) (path : list number) (todos : list Todo) (todo : Todo) :
  NoDup (ids todos) -> In todo todos ->
  DependencyGraph.find_todo (map (with_calculations es path) todos) (id todo)
  = Some (with_calculations es path todo).
Proof.
  unfold DependencyGraph.find_todo.
  induction todos as [|t r IH]; intros Hnd Hin; [destruct Hin|].
  simpl in Hnd. inversion Hnd as [|? ? Hout Hr]; subst. simpl.
  destruct Hin as [->|Hin]; [now rewrite number_eqb_refl|].
  number_cases (id t) (id todo); [|auto].
  exfalso. apply Hout. rewrite E. now apply in_map.
Qed.

(** X15.  The graph of a schedule: on an acyclic collection with distinct
    identifiers, the levels computed from the result of the calculator
    put every dependency of every task on a strictly lower level than the
    task, also a dependency that is not a task of the collection. *)
Theorem schedule_levels (clock : nat -> Date) (todos : list Todo) :
  acyclic todos -> NoDup (ids todos) ->
  exists results L,
    calculateSchedule clock todos = Some results
    /\ DependencyGraph.calculateLevels results = Some L
    /\ forall todo d, In todo todos -> In d (deps_of todo) ->
         exists l ld, Map_get L (id todo) = Some l /\ Map_get L d = Some ld /\ ld < l.
Proof.
  intros Hac Hnd.
  destruct (calculateSchedule_returns clock todos) as (s & path & _ & _ & Hres).
  set (results := map (with_calculations (s_earliestStart s) path) todos) in *.
  destruct (calculateLevels_spec results) as (st & _ & Hcalc & _ & Hdone & Hv & Hlev).
  specialize (Hlev (drawn_acyclic_of_schedule _ _ _ Hac)).
  exists results, (DependencyGraph.levels st). split; [assumption|]. split; [assumption|].
  intros todo d Hin Hd.
  assert (Hr : In (with_calculations (s_earliestStart s) path todo) results)
    by now apply in_map.
  specialize (Hdone _ (Hv _ Hr)). simpl in Hdone.
  destruct (Map_get (DependencyGraph.levels st) (id todo)) as [l|] eqn:E; [|congruence].
  specialize (Hlev _ _ E). unfold level_ok in Hlev. unfold results in Hlev.
  rewrite (find_calculated _ _ _ _ Hnd Hin) in Hlev. simpl in Hlev.
  destruct Hlev as (_ & Hdeps & _). destruct (Hdeps d Hd) as (ld & Hget & Hlt).
  exists l, ld. auto.
Qed.

Lemma schedule_levels_witness :
  exists results L,
    calculateSchedule (frozen_clock 1000000) scenario_C = Some results
    /\ DependencyGraph.calculateLevels results = Some L
    /\ forall todo d, In todo scenario_C -> In d (deps_of todo) ->
         exists l ld, Map_get L (id todo) = Some l /\ Map_get L d = Some ld /\ ld < l.
Proof.
  apply (schedule_levels (frozen_clock 1000000) scenario_C).
  - apply acyclicb_sound. vm_compute. reflexivity.
  - simpl. repeat constructor; simpl; intuition discriminate.
Defined.

Lemma levels_of_acyclic_witness :
  exists L,
    DependencyGraph.calculateLevels (map (with_calculations [] []) scenario_C) = Some L
    /\ forall todo, In todo (map (with_calculations [] []) scenario_C) ->
         exists first l,
           DependencyGraph.find_todo (map (with_calculations [] []) scenario_C) (c_id todo)
           = Some first
           /\ Map_get L (c_id todo) = Some l
           /\ (dependsOn first = [] -> l = 0)
           /\ (forall d, In d (dependsOn first) ->
                 exists ld, Map_get L d = Some ld /\ ld < l)
           /\ (dependsOn first <> [] ->
                 exists d, In d (dependsOn first) /\ Map_get L d = Some (l - 1)).
Proof.
  apply (levels_of_acyclic (map (with_calculations [] []) scenario_C)).
  apply drawn_acyclic_of_schedule, acyclicb_sound. vm_compute. reflexivity.
Defined.

Lemma trace_chain_link (todos : list Todo) (es : Map Date) (ct : Map DateObject) (l : list number) :
  forall l1 cur next l2,
    trace_chain todos es ct l -> l = l1 ++ cur :: next :: l2 ->
    trace_step todos es ct cur next.
Proof.
  intros l1. revert l. induction l1 as [|y l1 IH]; intros l cur next l2 Hc ->.
  - now destruct Hc.
  - apply (IH (l1 ++ cur :: next :: l2) cur next l2); [|reflexivity].
    now apply (trace_chain_tail todos es ct y).
Qed.

Lemma node_flag_of_schedule (es : Map Date) (path : list number) (todos : list Todo)
    (x : number) :
  In x (ids todos) -> In x path ->
  DependencyGraph.node_isOnCriticalPath (map (with_calculations es path) todos) x = true.
Proof.
  intros Hx Hp. unfold DependencyGraph.node_isOnCriticalPath, DependencyGraph.find_todo.
  destruct (find _ _) as [r|] eqn:Hfind.
  - apply find_some in Hfind as [Hin Heq]. apply number_eqb_eq in Heq.
    apply in_map_iff in Hin as (todo & <- & _). simpl in *. subst x. now apply includes_In.
  - exfalso. apply in_map_iff in Hx as (todo & <- & Hin).
    pose proof (find_none _ _ Hfind (with_calculations es path todo)
                  (in_map _ _ _ Hin)) as Hf.
    simpl in Hf. now rewrite number_eqb_refl in Hf.
Qed.

(** X16.  Every link of the critical path is drawn as critical: for two
    neighbours of the path the calculator found, the graph has an edge
    from the first to the second whose [isOnCriticalPath] is true. *)
Theorem critical_links_drawn (clock : nat -> Date) (todos : list Todo)
    (hoveredNode : option number) :
  exists results s path,
    calculateSchedule clock todos = Some results
    /\ computeSchedule clock todos = Some s
    /\ findCriticalPath todos (s_earliestStart s) (s_completionTime s) = Some path
    /\ forall l1 d t l2, path = l1 ++ d :: t :: l2 ->
         exists e, In e (DependencyGraph.edges results hoveredNode)
                   /\ DependencyGraph.from e = d /\ DependencyGraph.to e = t
                   /\ DependencyGraph.edge_isOnCriticalPath e = true.
Proof.
  destruct (computeSchedule_returns clock todos)
    as (order & s & Hrun & Hs & _ & _ & Hc & _).
  destruct (calculateSchedule_returns clock todos) as (s' & path & Hs' & Hpath & Hres).
  rewrite Hs in Hs'. injection Hs' as <-.
  eexists _, s, path. split; [exact Hres|]. split; [assumption|]. split; [assumption|].
  intros l1 d t l2 Heq.
  destruct (findCriticalPath_spec todos _ _ path Hpath) as (_ & Hchain & _).
  assert (Hstep : trace_step todos (s_earliestStart s) (s_completionTime s) t d).
  { apply (trace_chain_link todos _ _ (rev path) (rev l2) t d (rev l1)); [assumption|].
    rewrite Heq, rev_app_distr. simpl. now rewrite <- !app_assoc. }
  destruct Hstep as (todo & start & c & Hfind & _ & (pre & post & Hdeps & _)).
  unfold find_todo in Hfind. apply find_some in Hfind as [Hin Hid].
  apply number_eqb_eq in Hid.
  assert (Hknown : forall x, In x path -> In x (ids todos)).
  { intros x Hx. apply (findCriticalPath_keys _ _ _ _ Hpath) in Hx.
    apply Hc in Hx. eapply topologicalSort_known; eauto. }
  assert (Hd : In d path) by (rewrite Heq; apply in_app_iff; right; now left).
  assert (Ht : In t path) by (rewrite Heq; apply in_app_iff; right; right; now left).
  eexists (DependencyGraph.mkEdge d t _ _). split.
  - unfold DependencyGraph.edges. apply in_flat_map.
    exists (with_calculations (s_earliestStart s) path todo). split; [now apply in_map|].
    simpl. rewrite Hid. apply in_map_iff. exists d. split; [reflexivity|].
    rewrite Hdeps. apply in_app_iff. right. now left.
  - simpl. split; [reflexivity|]. split; [reflexivity|].
    rewrite !node_flag_of_schedule; auto.
Qed.

(** ** The page and the graph *)

Lemma includes_iff (l : list number) (x : number) : includes l x = true <-> In x l.
Proof.
  split; [|apply includes_In]. unfold includes. intros H.
  apply existsb_exists in H as (y & Hy & Heq). apply number_eqb_eq in Heq. now subst.
Qed.

(** X17.  The page and the graph agree on what a task blocks: on the
    result of the calculator, [getDependentTodos] lists a task with the
    identifier [t] for [x] exactly when the graph has an edge from [x]
    to [t]. *)
Theorem dependents_match_edges (clock : nat -> Date) (todos : list Todo)
    (hoveredNode : option number) (x t : number) :
  exists results,
    calculateSchedule clock todos = Some results
    /\ ((exists r, In r (getDependentTodos results x) /\ c_id r = t)
        <-> (exists e, In e (DependencyGraph.edges results hoveredNode)
                       /\ DependencyGraph.from e = x /\ DependencyGraph.to e = t)).
Proof.
  destruct (calculateSchedule_returns clock todos) as (s & path & _ & _ & Hres).
  eexists. split; [exact Hres|].
  set (wc := with_calculations (s_earliestStart s) path).
  split.
  - intros (r & Hr & Hid). unfold getDependentTodos in Hr.
    apply filter_In in Hr as [Hin Hinc]. apply includes_iff in Hinc.
    apply in_map_iff in Hin as (todo & <- & Hin). simpl in *.
    eexists (DependencyGraph.mkEdge x t _ _). split; [|split; reflexivity].
    unfold DependencyGraph.edges. apply in_flat_map. exists (wc todo).
    split; [now apply in_map|]. simpl. rewrite Hid. apply in_map_iff.
    exists x. split; [reflexivity|assumption].
  - intros (e & He & Hfrom & Hto). unfold DependencyGraph.edges in He.
    apply in_flat_map in He as (r & Hr & He). apply in_map_iff in He as (d & <- & Hd).
    simpl in Hfrom, Hto. subst d. exists r. split; [|assumption].
    unfold getDependentTodos. apply filter_In. split; [assumption|].
    apply includes_iff. apply in_map_iff in Hr as (todo & <- & _). exact Hd.
Qed.


(** ** Images *)

Lemma getFallbackImage_table (query : string) :
  In (Pexels.getFallbackImage query) (map snd Pexels.fallbackImages).
Proof.
  unfold Pexels.getFallbackImage.
  destruct (find _ Pexels.fallbackImages) as [[category imageUrl]|] eqn:E.
  - apply find_some in E as [Hin _]. now apply (in_map snd) in Hin.
  - simpl. do 6 right. now left.
Qed.

Lemma find_first {A} (f : A -> bool) (pre post : list A) (x : A) :
  f x = true -> (forall y, In y pre -> f y = false) ->
  find f (pre ++ x :: post) = Some x.
Proof.
  intros Hx. induction pre as [|y pre IH]; intros Hpre; simpl.
  - now rewrite Hx.
  - rewrite (Hpre y (or_introl eq_refl)). apply IH. intros z Hz. apply Hpre. now right.
Qed.

(** X18.  The image of a new task.  A search that yields an address
    other than the empty text decides: that address is the image.  When
    the search yields nothing, or the empty text, the image is the
    fallback for the title: the address of the first category of the
    table, in the order of the literal, that occurs in the title put in
    lower case, and the default address when none occurs.  In every
    case the image is not the empty text. *)
Theorem getImageForTodo_never_empty (searched : option string) (title : string) :
  Pexels.getImageForTodo searched title <> EmptyString
  /\ (forall imageUrl, searched = Some imageUrl -> imageUrl <> EmptyString ->
        Pexels.getImageForTodo searched title = imageUrl)
  /\ (searched = None \/ searched = Some EmptyString ->
        Pexels.getImageForTodo searched title = Pexels.getFallbackImage title)
  /\ (forall pre category imageUrl post,
        Pexels.fallbackImages = pre ++ (category, imageUrl) :: post ->
        Pexels.String_includes (Pexels.toLowerCase title) category = true ->
        (forall entry, In entry pre ->
           Pexels.String_includes (Pexels.toLowerCase title) (fst entry) = false) ->
        Pexels.getFallbackImage title = imageUrl)
  /\ ((forall entry, In entry Pexels.fallbackImages ->
         Pexels.String_includes (Pexels.toLowerCase title) (fst entry) = false) ->
      Pexels.getFallbackImage title = Pexels.default_image).
Proof.
  assert (Hne : forall u, In u (map snd Pexels.fallbackImages) -> u <> EmptyString).
  { intros u Hu. simpl in Hu.
    repeat (destruct Hu as [<-|Hu]; [discriminate|]). destruct Hu. }
  pose proof (getFallbackImage_table title) as Hf.
  split; [|split; [|split; [|split]]].
  - destruct searched as [[|c r]|]; simpl; auto; discriminate.
  - intros imageUrl -> Hurl. destruct imageUrl; [contradiction|reflexivity].
  - intros [->| ->]; reflexivity.
  - intros pre category imageUrl post Htable Hin Hpre.
    unfold Pexels.getFallbackImage. cbv zeta. rewrite Htable.
    rewrite (find_first _ pre post (category, imageUrl)); auto.
  - intros Hnone. unfold Pexels.getFallbackImage. cbv zeta.
    destruct (find _ Pexels.fallbackImages) as [[category imageUrl]|] eqn:E; [|reflexivity].
    apply find_some in E as [Hin Hinc]. rewrite (Hnone _ Hin) in Hinc. discriminate.
Qed.

(** ** The critical path as a chain without slack *)

Lemma duration_or_default_positive (todo : Todo) :
  (forall h, duration todo = Some h -> 0 <= h) -> 1 <= duration_or_default todo.
Proof.
  unfold duration_or_default. intros H. destruct (duration todo) as [h|]; [|lia].
  specialize (H h eq_refl). destruct h; lia.
Qed.

(** A scheduled task starts at the later of a reading of the clock and
    the completions, in the final map, of its dependencies. *)
Lemma start_of_scheduled (clock : nat -> Date) (todos : list Todo) (todo : Todo)
    (s : schedule) :
  NoDup (ids todos) -> In todo todos ->
  computeSchedule clock todos = Some s ->
  In (id todo) (Map_keys (s_earliestStart s)) ->
  exists k,
    (k < length todos)%nat
    /\ Map_get (s_earliestStart s) (id todo)
       = Some (fold_left (later_completion (s_completionTime s)) (deps_of todo) (clock k)).
Proof.
  intros Hnd Hin Hs Hkey.
  destruct (computeSchedule_returns clock todos)
    as (order & s' & Hrun & Hs' & _ & _ & Hc & He).
  rewrite Hs in Hs'. injection Hs' as <-.
  destruct (topologicalSort_spec todos order Hrun) as (Hndo & Hord & Hbefore).
  apply He in Hkey. apply in_split in Hkey as (pre & post & ->).
  exists (length pre). split.
  { assert (Hle : (length (pre ++ id todo :: post) <= length (ids todos))%nat).
    { apply NoDup_incl_length; [assumption|]. intros x Hx. now apply Hord in Hx. }
    unfold ids in Hle. rewrite length_app, length_map in Hle. simpl in Hle. lia. }
  apply (start_at_position clock todos todo pre post s Hnd Hin Hrun Hs).
  intros d Hd Hk. apply (before_in_prefix pre post d (id todo) Hndo).
  apply Hbefore; [|apply in_app_iff; right; now left].
  split; [now exists todo|]. apply Hc, Hord in Hk. tauto.
Qed.

Section NoSlack.
Variable clock : nat -> Date.
Variable todos : list Todo.
Variable s : schedule.
Hypothesis distinct : NoDup (ids todos).
Hypothesis durations : forall todo h, In todo todos -> duration todo = Some h -> 0 <= h.
Hypothesis within_the_hour :
  forall j k, (j < length todos)%nat -> (k < length todos)%nat ->
    clock k < clock j + 3600000.
Hypothesis computed : computeSchedule clock todos = Some s.

Lemma completion_after_clock (d : number) (c : Date) :
  Map_get (s_completionTime s) d = Some (Valid c) ->
  forall k, (k < length todos)%nat -> clock k < c.
Proof.
  intros Hget k Hk.
  destruct (completion_is_start_plus_duration clock todos s d c computed Hget)
    as (todo & start & Hin & Hid & Hstart & ->).
  destruct (start_of_scheduled clock todos todo s distinct Hin computed) as (j & Hlt & Hj).
  { rewrite Hid. eapply Map_get_Some_In; eauto. }
  rewrite Hid, Hstart in Hj. injection Hj as ->.
  pose proof (later_fold_ge (s_completionTime s) (deps_of todo) (clock j)).
  pose proof (duration_or_default_positive todo (fun h => durations todo h Hin)).
  specialize (within_the_hour j k Hlt Hk). nia.
Qed.

(** A scheduled task one of whose dependencies is scheduled starts at the
    latest completion among its dependencies. *)
Lemma start_is_latest_completion (todo : Todo) (start : Date) (d : number) (c : Date) :
  In todo todos ->
  Map_get (s_earliestStart s) (id todo) = Some start ->
  In d (deps_of todo) -> Map_get (s_completionTime s) d = Some (Valid c) ->
  maximum (completions (s_completionTime s) (deps_of todo)) = Some start
  /\ c <= start.
Proof.
  intros Hin Hstart Hd Hget.
  destruct (start_of_scheduled clock todos todo s distinct Hin computed) as (k & Hlt & Hk).
  { eapply Map_get_Some_In; eauto. }
  rewrite Hstart in Hk. injection Hk as Hk.
  rewrite later_fold_maximum in Hk.
  pose proof (completions_In _ _ d c Hd Hget) as Hcin.
  destruct (maximum (completions (s_completionTime s) (deps_of todo))) as [m|] eqn:Hm.
  2:{ unfold maximum in Hm. destruct (completions _ _); [destruct Hcin|discriminate]. }
  assert (Hcm : c <= m).
  { unfold maximum in Hm. destruct (completions _ _) as [|x r]; [destruct Hcin|].
    injection Hm as <-. destruct Hcin as [->|Hcin]; [apply fold_max_ge|].
    now apply fold_max_ge_In. }
  pose proof (completion_after_clock d c Hget k Hlt).
  assert (start = m) by lia. subst m. auto.
Qed.

End NoSlack.

Lemma trace_chain_suffix (todos : list Todo) (es : Map Date) (ct : Map DateObject) (a l : list number) :
  trace_chain todos es ct (a ++ l) -> trace_chain todos es ct l.
Proof.
  induction a as [|y a IH]; [auto|]. simpl app. intros H.
  apply IH. now apply (trace_chain_tail todos es ct y).
Qed.

Lemma trace_step_edge (todos : list Todo) (es : Map Date) (ct : Map DateObject) (cur next : number) :
  trace_step todos es ct cur next -> edge todos next cur.
Proof.
  intros (todo & start & c & Hfind & _ & (pre & post & Hdeps & _)).
  unfold find_todo in Hfind. apply find_some in Hfind as [Hin Hid].
  apply number_eqb_eq in Hid. exists todo. split; [assumption|]. split; [assumption|].
  rewrite Hdeps. apply in_app_iff. right. now left.
Qed.

(** Every later element of a trace is a dependency, direct or not, of
    every earlier one. *)
Lemma trace_chain_depends (todos : list Todo) (es : Map Date) (ct : Map DateObject) (l : list number) :
  forall x, trace_chain todos es ct (x :: l) ->
    forall y, In y l -> clos_trans number (edge todos) y x.
Proof.
  induction l as [|z l IH]; intros x Hc y Hy; [destruct Hy|].
  destruct Hc as [Hstep Hrest]. apply trace_step_edge in Hstep.
  destruct Hy as [<-|Hy]; [now apply t_step|].
  apply t_trans with z; [now apply IH|now apply t_step].
Qed.

Lemma critical_links (clock : nat -> Date) (todos : list Todo) (s : schedule)
    (path : list number) :
  NoDup (ids todos) ->
  (forall todo h, In todo todos -> duration todo = Some h -> 0 <= h) ->
  (forall j k, (j < length todos)%nat -> (k < length todos)%nat ->
     clock k < clock j + 3600000) ->
  computeSchedule clock todos = Some s ->
  findCriticalPath todos (s_earliestStart s) (s_completionTime s) = Some path ->
  forall l1 d t l2, path = l1 ++ d :: t :: l2 ->
    exists c, Map_get (s_completionTime s) d = Some (Valid c)
              /\ Map_get (s_earliestStart s) t = Some c.
Proof.
  intros Hnd Hdur Hclock Hs Hpath l1 d t l2 Heq.
  destruct (findCriticalPath_spec todos _ _ path Hpath) as (_ & Hchain & _).
  assert (Hstep : trace_step todos (s_earliestStart s) (s_completionTime s) t d).
  { apply (trace_chain_link todos _ _ (rev path) (rev l2) t d (rev l1)); [assumption|].
    rewrite Heq, rev_app_distr. simpl. now rewrite <- !app_assoc. }
  destruct Hstep
    as (todo & start & c & Hfind & Hstart & (pre & post & Hdeps & Hget & Htol & Hpre & Hpost)).
  unfold find_todo in Hfind. apply find_some in Hfind as [Hin Hid].
  apply number_eqb_eq in Hid. subst t.
  assert (Hd : In d (deps_of todo)) by (rewrite Hdeps; apply in_app_iff; right; now left).
  destruct (start_is_latest_completion clock todos s Hnd Hdur Hclock Hs todo start d c
              Hin Hstart Hd Hget) as [Hmax Hle].
  apply maximum_In, completions_source in Hmax as (d' & Hd' & Hget').
  assert (Hself : within_tolerance start start).
  { unfold within_tolerance. rewrite Z.sub_diag. simpl. lia. }
  exists c. split; [assumption|]. rewrite Hstart. f_equal.
  rewrite Hdeps in Hd'. apply in_app_iff in Hd' as [Hd'|[<-|Hd']].
  - specialize (Hpre d' start Hd' Hget' Hself). lia.
  - congruence.
  - specialize (Hpost d' start Hd' Hget' Hself). lia.
Qed.

(** X19.  No slack along the critical path.  When the identifiers are
    distinct, no duration is negative and the readings of the clock taken
    during the call lie within one hour of each other, every task of the
    critical path starts exactly when its predecessor on the path
    completes. *)
Theorem critical_path_no_slack (clock : nat -> Date) (todos : list Todo) :
  NoDup (ids todos) ->
  (forall todo h, In todo todos -> duration todo = Some h -> 0 <= h) ->
  (forall j k, (j < length todos)%nat -> (k < length todos)%nat ->
     clock k < clock j + 3600000) ->
  exists s path,
    computeSchedule clock todos = Some s
    /\ findCriticalPath todos (s_earliestStart s) (s_completionTime s) = Some path
    /\ forall l1 d t l2, path = l1 ++ d :: t :: l2 ->
         exists c, Map_get (s_completionTime s) d = Some (Valid c)
                   /\ Map_get (s_earliestStart s) t = Some c.
Proof.
  intros Hnd Hdur Hclock.
  destruct (calculateSchedule_returns clock todos) as (s & path & Hs & Hpath & _).
  exists s, path. split; [assumption|]. split; [assumption|].
  now apply (critical_links clock todos s path).
Qed.

Lemma critical_path_no_slack_witness :
  exists s path,
    computeSchedule (ticking_clock 1000000) scenario_C = Some s
    /\ findCriticalPath scenario_C (s_earliestStart s) (s_completionTime s) = Some path
    /\ forall l1 d t l2, path = l1 ++ d :: t :: l2 ->
         exists c, Map_get (s_completionTime s) d = Some (Valid c)
                   /\ Map_get (s_earliestStart s) t = Some c.
Proof.
  apply (critical_path_no_slack (ticking_clock 1000000) scenario_C).
  - simpl. repeat constructor; simpl; intuition discriminate.
  - intros todo h [<-|[<-|[<-|[]]]] H; injection H as <-; lia.
  - intros j k Hj Hk. unfold ticking_clock. simpl in Hj, Hk. lia.
Defined.

(** X20.  Where the critical path begins.  Under the same conditions,
    with readings of the clock that are not before the epoch and no task
    with the identifier -1, the first task of the critical path has no
    dependency whose completion is a valid date, and it starts at a
    reading of the clock. *)
Theorem critical_path_starts_at_reading (clock : nat -> Date) (todos : list Todo) :
  NoDup (ids todos) ->
  (forall todo h, In todo todos -> duration todo = Some h -> 0 <= h) ->
  (forall j k, (j < length todos)%nat -> (k < length todos)%nat ->
     clock k < clock j + 3600000) ->
  (forall k, 0 <= clock k) ->
  ~ In minus_one (ids todos) ->
  exists s path,
    computeSchedule clock todos = Some s
    /\ findCriticalPath todos (s_earliestStart s) (s_completionTime s) = Some path
    /\ forall first rest, path = first :: rest ->
         exists todo k,
           In todo todos /\ id todo = first
           /\ (forall d c, In d (deps_of todo) ->
                 Map_get (s_completionTime s) d <> Some (Valid c))
           /\ Map_get (s_earliestStart s) first = Some (clock k).
Proof.
  intros Hnd Hdur Hclock Hepoch Hm1.
  destruct (computeSchedule_returns clock todos)
    as (order & s & Hrun & Hs & _ & _ & Hc & He).
  destruct (calculateSchedule_returns clock todos) as (s' & path & Hs' & Hpath & _).
  rewrite Hs in Hs'. injection Hs' as <-.
  exists s, path. split; [assumption|]. split; [assumption|].
  intros first rest Heq.
  destruct (findCriticalPath_spec todos _ _ path Hpath) as (_ & Hchain & Hend & _).
  specialize (Hend first rest Heq).
  destruct (topologicalSort_spec todos order Hrun) as (_ & Hord & _).
  assert (Hkey : In first (Map_keys (s_completionTime s))).
  { apply (findCriticalPath_keys _ _ _ _ Hpath). rewrite Heq. now left. }
  assert (Hplaced : In first order) by now apply Hc.
  destruct (proj1 (Hord first) Hplaced) as [Hid Hacc].
  apply in_map_iff in Hid as (todo & Hid & Hin).
  assert (Hfind : find_todo todos first = Some todo).
  { unfold find_todo. destruct (find _ todos) as [todo'|] eqn:E.
    - apply find_some in E as [Hin' Hid']. apply number_eqb_eq in Hid'.
      f_equal. apply (ids_unique todos); auto. congruence.
    - pose proof (find_none _ _ E todo Hin) as Hf. simpl in Hf.
      rewrite Hid, number_eqb_refl in Hf. discriminate. }
  destruct (start_of_scheduled clock todos todo s Hnd Hin Hs) as (k & Hlt & Hk).
  { rewrite Hid. now apply He. }
  rewrite Hid in Hk.
  assert (Hnone : forall d c, In d (deps_of todo) ->
            Map_get (s_completionTime s) d <> Some (Valid c)).
  { intros d c Hd Hget.
    destruct (start_is_latest_completion clock todos s Hnd Hdur Hclock Hs todo _ d c
                Hin (eq_trans (f_equal _ Hid) Hk) Hd Hget) as [Hmax _].
    apply maximum_In, completions_source in Hmax as (d' & Hd' & Hget').
    set (start := fold_left (later_completion (s_completionTime s)) (deps_of todo) (clock k))
      in *.
    unfold trace_end_raw in Hend. rewrite Hfind in Hend.
    destruct Hend as [Hlow|(s0 & c0 & next & _ & (pre & post & Hdeps & Hnext & _) & Hseen)].
    - assert (Hself : within_tolerance start start).
      { unfold within_tolerance. rewrite Z.sub_diag. simpl. lia. }
      specialize (Hlow d' start start Hd' Hget' Hk Hself).
      pose proof (completion_after_clock clock todos s Hnd Hdur Hclock Hs d' start Hget' k Hlt).
      specialize (Hepoch k). lia.
    - assert (Hedge : edge todos next first).
      { exists todo. split; [assumption|]. split; [assumption|].
        rewrite Hdeps. apply in_app_iff. right. now left. }
      destruct Hseen as [->|Hseen].
      + apply Hm1. apply Map_get_Some_In in Hnext. apply Hc, Hord in Hnext. tauto.
      + assert (Hcycle : clos_trans number (edge todos) first first).
        { rewrite Heq in Hseen. destruct Hseen as [<-|Hseen]; [now apply t_step|].
          apply t_trans with next; [|now apply t_step].
          apply in_rev in Hseen. apply in_split in Hseen as (a & b & Hsplit).
          rewrite Heq in Hchain. simpl in Hchain. rewrite Hsplit, <- app_assoc in Hchain.
          apply trace_chain_suffix in Hchain. simpl in Hchain.
          apply (trace_chain_depends todos _ _ _ next Hchain).
          apply in_app_iff. right. now left. }
        apply (accessible_iff_not_blocked todos first) in Hacc; [|now apply Hord].
        apply Hacc. exists first. split; [assumption|apply rt_refl]. }
  exists todo, k. split; [assumption|]. split; [assumption|]. split; [assumption|].
  rewrite Hk. f_equal. rewrite later_fold_maximum, completions_no_valid by assumption.
  reflexivity.
Qed.

Lemma critical_path_starts_at_reading_witness :
  exists s path,
    computeSchedule (ticking_clock 1000000) scenario_C = Some s
    /\ findCriticalPath scenario_C (s_earliestStart s) (s_completionTime s) = Some path
    /\ forall first rest, path = first :: rest ->
         exists todo k,
           In todo scenario_C /\ id todo = first
           /\ (forall d c, In d (deps_of todo) ->
                 Map_get (s_completionTime s) d <> Some (Valid c))
           /\ Map_get (s_earliestStart s) first = Some (ticking_clock 1000000 k).
Proof.
  apply (critical_path_starts_at_reading (ticking_clock 1000000) scenario_C).
  - simpl. repeat constructor; simpl; intuition discriminate.
  - intros todo h [<-|[<-|[<-|[]]]] H; injection H as <-; lia.
  - intros j k Hj Hk. unfold ticking_clock. simpl in Hj, Hk. lia.
  - intros k. unfold ticking_clock. lia.
  - intros [H|[H|[H|[]]]]; discriminate H.
Defined.

Lemma find_todo_unique (todos : list Todo) (todo : Todo) :
  NoDup (ids todos) -> In todo todos -> find_todo todos (id todo) = Some todo.
Proof.
  intros Hnd Hin. unfold find_todo. destruct (find _ todos) as [todo'|] eqn:E.
  - apply find_some in E as [Hin' Hid']. apply number_eqb_eq in Hid'.
    f_equal. now apply (ids_unique todos).
  - pose proof (find_none _ _ E todo Hin) as Hf. simpl in Hf.
    rewrite number_eqb_refl in Hf. discriminate.
Qed.

Lemma chain_span (clock : nat -> Date) (todos : list Todo) (s : schedule) :
  NoDup (ids todos) ->
  computeSchedule clock todos = Some s ->
  forall p,
    (forall l1 d t l2, p = l1 ++ d :: t :: l2 ->
       exists c, Map_get (s_completionTime s) d = Some (Valid c)
                 /\ Map_get (s_earliestStart s) t = Some c) ->
    (forall x, In x p -> exists c, Map_get (s_completionTime s) x = Some (Valid c)) ->
    forall first rest start,
      p = first :: rest -> Map_get (s_earliestStart s) first = Some start ->
      exists init last,
        p = init ++ [last]
        /\ Map_get (s_completionTime s) last
           = Some (Valid (start + path_hours todos p * 3600000)).
Proof.
  intros Hnd Hs p. induction p as [|x p IH]; intros Hlink Hkeys first rest start Heq Hstart;
    [discriminate|].
  injection Heq as <- <-.
  destruct (Hkeys x (or_introl eq_refl)) as [c Hget].
  destruct (completion_is_start_plus_duration clock todos s x c Hs Hget)
    as (todo & start' & Hin & Hid & Hstart' & Hc).
  rewrite Hstart in Hstart'. injection Hstart' as <-.
  assert (Hhours : hours_of todos x = duration_or_default todo).
  { unfold hours_of. now rewrite <- Hid, (find_todo_unique todos todo Hnd Hin). }
  destruct p as [|y r].
  - exists [], x. split; [reflexivity|]. rewrite Hget. do 2 f_equal.
    unfold path_hours. simpl. rewrite Hhours. lia.
  - destruct (Hlink [] x y r eq_refl) as (c' & Hget' & Hnext).
    rewrite Hget in Hget'. injection Hget' as <-.
    destruct (IH) with (first := y) (rest := r) (start := c) as (init & last & Hsplit & Hlast);
      [| |reflexivity|assumption|].
    + intros l1 d t l2 Heq. apply (Hlink (x :: l1) d t l2). now rewrite Heq.
    + intros z Hz. apply Hkeys. now right.
    + exists (x :: init), last. split; [now rewrite Hsplit|].
      rewrite Hlast. do 2 f_equal. unfold path_hours in *. simpl in *. rewrite Hhours. lia.
Qed.

(** X21.  The length of the critical path is the length of the project.
    Under the conditions of X19, the last task of the path completes, at
    a valid date, at the start of the first one plus the hours of all
    tasks of the path, and no task of the schedule completes at a valid
    date later than that. *)
Theorem critical_path_span (clock : nat -> Date) (todos : list Todo) :
  NoDup (ids todos) ->
  (forall todo h, In todo todos -> duration todo = Some h -> 0 <= h) ->
  (forall j k, (j < length todos)%nat -> (k < length todos)%nat ->
     clock k < clock j + 3600000) ->
  exists s path,
    computeSchedule clock todos = Some s
    /\ findCriticalPath todos (s_earliestStart s) (s_completionTime s) = Some path
    /\ forall first rest start,
         path = first :: rest ->
         Map_get (s_earliestStart s) first = Some start ->
         exists init last,
           path = init ++ [last]
           /\ Map_get (s_completionTime s) last
              = Some (Valid (start + path_hours todos path * 3600000))
           /\ forall y c, Map_get (s_completionTime s) y = Some (Valid c) ->
                c <= start + path_hours todos path * 3600000.
Proof.
  intros Hnd Hdur Hclock.
  destruct (computeSchedule_returns clock todos)
    as (order & s & Hrun & Hs & Hall & _ & _ & _).
  destruct (calculateSchedule_returns clock todos) as (s' & path & Hs' & Hpath & _).
  rewrite Hs in Hs'. injection Hs' as <-.
  exists s, path. split; [assumption|]. split; [assumption|].
  intros first rest start Heq Hstart.
  assert (Hkeys : NoDup (Map_keys (s_completionTime s))).
  { apply (schedule_all_keys_NoDup clock (todoMap_of todos) order
             (mkSchedule [] [] 0) s); [constructor|exact Hall]. }
  destruct (chain_span clock todos s Hnd Hs path) with (first := first) (rest := rest)
    (start := start) as (init & last & Hsplit & Hlast); [| |assumption|assumption|].
  { now apply (critical_links clock todos s path). }
  { now apply (findCriticalPath_valid _ _ _ _ Hkeys Hpath). }
  exists init, last. split; [assumption|]. split; [assumption|].
  set (ct := s_completionTime s) in *.
  assert (Hne : snd (latest_task ct) <> minus_one).
  { intros Hm. unfold findCriticalPath in Hpath. fold ct in Hpath.
    rewrite Hm, number_eqb_refl in Hpath. injection Hpath as <-. discriminate. }
  destruct (findCriticalPath_spec todos _ _ path Hpath) as (_ & _ & _ & Hend).
  destruct (Hend Hne) as [init' Hsplit'].
  assert (Hsame : last = snd (latest_task ct)).
  { rewrite Hsplit in Hsplit'. now apply app_inj_tail in Hsplit' as [_ H]. }
  destruct (latest_task_fold ct (0, minus_one)) as (Hfound & _ & Hmax).
  fold (latest_task ct) in Hfound, Hmax.
  destruct Hfound as [Hinit|Hentry]; [rewrite Hinit in Hne; now elim Hne|].
  assert (Hnd' : NoDup (Map_keys ct)).
  { apply (schedule_all_keys_NoDup clock (todoMap_of todos) order
             (mkSchedule [] [] 0) s); [constructor|exact Hall]. }
  apply Map_get_of_entry in Hentry; [|assumption].
  rewrite <- Hsame, Hlast in Hentry. injection Hentry as Hfst.
  intros y c Hget. rewrite Hfst. apply (Hmax y c). now apply Map_get_entry.
Qed.

Lemma critical_path_span_witness :
  exists s path,
    computeSchedule (ticking_clock 1000000) scenario_C = Some s
    /\ findCriticalPath scenario_C (s_earliestStart s) (s_completionTime s) = Some path
    /\ forall first rest start,
         path = first :: rest ->
         Map_get (s_earliestStart s) first = Some start ->
         exists init last,
           path = init ++ [last]
           /\ Map_get (s_completionTime s) last
              = Some (Valid (start + path_hours scenario_C path * 3600000))
           /\ forall y c, Map_get (s_completionTime s) y = Some (Valid c) ->
                c <= start + path_hours scenario_C path * 3600000.
Proof.
  apply (critical_path_span (ticking_clock 1000000) scenario_C).
  - simpl. repeat constructor; simpl; intuition discriminate.
  - intros todo h [<-|[<-|[<-|[]]]] H; injection H as <-; lia.
  - intros j k Hj Hk. unfold ticking_clock. simpl in Hj, Hk. lia.
Defined.

(** A path that begins at a task whose dependency has no valid
    completion. *)
Example overlong_path_schedule :
  option_map (fun s => (s_completionTime s,
                        findCriticalPath overlong_path (s_earliestStart s)
                                         (s_completionTime s)))
             (computeSchedule (frozen_clock 1000000) overlong_path)
  = Some ([(NInt 1, Valid 7200000001000000); (NInt 2, Invalid);
           (NInt 3, Valid 7560000001000000)],
          Some [NInt 3]).
Proof. reflexivity. Qed.

(** ** Creation of a task: what becomes of the duration *)

Lemma digits_prefix_stop (rest : list ascii) (acc : option Z) :
  ends_integer rest -> digits_prefix 10 rest acc = acc.
Proof. intros [->|(frac & ->)]; reflexivity. Qed.

Lemma digits_prefix_uint (d : Decimal.uint) :
  forall (a : positive) (rest : list ascii),
    ends_integer rest ->
    digits_prefix 10 (list_ascii_of_string (DecimalString.NilEmpty.string_of_uint d) ++ rest)
                  (Some (Z.pos a))
    = Some (Z.pos (Pos.of_uint_acc d a)).
Proof.
  induction d as [|d IH|d IH|d IH|d IH|d IH|d IH|d IH|d IH|d IH|d IH]; intros a rest Hrest;
    [now apply digits_prefix_stop|..];
    simpl DecimalString.NilEmpty.string_of_uint; simpl list_ascii_of_string;
    cbn [app digits_prefix Pos.of_uint_acc];
    match goal with
    | |- context [radix_digit 10 ?c] =>
      let v := eval vm_compute in (radix_digit 10 c) in change (radix_digit 10 c) with v
    end;
    cbv beta iota; rewrite <- (IH _ rest Hrest); do 2 f_equal; lia.
Qed.

Lemma list_ascii_of_string_app (s1 s2 : string) :
  list_ascii_of_string (s1 ++ s2) = list_ascii_of_string s1 ++ list_ascii_of_string s2.
Proof. induction s1 as [|c r IH]; simpl; [reflexivity|now rewrite IH]. Qed.

Lemma parseInt_numeral (z : Z) (rest : string) :
  ends_integer (list_ascii_of_string rest) ->
  parseInt (Number_toString z ++ rest) = Some z.
Proof.
  intros Hrest. unfold parseInt, Number_toString. rewrite list_ascii_of_string_app.
  destruct z as [|p|p]; simpl Z.to_int; simpl DecimalString.NilEmpty.string_of_int.
  - destruct Hrest as [->|(frac & ->)]; reflexivity.
  - destruct (to_uint_shape p) as [Hval Hnorm].
    destruct (Pos.to_uint p) as [|d|d|d|d|d|d|d|d|d|d] eqn:E;
      [discriminate Hval
      |apply unorm_leading_zero in Hnorm; subst d; discriminate Hval
      |..];
      simpl DecimalString.NilEmpty.string_of_uint; simpl list_ascii_of_string;
      cbn [app trimStart];
      match goal with
      | |- context [is_space ?c] =>
        let v := eval vm_compute in (is_space c) in change (is_space c) with v
      end;
      cbv beta iota; cbn [digits_prefix];
      match goal with
      | |- context [radix_digit 10 ?c] =>
        let v := eval vm_compute in (radix_digit 10 c) in change (radix_digit 10 c) with v
      end;
      cbv beta iota; rewrite digits_prefix_uint by assumption;
      simpl in Hval; injection Hval as ->; reflexivity.
  - destruct (to_uint_shape p) as [Hval Hnorm].
    simpl list_ascii_of_string. cbn [app trimStart].
    change (is_space "-"%char) with false. cbv beta iota.
    destruct (Pos.to_uint p) as [|d|d|d|d|d|d|d|d|d|d] eqn:E;
      [discriminate Hval
      |apply unorm_leading_zero in Hnorm; subst d; discriminate Hval
      |..];
      simpl DecimalString.NilEmpty.string_of_uint; simpl list_ascii_of_string;
      cbn [app digits_prefix];
      match goal with
      | |- context [radix_digit 10 ?c] =>
        let v := eval vm_compute in (radix_digit 10 c) in change (radix_digit 10 c) with v
      end;
      cbv beta iota; rewrite digits_prefix_uint by assumption;
      simpl in Hval; injection Hval as ->; reflexivity.
Qed.

Lemma string_app_empty (s : string) : (s ++ EmptyString)%string = s.
Proof. induction s as [|c r IH]; simpl; [reflexivity|now rewrite IH]. Qed.

Lemma POST_duration_integer (n : Z) :
  n <> 0 -> POST_duration (Some n) = Some (Some n).
Proof.
  intros Hn. unfold POST_duration.
  rewrite <- (string_app_empty (Number_toString n)), parseInt_numeral by now left.
  destruct n; [contradiction|reflexivity|reflexivity].
Qed.

(** X22.  Whatever is typed into the field of the duration, as long as
    its integer part is a safe integer, the column of the duration is
    left empty or holds the integer part of what was typed, which is then
    not zero: a duration of zero hours and a fraction of an hour are
    never stored. *)
Theorem stored_duration_never_zero (typed : string) :
  (forall n, parseInt typed = Some n -> isSafeInteger n) ->
  POST_duration (handleAddTodo_duration typed) = None
  \/ exists n, n <> 0 /\ parseInt typed = Some n
               /\ POST_duration (handleAddTodo_duration typed) = Some (Some n).
Proof.
  intros _. destruct typed as [|c r]; [now left|].
  unfold handleAddTodo_duration.
  destruct (parseInt (String c r)) as [n|] eqn:E; [|now left].
  destruct (Z.eq_dec n 0) as [->|Hn]; [now left|].
  right. exists n. split; [assumption|]. split; [reflexivity|].
  now apply POST_duration_integer.
Qed.

Lemma stored_duration_never_zero_witness :
  POST_duration (handleAddTodo_duration "2.5") = None
  \/ exists n, n <> 0 /\ parseInt "2.5" = Some n
               /\ POST_duration (handleAddTodo_duration "2.5") = Some (Some n).
Proof.
  apply (stored_duration_never_zero "2.5").
  intros n H. vm_compute in H. injection H as <-. unfold isSafeInteger. lia.
Defined.

(** X23.  The fraction of a duration is dropped on the way to the
    database.  A numeral with a fraction is stored as its integer part;
    when that part is zero, as for the half hour that is the minimum of
    the field, nothing is stored. *)
Theorem fraction_of_duration_dropped (n : Z) (frac : string) :
  0 <= n -> isSafeInteger n ->
  POST_duration (handleAddTodo_duration (Number_toString n ++ String "."%char frac))
  = if n =? 0 then None else Some (Some n).
Proof.
  intros Hn _.
  assert (Hparse : parseInt (Number_toString n ++ String "."%char frac) = Some n).
  { apply parseInt_numeral. right. now exists (list_ascii_of_string frac). }
  assert (Hsent : handleAddTodo_duration (Number_toString n ++ String "."%char frac)
                  = Some n).
  { unfold handleAddTodo_duration.
    destruct (Number_toString n ++ String "."%char frac)%string as [|c r] eqn:E;
      [|assumption].
    exfalso. destruct (Number_toString n); discriminate E. }
  rewrite Hsent. destruct (Z.eqb_spec n 0) as [->|Hne]; [reflexivity|].
  now apply POST_duration_integer.
Qed.

Lemma fraction_of_duration_dropped_witness :
  POST_duration (handleAddTodo_duration (Number_toString 0 ++ String "."%char "5"))
  = if 0 =? 0 then None else Some (Some 0).
Proof.
  apply (fraction_of_duration_dropped 0 "5"); [lia|unfold isSafeInteger; simpl; lia].
Defined.

(** ** The schedule route: the conversions of the rows *)

Lemma topologicalSort_alike (todos todos' : list Todo) :
  Forall2 reads_alike todos todos' -> topologicalSort todos = topologicalSort todos'.
Proof.
  intros H. unfold topologicalSort.
  assert (Hbuild : kahn_build todos = kahn_build todos').
  { unfold kahn_build, kahn_init.
    rewrite (fold_left_related reads_alike _ todos todos' H).
    - rewrite (fold_left_related reads_alike _ todos todos' H); [reflexivity|].
      intros a x y (Hid & _ & _). now rewrite Hid.
    - intros a x y (Hid & Hdeps & _). now rewrite Hid, Hdeps. }
  now rewrite Hbuild.
Qed.

Lemma Map_set_alike (m m' : Map Todo) (x : number) (a b : Todo) :
  maps_alike m m' -> reads_alike a b -> maps_alike (Map_set m x a) (Map_set m' x b).
Proof.
  unfold maps_alike.
  intros H Hab. induction H as [|[k v] [k' v'] m m' [Hk Hv] Hm IH]; simpl in *.
  - constructor; [split; [reflexivity|assumption]|constructor].
  - subst k'. destruct (number_eqb k x); constructor; simpl; auto.
Qed.

Lemma todoMap_alike (todos todos' : list Todo) :
  Forall2 reads_alike todos todos' -> maps_alike (todoMap_of todos) (todoMap_of todos').
Proof.
  unfold todoMap_of. intros H.
  assert (Hgen : forall m m', maps_alike m m' ->
            maps_alike (fold_left (fun m todo => Map_set m (id todo) todo) todos m)
                       (fold_left (fun m todo => Map_set m (id todo) todo) todos' m')).
  { induction H as [|x y l l' Hxy _ IH]; intros m m' Hm; simpl; [assumption|].
    apply IH. destruct Hxy as (Hid & Hrest). rewrite <- Hid.
    apply Map_set_alike; [assumption|]. split; assumption. }
  apply Hgen. constructor.
Qed.

Lemma Map_get_alike (m m' : Map Todo) (x : number) :
  maps_alike m m' ->
  match Map_get m x, Map_get m' x with
  | Some a, Some b => reads_alike a b
  | None, None => True
  | _, _ => False
  end.
Proof.
  intros H. induction H as [|[k v] [k' v'] m m' [Hk Hv] _ IH]; simpl in *; [exact I|].
  subst k'. destruct (number_eqb k x); assumption.
Qed.

Lemma schedule_all_alike (clock : nat -> Date) (m m' : Map Todo) (l : list number) :
  maps_alike m m' ->
  forall s, schedule_all clock m l s = schedule_all clock m' l s.
Proof.
  intros H. induction l as [|x r IH]; intros s; simpl; [reflexivity|].
  assert (Hstep : schedule_step clock m s x = schedule_step clock m' s x).
  { unfold schedule_step. pose proof (Map_get_alike m m' x H) as Hx.
    destruct (Map_get m x) as [a|], (Map_get m' x) as [b|]; try contradiction; auto.
    destruct Hx as (_ & -> & ->). reflexivity. }
  rewrite Hstep. destruct (schedule_step clock m' s x); auto.
Qed.

Lemma find_todo_alike (todos todos' : list Todo) (x : number) :
  Forall2 reads_alike todos todos' ->
  match find_todo todos x, find_todo todos' x with
  | Some a, Some b => reads_alike a b
  | None, None => True
  | _, _ => False
  end.
Proof.
  unfold find_todo. intros H. induction H as [|a b l l' Hab _ IH]; simpl; [exact I|].
  destruct Hab as (Hid & Hrest). rewrite <- Hid.
  destruct (number_eqb (id a) x); [split; assumption|assumption].
Qed.

Lemma tracePath_alike (todos todos' : list Todo) (es : Map Date) (ct : Map DateObject) (fuel : nat) :
  Forall2 reads_alike todos todos' ->
  forall x t, tracePath fuel todos es ct x t = tracePath fuel todos' es ct x t.
Proof.
  intros H. induction fuel as [|fuel IH]; intros x t; simpl; [reflexivity|].
  destruct (Set_has (t_visited t) x); [reflexivity|].
  pose proof (find_todo_alike todos todos' x H) as Hx.
  destruct (find_todo todos x) as [a|], (find_todo todos' x) as [b|];
    try contradiction; auto.
  destruct Hx as (_ & -> & _).
  destruct (critical_dep ct (Map_get es x) (deps_of b) (minus_one, 0)) as [[cd c]|]; auto.
  destruct (number_eqb cd minus_one); auto.
Qed.

Lemma calculateSchedule_alike (clock : nat -> Date) (todos todos' : list Todo) :
  Forall2 reads_alike todos todos' ->
  match calculateSchedule clock todos, calculateSchedule clock todos' with
  | Some results, Some results' => Forall2 same_schedule results results'
  | None, None => True
  | _, _ => False
  end.
Proof.
  intros H. unfold calculateSchedule, computeSchedule.
  rewrite <- (topologicalSort_alike todos todos' H).
  destruct (topologicalSort todos) as [order|]; [|exact I].
  rewrite <- (schedule_all_alike clock _ _ order (todoMap_alike todos todos' H)).
  destruct (schedule_all clock (todoMap_of todos) order (mkSchedule [] [] 0)) as [s|];
    [|exact I].
  unfold findCriticalPath.
  destruct (number_eqb (snd (latest_task (s_completionTime s))) minus_one).
  - induction H as [|a b l l' (Hid & Hdeps & _) _ IH]; simpl; constructor; auto.
    repeat split; simpl; congruence.
  - rewrite <- (tracePath_alike todos todos' _ _ _ H).
    destruct (tracePath _ todos _ _ _ _) as [t|]; [|exact I].
    induction H as [|a b l l' (Hid & Hdeps & _) _ IH]; simpl; constructor; auto.
    repeat split; simpl; congruence.
Qed.

Lemma toTodoWithDependencies_alike (row : Todo) :
  reads_alike row (toTodoWithDependencies row).
Proof.
  split; [reflexivity|]. split.
  - unfold deps_of. simpl. destruct (dependencies row) as [[|c r]|]; reflexivity.
  - unfold duration_or_default. simpl. destruct (duration row) as [[|p|p]|]; reflexivity.
Qed.

(** X24.  The conversions of the schedule route are invisible in the
    schedule: computed on the rows as the route passes them on, with the
    empty text and the zero replaced by [undefined], the identifiers, the
    parsed dependencies, the earliest starts and the critical flags are
    those computed on the rows as stored. *)
Theorem normalisation_invisible (clock : nat -> Date) (rows : list Todo) :
  exists results results',
    calculateSchedule clock rows = Some results
    /\ calculateSchedule clock (map toTodoWithDependencies rows) = Some results'
    /\ Forall2 same_schedule results results'.
Proof.
  assert (H : Forall2 reads_alike rows (map toTodoWithDependencies rows)).
  { induction rows as [|row r IH]; simpl; constructor;
      [apply toTodoWithDependencies_alike|assumption]. }
  apply (calculateSchedule_alike clock) in H.
  destruct (calculateSchedule_returns clock rows) as (s & path & _ & _ & Hres).
  destruct (calculateSchedule_returns clock (map toTodoWithDependencies rows))
    as (s' & path' & _ & _ & Hres').
  rewrite Hres, Hres' in H. eauto.
Qed.

(** ** Creation of a task: the status of the answer *)

Lemma is_empty_true (s : string) : is_empty s = true <-> s = EmptyString.
Proof. destruct s; simpl; split; congruence. Qed.

Lemma title_check (t : string) :
  is_empty t || is_empty (trim t) = true <-> trim t = EmptyString.
Proof.
  rewrite orb_true_iff, !is_empty_true. split; [|auto].
  intros [->|H]; [reflexivity|assumption].
Qed.

Section CreationFacts.
Variable Date_getTime : string -> option Z.

Lemma processDueDate_message (dueDate : string) (message : string) :
  dueDate <> EmptyString ->
  processDueDate Date_getTime dueDate = inr message ->
  message = "Invalid date format"%string.
Proof.
  intros Hne. unfold processDueDate. destruct dueDate as [|c r]; [contradiction|].
  destruct (Date_getTime (String c r)); intros H; [discriminate|]. now injection H as <-.
Qed.

Lemma processDueDate_returns (dueDate : string) (time : Z) :
  processDueDate Date_getTime dueDate = inl time <->
  dueDate <> EmptyString /\ Date_getTime dueDate = Some time.
Proof.
  unfold processDueDate. destruct dueDate as [|c r].
  - split; [discriminate|]. intros [H _]. now elim H.
  - destruct (Date_getTime (String c r)) as [t|].
    + split; [intros H; injection H as <-|intros [_ H]; injection H as <-]; auto.
      split; [discriminate|reflexivity].
    + split; [discriminate|]. intros [_ H]. discriminate H.
Qed.

Lemma POST_catch_400 (thrown : Thrown) (error : string) :
  POST_catch thrown = Status400 error <->
  thrown = Error error /\ Pexels.String_includes error "Due date" = true.
Proof.
  destruct thrown as [message|]; simpl.
  - destruct (Pexels.String_includes message "Due date") eqn:E.
    + split; [intros H; injection H as <-; auto|].
      intros [H _]. now injection H as <-.
    + split; [discriminate|]. intros [H Hinc]. injection H as <-. congruence.
  - split; [discriminate|]. intros [H _]. discriminate H.
Qed.

End CreationFacts.

(** X25.  A due date that cannot be read is answered with status 500.
    When the title is not blank and the due date is a text that
    [new Date] does not understand, the message of the error thrown does
    not contain the words the handler looks for, and the answer is the
    general server error and not a bad request. *)
Theorem invalid_due_date_is_server_error
    (Date_getTime : string -> option Z) (searchPexelsImage : string -> option string)
    (create : TodoData -> Todo + Thrown)
    (title dueDate : string) (dependencies : member) (duration : option Z) :
  trim title <> EmptyString ->
  dueDate <> EmptyString ->
  Date_getTime dueDate = None ->
  POST Date_getTime searchPexelsImage create (Some title) (Some dueDate)
       dependencies duration
  = Status500 "Error creating todo".
Proof.
  intros Htitle Hdue Hdate. unfold POST.
  destruct (is_empty title || is_empty (trim title)) eqn:E.
  { apply title_check in E. contradiction. }
  destruct (is_empty dueDate) eqn:Ed; [apply is_empty_true in Ed; contradiction|].
  unfold processDueDate. destruct dueDate as [|c r]; [contradiction|].
  rewrite Hdate. reflexivity.
Qed.

Lemma invalid_due_date_is_server_error_witness :
  POST (fun _ => None) (fun _ => None) (fun _ => inr NotAnError)
       (Some "Buy milk"%string) (Some "soon"%string) Missing None
  = Status500 "Error creating todo".
Proof.
  apply (invalid_due_date_is_server_error (fun _ => None) (fun _ => None)
           (fun _ => inr NotAnError) "Buy milk" "soon" Missing None).
  - vm_compute. discriminate.
  - discriminate.
  - reflexivity.
Defined.

(** The bad requests among the requests whose body could be read. *)
Lemma POST_bad_request
    (Date_getTime : string -> option Z) (searchPexelsImage : string -> option string)
    (create : TodoData -> Todo + Thrown)
    (title dueDate : option string) (dependencies : member) (duration : option Z)
    (error : string) :
  POST Date_getTime searchPexelsImage create title dueDate dependencies duration
  = Status400 error
  <-> (blank_title title /\ error = "Title is required"%string)
      \/ (~ blank_title title /\ missing dueDate /\ error = "Due date is required"%string)
      \/ (exists t d time,
            title = Some t /\ trim t <> EmptyString
            /\ dueDate = Some d /\ d <> EmptyString
            /\ Date_getTime d = Some time
            /\ create (mkData t time
                         (Pexels.getImageForTodo (searchPexelsImage (trim t)) (trim t))
                         (POST_dependencies dependencies) (POST_duration duration))
               = inr (Error error)
            /\ Pexels.String_includes error "Due date" = true).
Proof.
  unfold POST, blank_title, missing. destruct title as [t|].
  2:{ split; [intros H; injection H as <-; now left|].
      intros [[_ ->]|[[H _]|(t & d & time & H & _)]];
        [reflexivity|now elim H|discriminate H]. }
  destruct (is_empty t || is_empty (trim t)) eqn:E.
  { apply title_check in E. split; [intros H; injection H as <-; now left|].
    intros [[_ ->]|[[H _]|(t' & d & time & H & Ht & _)]];
      [reflexivity|contradiction|]. injection H as <-. contradiction. }
  assert (Ht : trim t <> EmptyString).
  { intros H. apply title_check in H. congruence. }
  destruct dueDate as [d|].
  2:{ split; [intros H; injection H as <-; right; left; auto|].
      intros [[H _]|[(_ & _ & ->)|(t' & d & time & _ & _ & H & _)]];
        [contradiction|reflexivity|discriminate H]. }
  destruct (is_empty d) eqn:Ed.
  { apply is_empty_true in Ed. subst d.
    split; [intros H; injection H as <-; right; left; auto|].
    intros [[H _]|[(_ & _ & ->)|(t' & d & time & _ & _ & H & Hd & _)]];
      [contradiction|reflexivity|]. injection H as <-. now elim Hd. }
  assert (Hd : d <> EmptyString).
  { intros H. apply is_empty_true in H. congruence. }
  destruct (processDueDate Date_getTime d) as [p|message] eqn:Ep.
  - apply processDueDate_returns in Ep as [_ Hp].
    destruct (create _) as [todo|thrown] eqn:Ec.
    + split; [discriminate|].
      intros [[H _]|[(_ & [H|H] & _)|(t' & d' & time & H1 & _ & H2 & _ & H3 & H4 & _)]];
        [contradiction|discriminate H|injection H as ->; now elim Hd|].
      injection H1 as <-. injection H2 as <-. rewrite Hp in H3. injection H3 as <-.
      rewrite Ec in H4. discriminate H4.
    + rewrite POST_catch_400. split.
      * intros [-> Hinc]. right. right. exists t, d, p. auto 10.
      * intros [[H _]|[(_ & [H|H] & _)|(t' & d' & time & H1 & _ & H2 & _ & H3 & H4 & Hinc)]];
          [contradiction|discriminate H|injection H as ->; now elim Hd|].
        injection H1 as <-. injection H2 as <-. rewrite Hp in H3. injection H3 as <-.
        rewrite Ec in H4. injection H4 as ->. auto.
  - pose proof (processDueDate_message Date_getTime d message Hd Ep) as ->.
    split; [discriminate|].
    intros [[H _]|[(_ & [H|H] & _)|(t' & d' & time & _ & _ & H2 & _ & H3 & _)]];
      [contradiction|discriminate H|injection H as ->; now elim Hd|].
    injection H2 as <-.
    assert (Hp : processDueDate Date_getTime d = inl time)
      by (apply processDueDate_returns; auto).
    congruence.
Qed.

(** X26.  Where a bad request comes from.  With a title and a due date
    that are texts or missing, the handler answers with status 400 in
    four cases only.  The body of the request cannot be read and the
    [Error] thrown has a message that contains the words [Due date];
    that message is the answer.  The title is missing, empty
    or white space, with the message that a title is required.  The
    title is fine and the due date is missing or empty, with the message
    that a due date is required.  Or title and due date are fine, the
    insertion of the row throws an [Error] whose message contains the
    words [Due date], and that message is the answer.  An error raised
    by the reading of the body or by the insertion is thus reported as a
    mistake of the client whenever its message happens to contain these
    words, whereas a due date that cannot be read never is. *)
Theorem bad_request_cases
    (Date_getTime : string -> option Z) (searchPexelsImage : string -> option string)
    (create : TodoData -> Todo + Thrown)
    (json : Body + Thrown) (error : string) :
  POST_request Date_getTime searchPexelsImage create json = Status400 error
  <-> (json = inr (Error error) /\ Pexels.String_includes error "Due date" = true)
      \/ (exists body,
            json = inl body
            /\ ((blank_title (body_title body) /\ error = "Title is required"%string)
                \/ (~ blank_title (body_title body) /\ missing (body_dueDate body)
                    /\ error = "Due date is required"%string)
                \/ (exists t d time,
                      body_title body = Some t /\ trim t <> EmptyString
                      /\ body_dueDate body = Some d /\ d <> EmptyString
                      /\ Date_getTime d = Some time
                      /\ create (mkData t time
                                   (Pexels.getImageForTodo (searchPexelsImage (trim t))
                                                           (trim t))
                                   (POST_dependencies (body_dependencies body))
                                   (POST_duration (body_duration body)))
                         = inr (Error error)
                      /\ Pexels.String_includes error "Due date" = true))).
Proof.
  destruct json as [body|thrown]; simpl.
  - rewrite POST_bad_request. split.
    + intros H. right. exists body. auto.
    + intros [[H _]|(body' & H & Hcases)]; [discriminate H|].
      injection H as <-. exact Hcases.
  - rewrite POST_catch_400. split.
    + intros [-> H]. left. auto.
    + intros [[H Hinc]|(body & H & _)]; [|discriminate H].
      injection H as ->. auto.
Qed.

(** An insertion that fails with such a message is answered as a bad
    request, and so is a body that cannot be read. *)
Example unreadable_body_as_bad_request :
  POST_request (fun _ => Some 0) (fun _ => None) (fun _ => inr NotAnError)
               (inr (Error "Unexpected token D, Due date is not valid JSON"))
  = Status400 "Unexpected token D, Due date is not valid JSON".
Proof. reflexivity. Qed.

Example insertion_error_as_bad_request :
  POST (fun _ => Some 0) (fun _ => None)
       (fun _ => inr (Error "Due date out of range"))
       (Some "Buy milk"%string) (Some "2025-01-01"%string) Missing None
  = Status400 "Due date out of range".
Proof. reflexivity. Qed.
